(** * hprof: heap-dump reader, linker and reverse-edge index

    A shallow embedding of [readdump.go] (record reader, [Heap.find],
    [readPtr], [linkPtr], [linkFields], [link]) and of the index builder
    and goroutine listing of [hview/main.go] ([prepare], [goListHandler]),
    with the properties of the specification stated over it.

    Conventions.
    - [uint64] values are [Z] with the wrap-around written out ([add64],
      [sub64], [shl64]).
    - [*Object] pointers are indices into the [objects] slice of the dump;
      the slice is the store that linking mutates (only [edges] and [typ]
      are ever written).
    - [log.Fatal] is [Fatal msg]; a run-time panic (index or slice bound)
      is [Panic]; a loop that was cut by the fuel of the model is
      [OutOfFuel]. *)

From Stdlib Require Import ZArith Lia.
From Stdlib Require Import Strings.Byte.
From stdpp Require Import base list gmap strings sorting.

Local Open Scope Z_scope.

(** ** Machine integers *)

Definition two64 : Z := 2 ^ 64.
Definition u64 (x : Z) : Z := x mod two64.
Definition add64 (a b : Z) : Z := u64 (a + b).
Definition sub64 (a b : Z) : Z := u64 (a - b).
Definition shl64 (a n : Z) : Z := u64 (Z.shiftl a n).
Definition byteZ (b : byte) : Z := Z.of_N (Byte.to_N b).

#[global] Instance byte_eq_decision : EqDecision byte := Byte.byte_eq_dec.
Definition len64 {A} (l : list A) : Z := Z.of_nat (length l).

(** ** Outcomes and the state monad of the reader and of the linker *)

Inductive result (A : Type) : Type :=
| Ok (a : A)
| Fatal (msg : string)
| Panic
| OutOfFuel.
Arguments Ok {A} a.
Arguments Fatal {A} msg.
Arguments Panic {A}.
Arguments OutOfFuel {A}.

Definition St (S A : Type) : Type := S -> result (A * S).

Definition ret {S A} (a : A) : St S A := fun s => Ok (a, s).
Definition bind {S A B} (m : St S A) (k : A -> St S B) : St S B :=
  fun s => match m s with
           | Ok (a, s') => k a s'
           | Fatal msg => Fatal msg
           | Panic => Panic
           | OutOfFuel => OutOfFuel
           end.
Definition lift {S A} (r : result A) : St S A :=
  fun s => match r with
           | Ok a => Ok (a, s)
           | Fatal msg => Fatal msg
           | Panic => Panic
           | OutOfFuel => OutOfFuel
           end.
Definition fatal {S A} (msg : string) : St S A := fun _ => Fatal msg.
Definition get {S} : St S S := fun s => Ok (s, s).
Definition put {S} (s : S) : St S unit := fun _ => Ok (tt, s).

Notation "'do' x <- m ; k" := (bind m (fun x => k))
  (at level 10, x name, m at level 100, k at level 200).
Notation "'run' m ; k" := (bind m (fun _ => k))
  (at level 10, m at level 100, k at level 200).

(** [for _, a := range l { body a }] *)
Fixpoint forM_ {S A} (body : A -> St S unit) (l : list A) : St S unit :=
  match l with
  | [] => ret tt
  | a :: l' => run body a; forM_ body l'
  end.

(** ** Data model ([readdump.go], lines 17-175) *)

Definition fieldKindPtr : Z := 0.
Definition fieldKindString : Z := 1.
Definition fieldKindSlice : Z := 2.
Definition fieldKindIface : Z := 3.
Definition fieldKindEface : Z := 4.

Definition typeKindObject : Z := 0.
Definition typeKindArray : Z := 1.
Definition typeKindChan : Z := 2.

Definition tagObject : Z := 1.
Definition tagEOF : Z := 3.
Definition tagStackRoot : Z := 4.
Definition tagDataRoot : Z := 5.
Definition tagOtherRoot : Z := 6.
Definition tagType : Z := 7.
Definition tagGoRoutine : Z := 8.
Definition tagStackFrame : Z := 9.
Definition tagParams : Z := 10.
Definition tagFinalizer : Z := 11.
Definition tagItab : Z := 12.
Definition tagOSThread : Z := 13.
Definition tagMemStats : Z := 14.

(** [binary.ByteOrder]; [NoOrder] is the nil interface of a Dump that has
    seen no Params record. *)
Inductive ByteOrder : Type := NoOrder | LittleEndian | BigEndian.

Record Field : Type := mkField {
  fld_kind : Z;
  fld_offset : Z
}.

Record GoType : Type := mkType {
  ty_name : list byte;
  ty_size : Z;
  ty_efaceptr : bool;
  ty_fields : list Field;
  ty_addr : Z
}.

(** [to] is the index of the object pointed to. *)
Record Edge : Type := mkEdge {
  e_to : nat;
  e_fromoffset : Z;
  e_tooffset : Z
}.

Record Object : Type := mkObject {
  obj_typ : option GoType;
  obj_kind : Z;
  obj_data : list byte;
  obj_edges : list Edge;
  obj_addr : Z;
  obj_typaddr : Z
}.

(** The root, frame and goroutine records keep their raw fields; the
    references that [link] stores into them ([frame], [e], [tos], [ctxt],
    [parent], [goroutine]) are read by none of the properties below and
    are left out. *)
Record StackRoot : Type := mkStackRoot {
  sr_fromaddr : Z; sr_toaddr : Z; sr_frameaddr : Z; sr_depth : Z
}.
Record DataRoot : Type := mkDataRoot { dr_fromaddr : Z; dr_toaddr : Z }.
Record OtherRoot : Type := mkOtherRoot { or_description : list byte; or_toaddr : Z }.

Record Finalizer : Type := mkFinalizer {
  fin_obj : Z; fin_fn : Z; fin_code : Z; fin_fint : Z; fin_ot : Z
}.

Record Itab : Type := mkItab { itab_addr : Z; itab_ptr : bool }.

Record OSThread : Type := mkOSThread { ost_addr : Z; ost_id : Z; ost_procid : Z }.

Record GoRoutine : Type := mkGoRoutine {
  g_addr : Z; g_tosaddr : Z; g_goid : Z; g_gopc : Z; g_status : Z;
  g_issystem : bool; g_isbackground : bool; g_waitsince : Z;
  g_waitreason : list byte; g_ctxtaddr : Z; g_maddr : Z
}.

Record StackFrame : Type := mkStackFrame {
  sf_name : list byte; sf_depth : Z; sf_addr : Z; sf_parentaddr : Z;
  sf_entry : Z; sf_pc : Z
}.

Record Dump : Type := mkDump {
  order : ByteOrder;
  ptrSize : Z;
  hChanSize : Z;
  heapStart : Z;
  heapEnd : Z;
  thechar : Z;
  experiment : list byte;
  ncpu : Z;
  types : list GoType;
  objects : list Object;
  frames : list StackFrame;
  goroutines : list GoRoutine;
  stackroots : list StackRoot;
  dataroots : list DataRoot;
  otherroots : list OtherRoot;
  finalizers : list Finalizer;
  itabs : list Itab;
  osthreads : list OSThread
}.

(** [var d Dump]: the zero value. *)
Definition emptyDump : Dump :=
  mkDump NoOrder 0 0 0 0 0 [] 0 [] [] [] [] [] [] [] [] [] [].

Definition set_objects (d : Dump) (v : list Object) : Dump :=
  mkDump (order d) (ptrSize d) (hChanSize d) (heapStart d) (heapEnd d) (thechar d)
         (experiment d) (ncpu d) (types d) v (frames d) (goroutines d)
         (stackroots d) (dataroots d) (otherroots d) (finalizers d) (itabs d)
         (osthreads d).

Definition set_edges (o : Object) (v : list Edge) : Object :=
  mkObject (obj_typ o) (obj_kind o) (obj_data o) v (obj_addr o) (obj_typaddr o).
Definition set_typ (o : Object) (v : option GoType) : Object :=
  mkObject v (obj_kind o) (obj_data o) (obj_edges o) (obj_addr o) (obj_typaddr o).

(** ** Pointer decoding ([readPtr], lines 631-645) *)

(** [b[i]], with the bounds check of the language. *)
Definition index (b : list byte) (i : Z) : result Z :=
  match b !! Z.to_nat i with
  | Some x => Ok (byteZ x)
  | None => Panic
  end.

(** [uint64(b[i0])<<s0 + uint64(b[i1])<<s1 + ...], summed left to right. *)
Fixpoint sumBytes (b : list byte) (terms : list (Z * Z)) (acc : Z) : result Z :=
  match terms with
  | [] => Ok acc
  | (i, s) :: rest =>
      match index b i with
      | Ok x => sumBytes b rest (add64 acc (shl64 x s))
      | Fatal msg => Fatal msg
      | Panic => Panic
      | OutOfFuel => OutOfFuel
      end
  end.

Definition readPtr (d : Dump) (b : list byte) : result Z :=
  match order d, ptrSize d with
  | LittleEndian, 4 =>
      sumBytes b [(0, 0); (1, 8); (2, 16); (3, 24)] 0
  | BigEndian, 4 =>
      sumBytes b [(3, 0); (2, 8); (1, 16); (0, 24)] 0
  | LittleEndian, 8 =>
      sumBytes b [(0, 0); (1, 8); (2, 16); (3, 24); (4, 32); (5, 40); (6, 48); (7, 56)] 0
  | BigEndian, 8 =>
      sumBytes b [(7, 0); (6, 8); (5, 16); (4, 24); (3, 32); (2, 40); (1, 48); (0, 56)] 0
  | _, _ => Fatal "unsupported order=%v ptrSize=%d"
  end.

(** [data[off:]] for a [uint64] offset. *)
Definition sliceFrom (data : list byte) (off : Z) : result (list byte) :=
  if off <=? len64 data then Ok (drop (Z.to_nat off) data) else Panic.

(** ** The heap index ([Heap.find], lines 359-372) *)

(** The loop of [sort.Search]; [fuel] bounds the number of halvings. *)
Fixpoint searchLoop (fuel : nat) (f : nat -> bool) (i j : nat) : nat :=
  match fuel with
  | O => i
  | S n =>
      if (i <? j)%nat then
        let h := ((i + j) / 2)%nat in
        if f h then searchLoop n f i h else searchLoop n f (S h) j
      else i
  end.

Definition Search (n : nat) (f : nat -> bool) : nat := searchLoop (S n) f 0%nat n.

(** [h[i]], followed through the store. *)
Definition heapAt (objs : list Object) (h : list nat) (i : nat) : option Object :=
  match h !! i with
  | Some q => objs !! q
  | None => None
  end.

(** The predicate handed to [sort.Search] by [find]. *)
Definition endsAfter (objs : list Object) (h : list nat) (p : Z) (i : nat) : bool :=
  match heapAt objs h i with
  | Some o => p <? add64 (obj_addr o) (len64 (obj_data o))
  | None => false
  end.

(** Returns the object containing the pointed-to address (its index and
    its contents), or [None]. *)
Definition find (objs : list Object) (h : list nat) (p : Z) : option (nat * Object) :=
  let j := Search (length h) (endsAfter objs h p) in
  match h !! j with
  | Some q =>
      match objs !! q with
      | Some o => if obj_addr o <=? p then Some (q, o) else None
      | None => None
      end
  | None => None
  end.

(** [sort.Sort(info.heap)]: ascending addresses.  The library sort is not
    stable; the order of objects with equal addresses is fixed here by a
    merge sort. *)
Definition addrOf (objs : list Object) (q : nat) : Z :=
  match objs !! q with
  | Some o => obj_addr o
  | None => 0
  end.

Definition addrLe (objs : list Object) (a b : nat) : Prop :=
  addrOf objs a <= addrOf objs b.

#[global] Instance addrLe_dec objs a b : Decision (addrLe objs a b).
Proof. unfold addrLe. apply _. Defined.

Definition sortHeap (objs : list Object) : list nat :=
  merge_sort (addrLe objs) (seq 0 (length objs)).

(** ** Linking ([linkPtr], [linkFields], [link], lines 448-623) *)

(** The maps of [LinkInfo].  [globals] comes from the debugging data of
    the executable and only names data roots; it is not part of the
    model. *)
Record LinkInfo : Type := mkLinkInfo {
  li_dump : Dump;
  li_types : gmap Z GoType;
  li_itabs : gmap Z Itab;
  li_frames : gmap (Z * Z) StackFrame;
  li_heap : list nat
}.

(** The linker runs over the store of objects. *)
Abbreviation L := (St (list Object)).

(** [x.edges = append(x.edges, e)] *)
Definition appendEdge (x : nat) (e : Edge) : L unit :=
  fun objs => Ok (tt, alter (fun o => set_edges o (obj_edges o ++ [e])) x objs).

(** [readPtr(info.dump, x.data[off:])] *)
Definition readPtrAt (info : LinkInfo) (x : nat) (off : Z) : L Z :=
  fun objs =>
    match objs !! x with
    | Some o =>
        match sliceFrom (obj_data o) off with
        | Ok b => lift (readPtr (li_dump info) b) objs
        | _ => Panic
        end
    | None => Panic
    end.

Definition linkPtr (info : LinkInfo) (x : nat) (off : Z) : L unit :=
  do p <- readPtrAt info x off;
  do objs <- get;
  match find objs (li_heap info) p with
  | Some (q, oq) => appendEdge x (mkEdge q off (sub64 p (obj_addr oq)))
  | None => ret tt
  end.

(** One iteration of the loop of [linkFields]. *)
Definition linkField (info : LinkInfo) (x : nat) (offset : Z) (f : Field) : L unit :=
  let off := add64 offset (fld_offset f) in
  if fld_kind f =? fieldKindPtr then linkPtr info x off
  else if fld_kind f =? fieldKindString then linkPtr info x off
  else if fld_kind f =? fieldKindSlice then linkPtr info x off
  else if fld_kind f =? fieldKindEface then
    run linkPtr info x off;
    do tp <- readPtrAt info x off;
    if tp =? 0 then ret tt
    else
      match li_types info !! tp with
      | None => fatal "can't find eface type"
      | Some t =>
          if ty_efaceptr t
          then linkPtr info x (add64 off (ptrSize (li_dump info)))
          else ret tt
      end
  else if fld_kind f =? fieldKindIface then
    do tp <- readPtrAt info x off;
    if tp =? 0 then ret tt
    else
      match li_itabs info !! tp with
      | None => fatal "can't find iface tab"
      | Some t =>
          if itab_ptr t
          then linkPtr info x (add64 off (ptrSize (li_dump info)))
          else ret tt
      end
  else ret tt.

Definition linkFields (info : LinkInfo) (x : nat) (fields : list Field) (offset : Z) : L unit :=
  forM_ (linkField info x offset) fields.

(** [for i := start; i <= bound; i += size { body i }] over [uint64]. *)
Fixpoint passLoop (fuel : nat) (body : Z -> L unit) (i bound size : Z) : L unit :=
  match fuel with
  | O => fun _ => OutOfFuel
  | S n =>
      if i <=? bound
      then run body i; passLoop n body (add64 i size) bound size
      else ret tt
  end.

(** The body of the loop "link objects to each other". *)
Definition linkObject (fuel : nat) (info : LinkInfo) (x : nat) : L unit :=
  do objs <- get;
  match objs !! x with
  | None => lift Panic
  | Some o =>
      match obj_typ o with
      | None => ret tt
      | Some t =>
          if obj_kind o =? typeKindObject then
            linkFields info x (ty_fields t) 0
          else if obj_kind o =? typeKindArray then
            passLoop fuel (linkFields info x (ty_fields t))
                     0 (sub64 (len64 (obj_data o)) (ty_size t)) (ty_size t)
          else if obj_kind o =? typeKindChan then
            passLoop fuel (linkFields info x (ty_fields t))
                     (hChanSize (li_dump info))
                     (sub64 (len64 (obj_data o)) (ty_size t)) (ty_size t)
          else ret tt
      end
  end.

(** The body of the loop "link objects to types". *)
Definition linkType (info : LinkInfo) (x : nat) : L unit :=
  do objs <- get;
  match objs !! x with
  | None => lift Panic
  | Some o =>
      if obj_typaddr o =? 0 then put (<[x := set_typ o None]> objs)
      else
        match li_types info !! obj_typaddr o with
        | Some t => put (<[x := set_typ o (Some t)]> objs)
        | None => fatal "type is missing"
        end
  end.

(** The fatal exit of the loop "link goroutines to frames"; what the loop
    writes goes to frames and goroutines only. *)
Definition linkGoroutine (info : LinkInfo) (g : GoRoutine) : L unit :=
  match li_frames info !! (g_tosaddr g, 0) with
  | Some _ => ret tt
  | None => fatal "tos missing"
  end.

(** The body of the loop "Add links for finalizers". *)
Definition linkFinalizer (info : LinkInfo) (f : Finalizer) : L unit :=
  do objs0 <- get;
  let x := find objs0 (li_heap info) (fin_obj f) in
  forM_ (fun addr =>
           do objs <- get;
           let y := find objs (li_heap info) addr in
           match x, y with
           | Some (xi, _), Some (_, oy) =>
               appendEdge xi (mkEdge xi 0 (sub64 addr (obj_addr oy)))
           | _, _ => ret tt
           end)
        [fin_fn f; fin_fint f; fin_ot f].

Definition buildTypes (ts : list GoType) : gmap Z GoType :=
  foldl (fun m t => <[ty_addr t := t]> m) ∅ ts.
Definition buildItabs (ts : list Itab) : gmap Z Itab :=
  foldl (fun m t => <[itab_addr t := t]> m) ∅ ts.
Definition buildFrames (fs : list StackFrame) : gmap (Z * Z) StackFrame :=
  foldl (fun m f => <[(sf_addr f, sf_depth f) := f]> m) ∅ fs.

Definition mkInfo (d : Dump) : LinkInfo :=
  mkLinkInfo d (buildTypes (types d)) (buildItabs (itabs d))
             (buildFrames (frames d)) (sortHeap (objects d)).

(** The phases of [link] that read or write objects, in the order of the
    source; the phases between them (frame parents, root edges) write to
    frames and roots only and cannot fail.  The executable is taken to
    carry debugging data, so that [globalMap] returns. *)
Definition linkPhases (fuel : nat) (info : LinkInfo) (d : Dump) : L unit :=
  let ids := seq 0 (length (objects d)) in
  run forM_ (linkType info) ids;
  run forM_ (linkGoroutine info) (goroutines d);
  run forM_ (linkObject fuel info) ids;
  forM_ (linkFinalizer info) (finalizers d).

Definition link (fuel : nat) (d : Dump) : result Dump :=
  match linkPhases fuel (mkInfo d) d (objects d) with
  | Ok (_, objs) => Ok (set_objects d objs)
  | Fatal msg => Fatal msg
  | Panic => Panic
  | OutOfFuel => OutOfFuel
  end.

(** ** The record reader ([readdump.go], lines 177-357) *)

(** The reader runs over the bytes that are left in the file. *)
Abbreviation P := (St (list byte)).

(** [r.ReadByte()]; the callers turn the error into [log.Fatal]. *)
Definition readByte : P byte :=
  fun input =>
    match input with
    | b :: rest => Ok (b, rest)
    | [] => Fatal "EOF"
    end.

(** The loop of [binary.ReadUvarint]: at most ten bytes, seven bits each. *)
Fixpoint uvarintLoop (n : nat) (i x s : Z) : P Z :=
  match n with
  | O => fatal "binary: varint overflows a 64-bit integer"
  | S n' =>
      do b <- readByte;
      if byteZ b <? 128 then
        if (i =? 9) && (1 <? byteZ b)
        then fatal "binary: varint overflows a 64-bit integer"
        else ret (Z.lor x (shl64 (byteZ b) s))
      else uvarintLoop n' (i + 1) (Z.lor x (shl64 (Z.land (byteZ b) 127) s)) (s + 7)
  end.

Definition readUint64 : P Z := uvarintLoop 10 0 0 0.

(** [make([]byte, n)] and [n] calls of [ReadByte]: all [n] bytes or a
    fatal end of file (a length that no slice can have ends the program
    before the first byte is read; the model does not tell the two
    apart). *)
Definition readNBytes (n : Z) : P (list byte) :=
  fun input =>
    if n <=? len64 input
    then Ok (take (Z.to_nat n) input, drop (Z.to_nat n) input)
    else Fatal "EOF".

Definition readString : P (list byte) :=
  do n <- readUint64;
  readNBytes n.

Definition readBool : P bool :=
  do b <- readByte;
  ret (negb (byteZ b =? 0)).

(** The loop that fills [typ.fields]. *)
Fixpoint readFields (n : nat) : P (list Field) :=
  match n with
  | O => ret []
  | S n' =>
      do k <- readUint64;
      do o <- readUint64;
      do rest <- readFields n';
      ret (mkField k o :: rest)
  end.

(** [n] varints read and dropped. *)
Fixpoint skipUint64s (n : nat) : P unit :=
  match n with
  | O => ret tt
  | S n' => run readUint64; skipUint64s n'
  end.

Definition add_object (d : Dump) (v : Object) : Dump :=
  set_objects d (objects d ++ [v]).
Definition add_stackroot (d : Dump) (v : StackRoot) : Dump :=
  mkDump (order d) (ptrSize d) (hChanSize d) (heapStart d) (heapEnd d) (thechar d)
         (experiment d) (ncpu d) (types d) (objects d) (frames d) (goroutines d)
         (stackroots d ++ [v]) (dataroots d) (otherroots d) (finalizers d) (itabs d)
         (osthreads d).
Definition add_dataroot (d : Dump) (v : DataRoot) : Dump :=
  mkDump (order d) (ptrSize d) (hChanSize d) (heapStart d) (heapEnd d) (thechar d)
         (experiment d) (ncpu d) (types d) (objects d) (frames d) (goroutines d)
         (stackroots d) (dataroots d ++ [v]) (otherroots d) (finalizers d) (itabs d)
         (osthreads d).
Definition add_otherroot (d : Dump) (v : OtherRoot) : Dump :=
  mkDump (order d) (ptrSize d) (hChanSize d) (heapStart d) (heapEnd d) (thechar d)
         (experiment d) (ncpu d) (types d) (objects d) (frames d) (goroutines d)
         (stackroots d) (dataroots d) (otherroots d ++ [v]) (finalizers d) (itabs d)
         (osthreads d).
Definition add_type (d : Dump) (v : GoType) : Dump :=
  mkDump (order d) (ptrSize d) (hChanSize d) (heapStart d) (heapEnd d) (thechar d)
         (experiment d) (ncpu d) (types d ++ [v]) (objects d) (frames d) (goroutines d)
         (stackroots d) (dataroots d) (otherroots d) (finalizers d) (itabs d)
         (osthreads d).
Definition add_goroutine (d : Dump) (v : GoRoutine) : Dump :=
  mkDump (order d) (ptrSize d) (hChanSize d) (heapStart d) (heapEnd d) (thechar d)
         (experiment d) (ncpu d) (types d) (objects d) (frames d) (goroutines d ++ [v])
         (stackroots d) (dataroots d) (otherroots d) (finalizers d) (itabs d)
         (osthreads d).
Definition add_frame (d : Dump) (v : StackFrame) : Dump :=
  mkDump (order d) (ptrSize d) (hChanSize d) (heapStart d) (heapEnd d) (thechar d)
         (experiment d) (ncpu d) (types d) (objects d) (frames d ++ [v]) (goroutines d)
         (stackroots d) (dataroots d) (otherroots d) (finalizers d) (itabs d)
         (osthreads d).
Definition add_finalizer (d : Dump) (v : Finalizer) : Dump :=
  mkDump (order d) (ptrSize d) (hChanSize d) (heapStart d) (heapEnd d) (thechar d)
         (experiment d) (ncpu d) (types d) (objects d) (frames d) (goroutines d)
         (stackroots d) (dataroots d) (otherroots d) (finalizers d ++ [v]) (itabs d)
         (osthreads d).
Definition add_itab (d : Dump) (v : Itab) : Dump :=
  mkDump (order d) (ptrSize d) (hChanSize d) (heapStart d) (heapEnd d) (thechar d)
         (experiment d) (ncpu d) (types d) (objects d) (frames d) (goroutines d)
         (stackroots d) (dataroots d) (otherroots d) (finalizers d) (itabs d ++ [v])
         (osthreads d).
Definition set_params (d : Dump) (o : ByteOrder) (ps hcs hs he tc : Z)
           (ex : list byte) (nc : Z) : Dump :=
  mkDump o ps hcs hs he tc ex nc (types d) (objects d) (frames d) (goroutines d)
         (stackroots d) (dataroots d) (otherroots d) (finalizers d) (itabs d)
         (osthreads d).

(** One turn of the [for] loop of [rawRead]: [None] is the [return &d] of
    [tagEOF], [Some d'] goes round again. *)
Definition readRecord (d : Dump) : P (option Dump) :=
  do kind <- readUint64;
  if kind =? tagObject then
    do addr <- readUint64;
    do typaddr <- readUint64;
    do k <- readUint64;
    do size <- readUint64;
    do data <- readNBytes size;
    ret (Some (add_object d (mkObject None k data [] addr typaddr)))
  else if kind =? tagEOF then
    ret None
  else if kind =? tagStackRoot then
    do fromaddr <- readUint64;
    do toaddr <- readUint64;
    do frameaddr <- readUint64;
    do depth <- readUint64;
    ret (Some (add_stackroot d (mkStackRoot fromaddr toaddr frameaddr depth)))
  else if kind =? tagDataRoot then
    do fromaddr <- readUint64;
    do toaddr <- readUint64;
    ret (Some (add_dataroot d (mkDataRoot fromaddr toaddr)))
  else if kind =? tagOtherRoot then
    do description <- readString;
    do toaddr <- readUint64;
    ret (Some (add_otherroot d (mkOtherRoot description toaddr)))
  else if kind =? tagType then
    do addr <- readUint64;
    do size <- readUint64;
    do name <- readString;
    do efaceptr <- readBool;
    do nptr <- readUint64;
    do fields <- readFields (Z.to_nat nptr);
    ret (Some (add_type d (mkType name size efaceptr fields addr)))
  else if kind =? tagGoRoutine then
    do addr <- readUint64;
    do tosaddr <- readUint64;
    do goid <- readUint64;
    do gopc <- readUint64;
    do status <- readUint64;
    do issystem <- readBool;
    do isbackground <- readBool;
    do waitsince <- readUint64;
    do waitreason <- readString;
    do ctxtaddr <- readUint64;
    do maddr <- readUint64;
    ret (Some (add_goroutine d
           (mkGoRoutine addr tosaddr goid gopc status issystem isbackground
                        waitsince waitreason ctxtaddr maddr)))
  else if kind =? tagStackFrame then
    do addr <- readUint64;
    do depth <- readUint64;
    do parentaddr <- readUint64;
    do entry <- readUint64;
    do pc <- readUint64;
    do name <- readString;
    run readString;
    ret (Some (add_frame d (mkStackFrame name depth addr parentaddr entry pc)))
  else if kind =? tagParams then
    do flag <- readUint64;
    let o := if flag =? 0 then LittleEndian else BigEndian in
    do ps <- readUint64;
    do hcs <- readUint64;
    do hs <- readUint64;
    do he <- readUint64;
    do tc <- readUint64;
    do ex <- readString;
    do nc <- readUint64;
    ret (Some (set_params d o ps hcs hs he (tc mod 256) ex nc))
  else if kind =? tagFinalizer then
    do obj <- readUint64;
    do fn <- readUint64;
    do code <- readUint64;
    do fint <- readUint64;
    do ot <- readUint64;
    ret (Some (add_finalizer d (mkFinalizer obj fn code fint ot)))
  else if kind =? tagItab then
    do addr <- readUint64;
    do ptr <- readBool;
    ret (Some (add_itab d (mkItab addr ptr)))
  else if kind =? tagOSThread then
    (* t := &OSThread{}; the three fields are stored in t and the case ends *)
    do addr <- readUint64;
    do id <- readUint64;
    do procid <- readUint64;
    let t := mkOSThread addr id procid in
    ret (Some d)
  else if kind =? tagMemStats then
    (* t := &runtime.MemStats{}: 24 counters, PauseNs[256], NumGC *)
    run skipUint64s 24;
    run skipUint64s 256;
    run skipUint64s 1;
    ret (Some d)
  else fatal "unknown record kind %d".

(** The [for] loop of [rawRead]; every turn consumes at least one byte, so
    the length of the input is fuel enough ([rawLoop_fuel]). *)
Fixpoint rawLoop (fuel : nat) (d : Dump) : P Dump :=
  match fuel with
  | O => fun _ => OutOfFuel
  | S n =>
      do r <- readRecord d;
      match r with
      | None => ret d
      | Some d' => rawLoop n d'
      end
  end.

(** [r.ReadLine()] on a buffered reader: the bytes up to the first line
    feed, without the end-of-line bytes; an empty file is an error. *)
Fixpoint splitLine (input : list byte) : list byte * option (list byte) :=
  match input with
  | [] => ([], None)
  | b :: rest =>
      if byteZ b =? 10 then ([], Some rest)
      else let '(line, r) := splitLine rest in (b :: line, r)
  end.

Definition dropCR (line : list byte) : list byte :=
  match reverse line with
  | b :: r => if byteZ b =? 13 then reverse r else line
  | [] => line
  end.

Definition readLine : P (list byte) :=
  fun input =>
    match input with
    | [] => Fatal "EOF"
    | _ =>
        match splitLine input with
        | (line, Some rest) => Ok (dropCR line, rest)
        | (line, None) => Ok (line, [])
        end
    end.

Definition header : list byte := String.list_byte_of_string "go1.3 heap dump".

(** Reads heap dump into memory; [input] is the content of the file. *)
Definition rawRead (input : list byte) : result Dump :=
  match (do hdr <- readLine;
         if bool_decide (hdr = header)
         then fun rest => rawLoop (S (length rest)) emptyDump rest
         else fatal "not a go1.3 heap dump file") input with
  | Ok (d, _) => Ok d
  | Fatal msg => Fatal msg
  | Panic => Panic
  | OutOfFuel => OutOfFuel
  end.

(** [Read]: the dump is read, then linked. *)
Definition Read (fuel : nat) (input : list byte) : result Dump :=
  match rawRead input with
  | Ok d => link fuel d
  | r => r
  end.

(** ** The goroutine listing ([hview/main.go], [goListHandler]) *)

(** The fields of [read.GoRoutine] that the handler reads. *)
Record GoInfo : Type := mkGoInfo {
  Addr : Z;
  Status : Z;
  WaitReason : string
}.

(** The [switch g.Status] of the handler. *)
Definition goState (g : GoInfo) : result string :=
  if Status g =? 0 then Ok "idle"%string
  else if Status g =? 1 then Ok "runnable"%string
  else if Status g =? 2 then Fatal "found running goroutine in heap dump"
  else if Status g =? 3 then Ok "syscall"%string
  else if Status g =? 4 then Ok (WaitReason g)
  else if Status g =? 5 then Ok "dead"%string
  else Fatal "unknown goroutine status".

(** The loop of [goListHandler]: one row per goroutine, the goroutine
    named by its address; the rows are then sorted by state and rendered
    by the template. *)
Fixpoint goListHandler (gs : list GoInfo) : result (list (Z * string)) :=
  match gs with
  | [] => Ok []
  | g :: rest =>
      match goState g with
      | Ok state =>
          match goListHandler rest with
          | Ok rows => Ok ((Addr g, state) :: rows)
          | r => r
          end
      | Fatal msg => Fatal msg
      | Panic => Panic
      | OutOfFuel => OutOfFuel
      end
  end.

(** ** The index builder ([hview/main.go], [prepare]) *)

(** [read.ObjId] is a signed integer; [-1] is the sentinel of [ref1]. *)
Abbreviation ObjId := Z (only parsing).
Definition noRef : ObjId := -1.

(** The fields of [read.Edge] that the viewer reads. *)
Record REdge : Type := mkREdge {
  To : ObjId;
  FromOffset : Z;
  ToOffset : Z;
  FieldName : string
}.

Record bucket : Type := mkBucket {
  bytes : Z;
  bkt_objects : list ObjId
}.

(** What [prepare] leaves in the globals [byType], [ref1] and [ref2]. *)
Record Index : Type := mkIndex {
  byType : list bucket;
  ref1 : list ObjId;
  ref2 : gmap Z (list ObjId)
}.

(** [ref2[d]]: a missing key reads as the empty slice. *)
Definition ref2At (m : gmap Z (list ObjId)) (d : ObjId) : list ObjId :=
  default [] (m !! d).

(** [s[i]] for a signed index, with the bounds check of the language. *)
Definition at_ {A} (s : list A) (i : Z) : result A :=
  if i <? 0 then Panic
  else match s !! Z.to_nat i with
       | Some a => Ok a
       | None => Panic
       end.

Section Prepare.
(** The loaded dump [d], through the accessors of package [read] that
    [prepare] calls: [len(d.Objects)], [len(d.FTList)], [d.Ft(x).Id],
    [d.Size(x)] and [d.Edges(x)]. *)
Variable nObjects : nat.
Variable nFTList : nat.
Variable FtId : ObjId -> Z.
Variable Size : ObjId -> Z.
Variable Edges : ObjId -> list REdge.

(** [for i := range d.Objects]: the object ids in order. *)
Definition objIds : list ObjId := map Z.of_nat (seq 0 nObjects).

(** "group objects by type" *)
Definition addToBucket (bt : list bucket) (x : ObjId) : result (list bucket) :=
  match at_ bt (FtId x) with
  | Ok b =>
      Ok (<[Z.to_nat (FtId x) :=
             mkBucket (add64 (bytes b) (Size x)) (bkt_objects b ++ [x])]> bt)
  | Fatal msg => Fatal msg
  | Panic => Panic
  | OutOfFuel => OutOfFuel
  end.

(** The body of [for _, e := range d.Edges(x)]. *)
Definition addRef (x : ObjId) (st : list ObjId * gmap Z (list ObjId)) (e : REdge)
  : result (list ObjId * gmap Z (list ObjId)) :=
  match at_ (fst st) (To e) with
  | Ok r =>
      if r <? 0
      then Ok (<[Z.to_nat (To e) := x]> (fst st), snd st)
      else Ok (fst st, <[To e := ref2At (snd st) (To e) ++ [x]]> (snd st))
  | Fatal msg => Fatal msg
  | Panic => Panic
  | OutOfFuel => OutOfFuel
  end.

(** A loop whose body can panic. *)
Fixpoint foldR {A B} (f : A -> B -> result A) (a : A) (l : list B) : result A :=
  match l with
  | [] => Ok a
  | b :: l' =>
      match f a b with
      | Ok a' => foldR f a' l'
      | r => r
      end
  end.

(** "compute referrers" *)
Definition addRefs (st : list ObjId * gmap Z (list ObjId)) (x : ObjId)
  : result (list ObjId * gmap Z (list ObjId)) :=
  foldR (addRef x) st (Edges x).

Definition prepare : result Index :=
  match foldR addToBucket (replicate nFTList (mkBucket 0 [])) objIds with
  | Ok bt =>
      match foldR addRefs (replicate nObjects noRef, ∅) objIds with
      | Ok (r1, r2) => Ok (mkIndex bt r1 r2)
      | Fatal msg => Fatal msg
      | Panic => Panic
      | OutOfFuel => OutOfFuel
      end
  | Fatal msg => Fatal msg
  | Panic => Panic
  | OutOfFuel => OutOfFuel
  end.
End Prepare.

(** ** Reading the index back *)

(** The referrers that [getReferrers] walks for [d]: [ref1[d]] unless it is
    the sentinel, then the entries of [ref2[d]]. *)
Definition referrerIds (idx : Index) (d : ObjId) : list ObjId :=
  match ref1 idx !! Z.to_nat d with
  | Some r => if r <? 0 then [] else r :: ref2At (ref2 idx) d
  | None => []
  end.

(** The invariant of the loop of [prepare]: [ref2] is empty below a
    sentinel. *)
Definition sparse (st : list ObjId * gmap Z (list ObjId)) : Prop :=
  forall d r, 0 <= d -> fst st !! Z.to_nat d = Some r -> r < 0 -> ref2At (snd st) d = [].

Definition refsIn (st : list ObjId * gmap Z (list ObjId)) (d : ObjId) : list ObjId :=
  referrerIds (mkIndex [] (fst st) (snd st)) d.

(** The object graph as [prepare] walks it: [x] once for each of its edges
    that lands in [d], objects in id order and edges in slice order. *)
Definition inboundFrom (x d : ObjId) (es : list REdge) : list ObjId :=
  flat_map (fun e => if bool_decide (To e = d) then [x] else []) es.

Definition inbound (nObjects : nat) (Edges : ObjId -> list REdge) (d : ObjId) : list ObjId :=
  flat_map (fun x => inboundFrom x d (Edges x)) (objIds nObjects).

(** How often [s] occurs in [l]. *)
Definition occurrences (s : ObjId) (l : list ObjId) : nat :=
  length (filter (fun y => y = s) l).

(** A graph for the examples: object 0 holds two pointers to object 1. *)
Definition twoEdges (x : ObjId) : list REdge :=
  if x =? 0 then [mkREdge 1 0 0 ""; mkREdge 1 8 0 ""] else [].

(** ** Inputs of the examples *)

(** The byte with the given value. *)
Definition byteOf (z : Z) : byte := default x00 (Byte.of_N (Z.to_N z)).

(** A pointer-size word in little-endian order. *)
Definition le64 (v : Z) : list byte :=
  map (fun k => byteOf ((v / 2 ^ (8 * k)) mod 256)) [0; 1; 2; 3; 4; 5; 6; 7].

(** A dump file with one OSThread record (addr 1, id 2, procid 3) between
    the header line and the end-of-file record. *)
Definition osthreadStream : list byte :=
  header ++ map byteOf [10; tagOSThread; 1; 2; 3; tagEOF].

(** What a parser may do with its input: it never gives the bytes back,
    and it is not cut by fuel. *)
Definition parses {A} (strict : bool) (p : P A) : Prop :=
  forall input,
    match p input with
    | Ok (_, rest) =>
        if strict then (length rest < length input)%nat
        else (length rest <= length input)%nat
    | OutOfFuel => False
    | Panic => False
    | Fatal _ => True
    end.

(** ** Vocabulary of the linker properties *)

(** The store with [l] appended to the edges of object [x]. *)
Definition addEdges (x : nat) (l : list Edge) (objs : list Object) : list Object :=
  alter (fun o => set_edges o (obj_edges o ++ l)) x objs.

(** [lo <= fromoffset e1 <= fromoffset e2 <= ... <= hi]. *)
Fixpoint chain (lo : Z) (l : list Edge) (hi : Z) : Prop :=
  match l with
  | [] => lo <= hi
  | e :: l' => lo <= e_fromoffset e /\ chain (e_fromoffset e) l' hi
  end.

(** The edges of an object are ordered by [fromoffset]. *)
Definition edgesOrdered (l : list Edge) : Prop :=
  forall i j e1 e2, (i <= j)%nat -> l !! i = Some e1 -> l !! j = Some e2 ->
                    e_fromoffset e1 <= e_fromoffset e2.

(** What [find] reads of an object: its address and the length of its
    payload. *)
Definition geomOf (o : Object) : Z * nat := (obj_addr o, length (obj_data o)).

(** What of an object the linker never writes after the type phase. *)
Definition shapeOf (o : Object) : option GoType * Z * list byte * Z * Z :=
  (obj_typ o, obj_kind o, obj_data o, obj_addr o, obj_typaddr o).

(** Two dumps for the finalizer phase: object 0 (8 bytes at 0x1000) has a
    finalizer whose [fn] points into object 1 (16 bytes at 0x2000), at
    byte 8 in the first dump and at byte 12 in the second. *)
Definition finalizerDump : Dump :=
  mkDump LittleEndian 8 96 0 0 0 [] 1 []
    [mkObject None 0 (le64 0) [] 0x1000 0;
     mkObject None 0 (le64 0 ++ le64 0) [] 0x2000 0]
    [] [] [] [] [] [mkFinalizer 0x1000 0x2008 0 0 0] [] [].

Definition finalizerDump12 : Dump :=
  mkDump LittleEndian 8 96 0 0 0 [] 1 []
    [mkObject None 0 (le64 0) [] 0x1000 0;
     mkObject None 0 (le64 0 ++ le64 0) [] 0x2000 0]
    [] [] [] [] [] [mkFinalizer 0x1000 0x200c 0 0 0] [] [].

(** A dump with an empty interface: object 0 (at 0x1000) has one eface
    field at offset 0; its type word is 0x3000, the address of a type with
    [efaceptr = false] and also the address of object 1; its data word is
    0x2000, the address of object 2. *)
Definition efaceDump : Dump :=
  mkDump LittleEndian 8 96 0 0 0 [] 1
    [mkType [] 16 false [mkField fieldKindEface 0] 0x5000;
     mkType [] 8 false [] 0x3000]
    [mkObject None 0 (le64 0x3000 ++ le64 0x2000) [] 0x1000 0x5000;
     mkObject None 0 (le64 0) [] 0x3000 0;
     mkObject None 0 (le64 0) [] 0x2000 0]
    [] [] [] [] [] [] [] [].

(** A dump with a pointer field and a finalizer on the same object:
    object 0 (at 0x1000) has a pointer at offset 8 to object 1 (at 0x2000)
    and a finalizer whose [fn] is object 1. *)
Definition orderDump : Dump :=
  mkDump LittleEndian 8 96 0 0 0 [] 1
    [mkType [] 16 false [mkField fieldKindPtr 8] 0x5000]
    [mkObject None 0 (le64 0 ++ le64 0x2000) [] 0x1000 0x5000;
     mkObject None 0 (le64 0) [] 0x2000 0]
    [] [] [] [] [] [mkFinalizer 0x1000 0x2000 0 0 0] [] [].



(** ** Changing the payload of one object *)







(** ** Well-formed dumps *)

(** How far past its offset a field can give an edge: one pointer further
    for the two interface kinds, whose data word follows the type word. *)
Definition span (ps : Z) (f : Field) : Z :=
  if (fld_kind f =? fieldKindEface) || (fld_kind f =? fieldKindIface) then ps else 0.

(** The fields are listed by increasing offset, an interface field ends
    before the next field starts, and all of it lies in [[lo, hi]]. *)
Fixpoint fieldsOrdered (ps lo : Z) (fields : list Field) (hi : Z) : bool :=
  match fields with
  | [] => lo <=? hi
  | f :: fs => (lo <=? fld_offset f) && fieldsOrdered ps (fld_offset f + span ps f) fs hi
  end.

Definition wfType (ps : Z) (t : GoType) : bool :=
  fieldsOrdered ps 0 (ty_fields t) (ty_size t).

(** An object as the reader leaves it: no edges yet, a payload that a
    slice can hold, and, when its type address names a type of the dump, a
    well-formed type that is not larger than the payload. *)
Definition wfObject (d : Dump) (o : Object) : bool :=
  match obj_edges o with [] => true | _ => false end
  && (len64 (obj_data o) <? two64)
  && ((obj_typaddr o =? 0)
      || match buildTypes (types d) !! obj_typaddr o with
         | Some t => wfType (ptrSize d) t && (ty_size t <=? len64 (obj_data o))
         | None => true
         end).

Definition wfDump (d : Dump) : bool :=
  (0 <=? ptrSize d) && (0 <=? hChanSize d) && forallb (wfObject d) (objects d).

(** The type that "link objects to types" gives an object. *)
Definition typed (d : Dump) (o : Object) : Prop :=
  obj_typ o = if obj_typaddr o =? 0 then None else buildTypes (types d) !! obj_typaddr o.

(** An object that is ready for the scan of its fields. *)
Definition scannable (ps : Z) (o : Object) : Prop :=
  len64 (obj_data o) < two64 /\
  forall t, obj_typ o = Some t ->
            wfType ps t = true /\ ty_size t <= len64 (obj_data o).

(** ** Well-formed heaps *)

(** The address after the last byte of an object. *)
Definition objEnd (o : Object) : Z := obj_addr o + len64 (obj_data o).

(** The heap index lists objects of the store, their address ranges fit
    in 64 bits, and they follow each other without overlap. *)
Definition wfHeap (s : list Object) (h : list nat) : Prop :=
  (forall i q, h !! i = Some q ->
     exists o, s !! q = Some o /\ 0 <= obj_addr o /\ objEnd o < two64) /\
  (forall i j oi oj, (i < j)%nat ->
     heapAt s h i = Some oi -> heapAt s h j = Some oj -> objEnd oi <= obj_addr oj).

(** ** More of the source: the decoders of the viewer *)

(** A four-byte word in little-endian order. *)
Definition le32 (v : Z) : list byte :=
  map (fun k => byteOf ((v / 2 ^ (8 * k)) mod 256)) [0; 1; 2; 3].

(** [hview/main.go], lines 1035-1080: [readPtr], [read64], [read32] and
    [read16] of the viewer, over [d.Order] and [d.PtrSize] of the loaded
    dump. *)
Module View.

Definition read64 (d : Dump) (b : list byte) : result Z :=
  match order d with
  | LittleEndian =>
      sumBytes b [(0, 0); (1, 8); (2, 16); (3, 24); (4, 32); (5, 40); (6, 48); (7, 56)] 0
  | BigEndian =>
      sumBytes b [(7, 0); (6, 8); (5, 16); (4, 24); (3, 32); (2, 40); (1, 48); (0, 56)] 0
  | NoOrder => Fatal "unsupported order=%v"
  end.

Definition read32 (d : Dump) (b : list byte) : result Z :=
  match order d with
  | LittleEndian => sumBytes b [(0, 0); (1, 8); (2, 16); (3, 24)] 0
  | BigEndian => sumBytes b [(3, 0); (2, 8); (1, 16); (0, 24)] 0
  | NoOrder => Fatal "unsupported order=%v"
  end.

Definition read16 (d : Dump) (b : list byte) : result Z :=
  match order d with
  | LittleEndian => sumBytes b [(0, 0); (1, 8)] 0
  | BigEndian => sumBytes b [(1, 0); (0, 8)] 0
  | NoOrder => Fatal "unsupported order=%v"
  end.

Definition readPtr (d : Dump) (b : list byte) : result Z :=
  match ptrSize d with
  | 4 => read32 d b
  | 8 => read64 d b
  | _ => Fatal "unsupported PtrSize=%d"
  end.

End View.

(** The dump [d] with another byte order and pointer size. *)
Definition withParams (d : Dump) (o : ByteOrder) (ps : Z) : Dump :=
  set_params d o ps (hChanSize d) (heapStart d) (heapEnd d) (thechar d)
             (experiment d) (ncpu d).

(** The parameters that [readPtr] accepts: one of the two byte orders and
    a pointer of four or eight bytes. *)
Definition supported (d : Dump) : bool :=
  match order d with
  | NoOrder => false
  | _ => (ptrSize d =? 4) || (ptrSize d =? 8)
  end.

(** ** More of the source: the format that the reader decodes *)

(** The varint that [binary.ReadUvarint] reads back, as the writer of the
    dump ([binary.PutUvarint]) lays it out: seven bits to a byte, low
    groups first, the high bit set on every byte but the last
    ([byte(x) | 0x80] is [x mod 128 + 128]). *)
Fixpoint putUvarint (fuel : nat) (x : Z) : list byte :=
  match fuel with
  | O => []
  | S n =>
      if x <? 128 then [byteOf x]
      else byteOf (x mod 128 + 128) :: putUvarint n (x / 128)
  end.

Definition uvarint (x : Z) : list byte := putUvarint 10 x.

(** A string of the format: its length, then its bytes. *)
Definition putString (s : list byte) : list byte := uvarint (len64 s) ++ s.

(** A boolean of the format. *)
Definition putBool (b : bool) : list byte := [byteOf (if b then 1 else 0)].

(** The fields of a Type record, and the Object and Type records. *)
Definition putFields (fields : list Field) : list byte :=
  flat_map (fun f => uvarint (fld_kind f) ++ uvarint (fld_offset f)) fields.

Definition putObject (o : Object) : list byte :=
  uvarint tagObject ++ uvarint (obj_addr o) ++ uvarint (obj_typaddr o)
  ++ uvarint (obj_kind o) ++ putString (obj_data o).

Definition putType (t : GoType) : list byte :=
  uvarint tagType ++ uvarint (ty_addr t) ++ uvarint (ty_size t)
  ++ putString (ty_name t) ++ putBool (ty_efaceptr t)
  ++ uvarint (len64 (ty_fields t)) ++ putFields (ty_fields t).

(** A value that fits a [uint64]. *)
Definition isU64 (x : Z) : Prop := 0 <= x < two64.

(** The scalars of an object and of a type fit the format. *)
Definition u64Object (o : Object) : Prop :=
  isU64 (obj_addr o) /\ isU64 (obj_typaddr o) /\ isU64 (obj_kind o)
  /\ isU64 (len64 (obj_data o)).

Definition u64Type (t : GoType) : Prop :=
  isU64 (ty_addr t) /\ isU64 (ty_size t) /\ isU64 (len64 (ty_name t))
  /\ isU64 (len64 (ty_fields t))
  /\ Forall (fun f => isU64 (fld_kind f) /\ isU64 (fld_offset f)) (ty_fields t).

(** An object as the reader builds it: no type and no edges yet. *)
Definition rawObject (o : Object) : Object :=
  mkObject None (obj_kind o) (obj_data o) [] (obj_addr o) (obj_typaddr o).

(** A reader that, given more input behind what it was given, reads the
    same and leaves the additional bytes unread. *)
Definition stable {A} (p : P A) : Prop :=
  forall input a rest extra,
    p input = Ok (a, rest) -> p (input ++ extra) = Ok (a, rest ++ extra).

(** ** More of the source: heaps of objects that do not overlap *)

(** The objects of the store are not empty, their address ranges fit in
    64 bits, and no two of them overlap. *)
Definition disjointObjects (s : list Object) : Prop :=
  (forall q o, s !! q = Some o ->
     0 <= obj_addr o /\ 0 < len64 (obj_data o) /\ objEnd o < two64) /\
  (forall i j oi oj, i <> j -> s !! i = Some oi -> s !! j = Some oj ->
     objEnd oi <= obj_addr oj \/ objEnd oj <= obj_addr oi).

(** ** More of the source: the table of globals ([readdump.go], lines
    374-391) *)

Record Global : Type := mkGlobal {
  gl_name : string;
  gl_addr : Z
}.

Module Globals.

(** The predicate handed to [sort.Search] by [find]. *)
Definition startsAfter (g : list Global) (p : Z) (i : nat) : bool :=
  match g !! i with
  | Some x => p <? gl_addr x
  | None => false
  end.

(** Returns the global variable containing the given address. *)
Definition find (g : list Global) (p : Z) : result Global :=
  let j := Search (length g) (startsAfter g p) in
  match j with
  | O => Ok (mkGlobal "unknown global" 0)
  | S j' =>
      match g !! j' with
      | Some x => Ok x
      | None => Panic
      end
  end.

(** The table is in the order that [sort.Sort] gives it. *)
Definition sorted (g : list Global) : Prop :=
  forall i j x y, (i <= j)%nat -> g !! i = Some x -> g !! j = Some y ->
                  gl_addr x <= gl_addr y.

End Globals.

(** A table of two globals for the examples. *)
Definition twoGlobals : list Global := [mkGlobal "a" 10; mkGlobal "b" 20].

(** ** More of the source: what linking leaves of the store *)

(** The object with the type that "link objects to types" gives it. *)
Definition retype (types : gmap Z GoType) (o : Object) : Object :=
  set_typ o (if obj_typaddr o =? 0 then None else types !! obj_typaddr o).

(** [s'] is [s] with edges appended to its objects, all of them in [Q];
    nothing else of an object differs. *)
Definition grows (Q : Edge -> Prop) (s s' : list Object) : Prop :=
  Forall2 (fun o o' => shapeOf o' = shapeOf o /\
                       exists l, obj_edges o' = obj_edges o ++ l /\ Forall Q l) s s'.

(** The edge lands inside the payload of its destination in [s]. *)
Definition landsIn (s : list Object) (e : Edge) : Prop :=
  exists o, s !! e_to e = Some o /\ 0 <= e_tooffset e < len64 (obj_data o).

(** The destination of the edge is an object of [s]. *)
Definition pointsIn (s : list Object) (e : Edge) : Prop :=
  (e_to e < length s)%nat.

(** The last record of [ts] whose key is [k]. *)
Definition lastWith {K V} `{EqDecision K} (key : V -> K) (k : K) (ts : list V) : option V :=
  last (filter (fun t => key t = k) ts).

(** A dump with an interface: object 0 (at 0x1000) has one iface field at
    offset 0; its itab word is 0x4000, the address of an itab whose data
    word is a pointer, and its data word is 0x2000, the address of
    object 1. *)
Definition ifaceDump : Dump :=
  mkDump LittleEndian 8 96 0 0 0 [] 1
    [mkType [] 16 false [mkField fieldKindIface 0] 0x5000]
    [mkObject None 0 (le64 0x4000 ++ le64 0x2000) [] 0x1000 0x5000;
     mkObject None 0 (le64 0) [] 0x2000 0]
    [] [] [] [] [] [] [mkItab 0x4000 true] [].

(** A dump with a goroutine and no stack frame. *)
Definition lostGoroutine : GoRoutine :=
  mkGoRoutine 0x100 0x7000 1 0 4 false false 0 [] 0 0.

Definition lostGoroutineDump : Dump :=
  mkDump LittleEndian 8 96 0 0 0 [] 1 [] [] [] [lostGoroutine] [] [] [] [] [] [].

(** A dump file with one Object record (addr 16, no type, kind 0, two
    bytes of payload) between the header line and the end-of-file
    record. *)
Definition objectStream : list byte :=
  header ++ map byteOf [10; tagObject; 16; 0; 0; 2; 7; 9; tagEOF].

(** ** More of the source: the histogram of [prepare] *)

Definition sumZ (l : list Z) : Z := foldr Z.add 0 l.

(** The objects of full type [t], in id order. *)
Definition ofType (nObjects : nat) (FtId : ObjId -> Z) (t : nat) : list ObjId :=
  filter (fun x => FtId x = Z.of_nat t) (objIds nObjects).


(** A graph and a typing for the examples: three objects of sizes 16, 8
    and 8, the first of full type 1 and the others of full type 0;
    object 0 points to object 1 twice and object 2 points to object 1. *)
Definition threeEdges (x : ObjId) : list REdge :=
  if x =? 0 then [mkREdge 1 0 0 ""; mkREdge 1 8 0 ""]
  else if x =? 2 then [mkREdge 1 0 0 ""] else [].
Definition threeFt (x : ObjId) : Z := if x =? 0 then 1 else 0.
Definition threeSize (x : ObjId) : Z := if x =? 0 then 16 else 8.

(** A dump with an array object whose element type has size 0. *)
Definition zeroSizeType : GoType := mkType [] 0 false [] 0x5000.

Definition zeroSizeDump : Dump :=
  mkDump LittleEndian 8 96 0 0 0 [] 1 [zeroSizeType]
    [mkObject None typeKindArray (le64 0) [] 0x1000 0x5000]
    [] [] [] [] [] [] [] [].

(** * Properties *)

(** ** Goroutine states *)

(** C9. Status codes 0, 1, 3, 4 and 5 are shown as idle, runnable,
    syscall, the wait reason of the goroutine and dead; code 2 and every
    other code end the program with a fatal error. *)
Theorem goroutine_status_mapping (g : GoInfo) :
  match Status g with
  | 0 => goState g = Ok "idle"%string
  | 1 => goState g = Ok "runnable"%string
  | 3 => goState g = Ok "syscall"%string
  | 4 => goState g = Ok (WaitReason g)
  | 5 => goState g = Ok "dead"%string
  | _ => exists msg, goState g = Fatal msg
  end.
Proof.
  unfold goState.
  destruct (Status g) as [|p|p]; simpl; try (eexists; reflexivity); try reflexivity.
  do 3 (destruct p as [p|p|]; simpl; try (eexists; reflexivity); try reflexivity).
Qed.

(** A goroutine with a fatal status stops the whole listing. *)
Lemma goListHandler_fatal (gs : list GoInfo) (g : GoInfo) :
  g ∈ gs ->
  (exists msg, goState g = Fatal msg) ->
  exists msg, goListHandler gs = Fatal msg.
Proof.
  intros Hin [msg Hg]. induction Hin as [g gs|g g' gs Hin IH]; simpl.
  - rewrite Hg. by eexists.
  - destruct (goState g') as [st|m| |] eqn:E.
    + destruct (IH Hg) as [m ->]. simpl. by eexists.
    + by eexists.
    + exfalso. revert E. unfold goState.
      repeat (case (_ =? _); [discriminate|]); discriminate.
    + exfalso. revert E. unfold goState.
      repeat (case (_ =? _); [discriminate|]); discriminate.
Qed.

(** ** The reverse-edge index *)

Section PrepareFacts.
Variables (nObjects nFTList : nat) (FtId Size : ObjId -> Z).
Variable Edges : ObjId -> list REdge.

Lemma addRef_spec x st e st' :
  addRef x st e = Ok st' -> 0 <= x -> sparse st ->
  sparse st' /\ length (fst st') = length (fst st) /\
  (0 <= To e < Z.of_nat (length (fst st))) /\
  forall d, 0 <= d -> refsIn st' d = refsIn st d ++ inboundFrom x d [e].
Proof.
  destruct st as [r1 r2]. unfold addRef, at_. simpl.
  destruct (Z.ltb_spec (To e) 0) as [|Hto]; [discriminate|].
  destruct (r1 !! Z.to_nat (To e)) as [r|] eqn:Hr; [|discriminate].
  pose proof (lookup_lt_Some _ _ _ Hr) as Hlt.
  destruct (Z.ltb_spec r 0) as [Hneg|Hpos]; intros [= <-] Hx HJ; simpl.
  - split; [|split; [by rewrite length_insert|split; [lia|]]].
    + intros d r' Hd Hl Hr'. simpl in *.
      destruct (decide (Z.to_nat (To e) = Z.to_nat d)) as [Heq|Hne].
      * rewrite Heq, list_lookup_insert_eq in Hl by (rewrite <- Heq; done).
        injection Hl as <-. lia.
      * rewrite list_lookup_insert_ne in Hl by done. by eapply (HJ d r').
    + intros d Hd. unfold refsIn, referrerIds, inboundFrom. simpl.
      destruct (decide (To e = d)) as [<-|Hne].
      * rewrite list_lookup_insert_eq by done. rewrite Hr.
        rewrite bool_decide_eq_true_2 by done.
        destruct (Z.ltb_spec r 0); [|lia]. destruct (Z.ltb_spec x 0); [lia|].
        pose proof (HJ (To e) r Hd Hr H) as HJe. simpl in HJe. rewrite HJe. done.
      * rewrite list_lookup_insert_ne by lia.
        rewrite bool_decide_eq_false_2 by done. by rewrite app_nil_r.
  - split; [|split; [done|split; [lia|]]].
    + intros d r' Hd Hl Hr'. simpl in *. unfold ref2At.
      destruct (decide (To e = d)) as [<-|Hne].
      * rewrite Hr in Hl. injection Hl as <-. lia.
      * rewrite lookup_insert_ne by done. by eapply (HJ d r').
    + intros d Hd. unfold refsIn, referrerIds, inboundFrom, ref2At. simpl.
      destruct (decide (To e = d)) as [<-|Hne].
      * rewrite Hr. destruct (Z.ltb_spec r 0); [lia|].
        rewrite lookup_insert_eq, bool_decide_eq_true_2 by done. done.
      * rewrite lookup_insert_ne, bool_decide_eq_false_2 by done.
        by rewrite app_nil_r.
Qed.

Lemma addRefs_edges x st es st' :
  foldR (addRef x) st es = Ok st' -> 0 <= x -> sparse st ->
  sparse st' /\ length (fst st') = length (fst st) /\
  Forall (fun e => 0 <= To e < Z.of_nat (length (fst st))) es /\
  forall d, 0 <= d -> refsIn st' d = refsIn st d ++ inboundFrom x d es.
Proof.
  revert st. induction es as [|e es IH]; intros st; simpl.
  - intros [= <-] _ HJ. repeat split; try done.
    intros d _. by rewrite app_nil_r.
  - destruct (addRef x st e) as [st1| | |] eqn:E; try discriminate.
    intros Hf Hx HJ.
    destruct (addRef_spec _ _ _ _ E Hx HJ) as (HJ1 & Hlen1 & Hto & Hrefs1).
    destruct (IH _ Hf Hx HJ1) as (HJ' & Hlen' & Hall & Hrefs').
    split; [done|]. split; [congruence|]. split.
    + constructor; [done|]. by rewrite <- Hlen1.
    + intros d Hd. rewrite Hrefs', Hrefs1 by done.
      unfold inboundFrom. simpl. by rewrite <- !app_assoc.
Qed.

Lemma addRefs_objects ids st st' :
  foldR (addRefs Edges) st ids = Ok st' -> Forall (fun x => 0 <= x) ids -> sparse st ->
  sparse st' /\ length (fst st') = length (fst st) /\
  Forall (fun x => Forall (fun e => 0 <= To e < Z.of_nat (length (fst st))) (Edges x)) ids /\
  forall d, 0 <= d ->
    refsIn st' d = refsIn st d ++ flat_map (fun x => inboundFrom x d (Edges x)) ids.
Proof.
  revert st. induction ids as [|x ids IH]; intros st; simpl.
  - intros [= <-] _ HJ. repeat split; try done.
    intros d _. by rewrite app_nil_r.
  - destruct (addRefs Edges st x) as [st1| | |] eqn:E; try discriminate.
    intros Hf Hx HJ. apply Forall_cons in Hx as [Hx Hids].
    destruct (addRefs_edges _ _ _ _ E Hx HJ) as (HJ1 & Hlen1 & Hto & Hrefs1).
    destruct (IH _ Hf Hids HJ1) as (HJ' & Hlen' & Hall & Hrefs').
    split; [done|]. split; [congruence|]. split.
    + constructor; [done|]. by rewrite <- Hlen1.
    + intros d Hd. rewrite Hrefs', Hrefs1 by done. by rewrite <- !app_assoc.
Qed.

Lemma objIds_nonneg : Forall (fun x => 0 <= x) (objIds nObjects).
Proof. unfold objIds. apply Forall_forall. intros x [n [-> _]]%list_elem_of_fmap. lia. Qed.

Lemma objIds_NoDup : NoDup (objIds nObjects).
Proof.
  unfold objIds. apply NoDup_fmap_2; [|apply NoDup_seq].
  intros a b. lia.
Qed.

(** The index that [prepare] returns lists, for every destination, the
    source of each inbound edge, in the order the edges are walked. *)
Lemma prepare_referrerIds idx :
  prepare nObjects nFTList FtId Size Edges = Ok idx ->
  sparse (ref1 idx, ref2 idx) /\ length (ref1 idx) = nObjects /\
  (forall x e, x ∈ objIds nObjects -> e ∈ Edges x -> 0 <= To e < Z.of_nat nObjects) /\
  forall d, 0 <= d -> referrerIds idx d = inbound nObjects Edges d.
Proof.
  unfold prepare.
  destruct (foldR _ (replicate nFTList _) _) as [bt| | |]; try discriminate.
  destruct (foldR (addRefs Edges) _ _) as [[r1 r2]| | |] eqn:E; try discriminate.
  intros [= <-]. simpl.
  apply addRefs_objects in E as (HJ & Hlen & Hall & Hrefs); [|apply objIds_nonneg|].
  - simpl in *. rewrite length_replicate in *. repeat split; try done.
    + rewrite Forall_forall in Hall. specialize (Hall _ H).
      rewrite Forall_forall in Hall. apply Hall in H0. lia.
    + rewrite Forall_forall in Hall. specialize (Hall _ H).
      rewrite Forall_forall in Hall. apply Hall in H0. lia.
    + intros d Hd. specialize (Hrefs d Hd). unfold refsIn in Hrefs.
      unfold referrerIds in *. simpl in *. rewrite Hrefs.
      destruct (replicate nObjects noRef !! Z.to_nat d) as [r|] eqn:Hl; [|done].
      apply lookup_replicate in Hl as [-> _]. done.
  - intros d r _ Hl _. done.
Qed.
End PrepareFacts.

Lemma occurrences_app s (l1 l2 : list ObjId) :
  occurrences s (l1 ++ l2) = (occurrences s l1 + occurrences s l2)%nat.
Proof. unfold occurrences. by rewrite filter_app, length_app. Qed.

Lemma occurrences_zero s (l : list ObjId) : s ∉ l -> occurrences s l = 0%nat.
Proof.
  unfold occurrences. induction l as [|a l IH]; [done|].
  intros [Hne Hnin]%not_elem_of_cons. rewrite filter_cons.
  destruct (decide (a = s)); [congruence|]. by apply IH.
Qed.

Lemma occurrences_NoDup (l : list ObjId) :
  (forall s, (occurrences s l <= 1)%nat) -> NoDup l.
Proof.
  induction l as [|a l IH]; intros Hocc; [constructor|].
  constructor.
  - intros Hin. specialize (Hocc a). unfold occurrences in Hocc.
    rewrite filter_cons in Hocc. destruct (decide (a = a)); [|done].
    simpl in Hocc.
    assert (a ∈ filter (fun y => y = a) l) as Hf by (by apply list_elem_of_filter).
    destruct (filter (fun y => y = a) l); [by apply not_elem_of_nil in Hf|].
    simpl in Hocc. lia.
  - apply IH. intros s. specialize (Hocc s). unfold occurrences in *.
    rewrite filter_cons in Hocc. destruct (decide (a = s)); simpl in Hocc; lia.
Qed.

Lemma occurrences_inboundFrom s x d es :
  occurrences s (inboundFrom x d es) =
  if decide (x = s) then length (filter (fun e => To e = d) es) else 0%nat.
Proof.
  unfold inboundFrom. induction es as [|e es IH]; simpl.
  - by destruct (decide (x = s)).
  - rewrite occurrences_app, IH, filter_cons.
    destruct (decide (To e = d)) as [Hd|Hd].
    + rewrite bool_decide_eq_true_2 by done. unfold occurrences.
      rewrite filter_cons, filter_nil. by destruct (decide (x = s)).
    + rewrite bool_decide_eq_false_2 by done. done.
Qed.

Lemma occurrences_flat_map s d (Edges : ObjId -> list REdge) (ids : list ObjId) :
  NoDup ids ->
  occurrences s (flat_map (fun x => inboundFrom x d (Edges x)) ids) =
  if decide (s ∈ ids) then length (filter (fun e => To e = d) (Edges s)) else 0%nat.
Proof.
  induction 1 as [|x ids Hnin Hnd IH]; simpl.
  - destruct (decide (s ∈ [])) as [Hin|]; [by apply not_elem_of_nil in Hin|done].
  - rewrite occurrences_app, occurrences_inboundFrom, IH.
    destruct (decide (x = s)) as [->|Hne].
    + destruct (decide (s ∈ ids)) as [Hin|_]; [done|].
      destruct (decide (s ∈ s :: ids)) as [_|Hout]; [lia|].
      exfalso. apply Hout, list_elem_of_here.
    + destruct (decide (s ∈ ids)) as [Hin|Hin];
        destruct (decide (s ∈ x :: ids)) as [Hin'|Hin']; try done.
      * exfalso. by apply Hin', list_elem_of_further.
      * apply elem_of_cons in Hin' as [?|?]; congruence.
Qed.

Lemma elem_of_inbound n (Edges : ObjId -> list REdge) s e :
  s ∈ objIds n -> e ∈ Edges s -> s ∈ inbound n Edges (To e).
Proof.
  intros Hs He. unfold inbound. apply list_elem_of_In, in_flat_map.
  exists s. split; [by apply list_elem_of_In|].
  unfold inboundFrom. apply in_flat_map. exists e.
  split; [by apply list_elem_of_In|].
  rewrite bool_decide_eq_true_2 by done. by left.
Qed.



(** C3, as the code has it.  [ref1[d]] followed by [ref2[d]] holds one
    entry for every inbound edge of [d]: an object occurs there as many
    times as it has edges that land in [d].  Where no object has two edges
    to [d], [ref1[d]] does not occur in [ref2[d]] and [ref2[d]] has no
    duplicates. *)
Theorem referrers_one_entry_per_edge nObjects nFTList FtId Size Edges idx d :
  prepare nObjects nFTList FtId Size Edges = Ok idx ->
  0 <= d ->
  (forall s, s ∈ objIds nObjects ->
     occurrences s (referrerIds idx d) = length (filter (fun e => To e = d) (Edges s))) /\
  ((forall s, s ∈ objIds nObjects ->
      (length (filter (fun e => To e = d) (Edges s)) <= 1)%nat) ->
   forall r, ref1 idx !! Z.to_nat d = Some r ->
     (r ∉ ref2At (ref2 idx) d) /\ NoDup (ref2At (ref2 idx) d)).
Proof.
  intros Hp Hd.
  destruct (prepare_referrerIds _ _ _ _ _ _ Hp) as (HJ & Hlen & Hto & Hrefs).
  pose proof (objIds_NoDup nObjects) as Hnd.
  split.
  - intros s Hs. rewrite Hrefs by done. unfold inbound.
    rewrite occurrences_flat_map by done. by rewrite decide_True.
  - intros Hone r Hr.
    assert (NoDup (referrerIds idx d)) as Hnodup.
    { apply occurrences_NoDup. intros s. rewrite Hrefs by done. unfold inbound.
      rewrite occurrences_flat_map by done.
      destruct (decide (s ∈ objIds nObjects)); [by apply Hone|lia]. }
    unfold referrerIds in Hnodup. rewrite Hr in Hnodup.
    destruct (Z.ltb_spec r 0) as [Hneg|Hpos].
    + pose proof (HJ d r Hd Hr Hneg) as He. simpl in He. rewrite He.
      split; [apply not_elem_of_nil|constructor].
    + by apply NoDup_cons in Hnodup.
Qed.

(** C4. Every edge [s -> d] of the graph has [s] in [ref1[d]] or in
    [ref2[d]], and [ref1[d]] is not the sentinel. *)
Theorem reverse_edges_complete nObjects nFTList FtId Size Edges idx s e :
  prepare nObjects nFTList FtId Size Edges = Ok idx ->
  s ∈ objIds nObjects ->
  e ∈ Edges s ->
  exists r, ref1 idx !! Z.to_nat (To e) = Some r /\ r <> noRef /\
            (s = r \/ s ∈ ref2At (ref2 idx) (To e)).
Proof.
  intros Hp Hs He.
  destruct (prepare_referrerIds _ _ _ _ _ _ Hp) as (HJ & Hlen & Hto & Hrefs).
  pose proof (Hto s e Hs He) as Hrange.
  pose proof (elem_of_inbound nObjects Edges s e Hs He) as Hin.
  rewrite <- Hrefs in Hin by lia. unfold referrerIds in Hin.
  destruct (ref1 idx !! Z.to_nat (To e)) as [r|]; [|by apply not_elem_of_nil in Hin].
  destruct (Z.ltb_spec r 0); [by apply not_elem_of_nil in Hin|].
  exists r. split; [done|]. split; [unfold noRef; lia|].
  by apply elem_of_cons in Hin.
Qed.

(** With two edges from object 0 to object 1, [ref1[1]] is object 0 and
    object 0 is in [ref2[1]] as well. *)
Lemma reverse_edges_not_minimal :
  exists idx, prepare 2 1 (fun _ => 0) (fun _ => 8) twoEdges = Ok idx /\
              ref1 idx !! 1%nat = Some 0 /\ 0 ∈ ref2At (ref2 idx) 1.
Proof.
  eexists. split; [vm_compute; reflexivity|].
  split; [reflexivity|]. vm_compute. apply list_elem_of_here.
Qed.

Lemma referrers_one_entry_per_edge_witness :
  exists idx, prepare 2 1 (fun _ => 0) (fun _ => 8) twoEdges = Ok idx /\
              occurrences 0 (referrerIds idx 1) = 2%nat.
Proof.
  eexists. split; [vm_compute; reflexivity|].
  refine (proj1 (referrers_one_entry_per_edge 2 1 (fun _ => 0) (fun _ => 8) twoEdges
                   _ 1 eq_refl _) 0 _).
  - lia.
  - apply list_elem_of_here.
Defined.

Lemma reverse_edges_complete_witness :
  exists idx, prepare 2 1 (fun _ => 0) (fun _ => 8) twoEdges = Ok idx /\
  exists r, ref1 idx !! 1%nat = Some r /\ r <> noRef /\
            (0 = r \/ 0 ∈ ref2At (ref2 idx) 1).
Proof.
  eexists. split; [vm_compute; reflexivity|].
  refine (reverse_edges_complete 2 1 (fun _ => 0) (fun _ => 8) twoEdges
            _ 0 (mkREdge 1 0 0 "") eq_refl _ _).
  - apply list_elem_of_here.
  - apply list_elem_of_here.
Defined.

(** ** The record reader *)

Lemma parses_weaken {A} (p : P A) : parses true p -> parses false p.
Proof.
  intros H input. specialize (H input).
  destruct (p input) as [[a rest]| | |]; try done. lia.
Qed.

Lemma parses_ret {A} (a : A) : parses false (ret a).
Proof. intros input. simpl. lia. Qed.

Lemma parses_fatal {A} msg : parses false (@fatal _ A msg).
Proof. by intros input. Qed.

Lemma parses_bind {A B} b1 b2 (p : P A) (k : A -> P B) :
  parses b1 p -> (forall a, parses b2 (k a)) -> parses (b1 || b2) (bind p k).
Proof.
  intros Hp Hk input. unfold bind. specialize (Hp input).
  destruct (p input) as [[a rest]| | |]; try done.
  specialize (Hk a rest). destruct (k a rest) as [[b rest']| | |]; try done.
  destruct b1, b2; simpl; lia.
Qed.

Lemma parses_bind_false {A B} (p : P A) (k : A -> P B) :
  parses false p -> (forall a, parses false (k a)) -> parses false (bind p k).
Proof. apply (parses_bind false false). Qed.

Lemma parses_readByte : parses true readByte.
Proof. intros [|b rest]; simpl; [done|lia]. Qed.

Lemma parses_uvarintLoop n i x s : parses true (uvarintLoop n i x s).
Proof.
  revert i x s. induction n as [|n IH]; intros i x s; simpl.
  - by intros input.
  - apply (parses_bind true false); [apply parses_readByte|].
    intros b. repeat case_match;
      auto using parses_fatal, parses_ret, parses_weaken.
Qed.

Lemma parses_readUint64 : parses true readUint64.
Proof. apply parses_uvarintLoop. Qed.

Lemma parses_readNBytes n : parses false (readNBytes n).
Proof.
  intros input. unfold readNBytes.
  destruct (n <=? len64 input); [|done].
  rewrite length_drop. lia.
Qed.

Lemma parses_readString : parses false readString.
Proof.
  apply parses_bind_false; [apply parses_weaken, parses_readUint64|].
  intros n. apply parses_readNBytes.
Qed.

Lemma parses_readBool : parses false readBool.
Proof.
  apply parses_bind_false; [apply parses_weaken, parses_readByte|].
  intros b. apply parses_ret.
Qed.

Lemma parses_readFields n : parses false (readFields n).
Proof.
  induction n as [|n IH]; simpl; [apply parses_ret|].
  apply parses_bind_false; [apply parses_weaken, parses_readUint64|intros k].
  apply parses_bind_false; [apply parses_weaken, parses_readUint64|intros o].
  apply parses_bind_false; [done|intros r]. apply parses_ret.
Qed.

Lemma parses_skipUint64s n : parses false (skipUint64s n).
Proof.
  induction n as [|n IH]; simpl; [apply parses_ret|].
  apply parses_bind_false; [apply parses_weaken, parses_readUint64|done].
Qed.

Ltac parses_step :=
  first
    [ apply parses_ret
    | apply parses_fatal
    | apply parses_readNBytes
    | apply parses_readString
    | apply parses_readBool
    | apply parses_readFields
    | apply parses_skipUint64s
    | apply parses_weaken, parses_readUint64
    | apply parses_bind_false; [|intros ?] ].

Lemma parses_readRecord d : parses true (readRecord d).
Proof.
  unfold readRecord.
  apply (parses_bind true false); [apply parses_readUint64|].
  intros kind. repeat case_match; repeat parses_step.
Qed.

(** The loop of [rawRead] is never cut by its fuel. *)
Lemma rawLoop_fuel fuel d input :
  (length input < fuel)%nat ->
  rawLoop fuel d input <> OutOfFuel /\ rawLoop fuel d input <> Panic.
Proof.
  revert d input. induction fuel as [|fuel IH]; intros d input Hlen; [lia|].
  simpl. unfold bind. pose proof (parses_readRecord d input) as Hp.
  destruct (readRecord d input) as [[[d'|] rest]| | |]; try done.
  apply IH. lia.
Qed.

(** A record leaves the OSThread collection of the dump as it was. *)
Lemma readRecord_osthreads d input d' rest :
  readRecord d input = Ok (Some d', rest) -> osthreads d' = osthreads d.
Proof.
  unfold readRecord, bind, ret, fatal.
  repeat (case_match; try discriminate); by intros [= <-].
Qed.

Lemma rawLoop_osthreads fuel d input d' rest :
  rawLoop fuel d input = Ok (d', rest) -> osthreads d' = osthreads d.
Proof.
  revert d input. induction fuel as [|fuel IH]; intros d input; simpl; [done|].
  unfold bind. destruct (readRecord d input) as [[[d1|] rest1]| | |] eqn:E; try done.
  - intros H. apply IH in H. rewrite H. by eapply readRecord_osthreads.
  - by intros [= <- _].
Qed.

(** No dump that [rawRead] returns has an OSThread in it. *)
Lemma rawRead_osthreads input d : rawRead input = Ok d -> osthreads d = [].
Proof.
  unfold rawRead, bind.
  destruct (readLine input) as [[hdr rest]| | |]; try done.
  case_bool_decide; [|done].
  destruct (rawLoop _ _ _) as [[d' rest']| | |] eqn:E; try done.
  intros [= <-]. by apply rawLoop_osthreads in E.
Qed.

(** [rawRead] returns a dump or ends with a fatal error. *)
Lemma rawRead_outcome input : rawRead input <> OutOfFuel /\ rawRead input <> Panic.
Proof.
  unfold rawRead, bind, readLine.
  destruct input as [|b input]; [done|].
  destruct (splitLine (b :: input)) as [line [rest|]]; case_bool_decide; try done.
  pose proof (rawLoop_fuel (S (length rest)) emptyDump rest ltac:(lia)) as [H1 H2].
  by destruct (rawLoop _ _ _) as [[d ?]| | |].
Qed.

(** C6, on the file [osthreadStream]: the OSThread record is read and the
    dump that comes back is the empty one, its OSThread collection
    included. *)
Theorem osthread_record_dropped :
  rawRead osthreadStream = Ok emptyDump /\ osthreads emptyDump = [].
Proof. split; [vm_compute; reflexivity|reflexivity]. Qed.

(** ** The heap index *)

Lemma add64_small a b : 0 <= a -> 0 <= b -> a + b < two64 -> add64 a b = a + b.
Proof. intros. unfold add64, u64. apply Z.mod_small. lia. Qed.

(** The binary search lands inside [[0, n]], on an index where the
    predicate holds whenever it lands below [n]; no order is assumed. *)
Lemma searchLoop_S fuel f i j :
  searchLoop (S fuel) f i j =
  if (i <? j)%nat
  then if f ((i + j) / 2)%nat
       then searchLoop fuel f i ((i + j) / 2)%nat
       else searchLoop fuel f (S ((i + j) / 2)) j
  else i.
Proof. reflexivity. Qed.

Lemma searchLoop_true fuel f i j n :
  (i <= j <= n)%nat -> (j - i < fuel)%nat ->
  ((j < n)%nat -> f j = true) ->
  (searchLoop fuel f i j <= n)%nat /\
  ((searchLoop fuel f i j < n)%nat -> f (searchLoop fuel f i j) = true).
Proof.
  revert i j. induction fuel as [|fuel IH]; intros i j Hij Hfuel Hj; [lia|].
  rewrite searchLoop_S. destruct (Nat.ltb_spec i j) as [Hlt|Hge].
  - assert (i <= (i + j) / 2 < j)%nat as Hh.
    { split; [apply Nat.div_le_lower_bound; lia|apply Nat.Div0.div_lt_upper_bound; lia]. }
    destruct (f ((i + j) / 2)%nat) eqn:Hf.
    + apply IH; [lia|lia|done].
    + apply IH; [lia|lia|done].
  - assert (i = j) as -> by lia. split; [lia|done].
Qed.

Lemma Search_true n f :
  (Search n f <= n)%nat /\ ((Search n f < n)%nat -> f (Search n f) = true).
Proof. unfold Search. apply searchLoop_true; lia. Qed.

(** What [find] returns is an object of the heap whose range holds [p]. *)
Lemma find_Some objs h p q o :
  find objs h p = Some (q, o) ->
  q ∈ h /\ objs !! q = Some o /\
  obj_addr o <= p < add64 (obj_addr o) (len64 (obj_data o)).
Proof.
  unfold find. pose proof (Search_true (length h) (endsAfter objs h p)) as [_ Htrue].
  remember (Search (length h) (endsAfter objs h p)) as j eqn:Hj. clear Hj.
  destruct (h !! j) as [q'|] eqn:Hq; [|done].
  destruct (objs !! q') as [o'|] eqn:Ho; [|done].
  destruct (Z.leb_spec (obj_addr o') p) as [Hle|]; [|done].
  intros [= -> ->]. split; [by eapply list_elem_of_lookup_2|]. split; [done|].
  split; [done|]. apply lookup_lt_Some in Hq as Hlt. specialize (Htrue Hlt).
  unfold endsAfter, heapAt in Htrue. rewrite Hq, Ho in Htrue. lia.
Qed.

(** The offset that [linkPtr] stores lies inside the object found. *)
Lemma find_tooffset objs h p q o :
  find objs h p = Some (q, o) -> 0 <= obj_addr o ->
  0 <= sub64 p (obj_addr o) < len64 (obj_data o).
Proof.
  intros (_ & _ & Hlo & Hhi)%find_Some Haddr. unfold sub64, add64, u64, len64, two64 in *.
  assert (0 <= obj_addr o + Z.of_nat (length (obj_data o))) as Hnn by lia.
  pose proof (Z.mod_le _ (2 ^ 64) Hnn ltac:(lia)).
  assert (0 <= p - obj_addr o) as Hd by lia.
  pose proof (Z.mod_le _ (2 ^ 64) Hd ltac:(lia)).
  pose proof (Z.mod_pos_bound (p - obj_addr o) (2 ^ 64) ltac:(lia)). lia.
Qed.

(** On a predicate that is false below [k] and true from [k] on, the
    binary search returns [k]. *)
Lemma searchLoop_exact fuel f i j k :
  (i <= k <= j)%nat -> (j - i < fuel)%nat ->
  (forall m, (m < k)%nat -> f m = false) ->
  (forall m, (k <= m < j)%nat -> f m = true) ->
  searchLoop fuel f i j = k.
Proof.
  intros Hk Hfuel Hlow Hhigh. revert i j Hk Hfuel Hhigh.
  induction fuel as [|fuel IH]; intros i j Hk Hfuel Hhigh; [lia|].
  rewrite searchLoop_S. destruct (Nat.ltb_spec i j) as [Hlt|Hge]; [|lia].
  assert (i <= (i + j) / 2 < j)%nat as Hh.
  { split; [apply Nat.div_le_lower_bound; lia|apply Nat.Div0.div_lt_upper_bound; lia]. }
  destruct (decide ((i + j) / 2 < k)%nat) as [Hhk|Hhk].
  - rewrite Hlow by done. apply IH; [lia|lia|]. intros m Hm. apply Hhigh. lia.
  - rewrite Hhigh by lia. apply IH; [lia|lia|]. intros m Hm. apply Hhigh. lia.
Qed.

(** In a well-formed heap, [find] returns the object whose address range
    holds [p]. *)
Lemma find_complete s h p k o :
  wfHeap s h -> heapAt s h k = Some o ->
  obj_addr o <= p < objEnd o ->
  exists q, h !! k = Some q /\ find s h p = Some (q, o).
Proof.
  intros [Hobjs Hsorted] Hk Hp.
  assert (forall m, (m < length h)%nat -> exists om,
            heapAt s h m = Some om /\ 0 <= obj_addr om /\ objEnd om < two64) as Hat.
  { intros m Hm. destruct (lookup_lt_is_Some_2 h m Hm) as [q Hq].
    destruct (Hobjs m q Hq) as (om & Hom & Hbounds). exists om.
    unfold heapAt. by rewrite Hq. }
  assert (k < length h)%nat as Hklen.
  { unfold heapAt in Hk. destruct (h !! k) eqn:Hq; [|done]. by eapply lookup_lt_Some. }
  assert (forall om, 0 <= obj_addr om -> objEnd om < two64 ->
            add64 (obj_addr om) (len64 (obj_data om)) = objEnd om) as Hend.
  { intros om H0 H1. unfold objEnd, len64 in *. apply add64_small; lia. }
  assert (Search (length h) (endsAfter s h p) = k) as Hsearch.
  { unfold Search. apply searchLoop_exact; [lia|lia| |].
    - intros m Hm. destruct (Hat m ltac:(lia)) as (om & Hom & H0 & H1).
      unfold endsAfter. rewrite Hom, Hend by done.
      pose proof (Hsorted m k om o Hm Hom Hk). lia.
    - intros m Hm. destruct (Hat m ltac:(lia)) as (om & Hom & H0 & H1).
      unfold endsAfter. rewrite Hom, Hend by done.
      destruct (decide (m = k)) as [->|Hne].
      + rewrite Hk in Hom. injection Hom as <-. lia.
      + pose proof (Hsorted k m o om ltac:(lia) Hk Hom).
        unfold objEnd, len64 in *. lia. }
  unfold find. rewrite Hsearch. unfold heapAt in Hk.
  destruct (h !! k) as [q|]; [|done]. exists q. split; [done|]. rewrite Hk.
  destruct (Z.leb_spec (obj_addr o) p); [done|lia].
Qed.

(** ** Stores *)

Lemma set_edges_nil o : set_edges o (obj_edges o ++ []) = o.
Proof. destruct o. unfold set_edges. simpl. by rewrite app_nil_r. Qed.

Lemma addEdges_nil x s : addEdges x [] s = s.
Proof. unfold addEdges. apply list_alter_id. intros o. apply set_edges_nil. Qed.

Lemma length_addEdges x l s : length (addEdges x l s) = length s.
Proof. apply length_alter. Qed.

Lemma lookup_addEdges x l s y :
  addEdges x l s !! y =
  (fun o => if decide (x = y) then set_edges o (obj_edges o ++ l) else o) <$> s !! y.
Proof.
  unfold addEdges. destruct (decide (x = y)) as [->|Hne].
  - by rewrite list_lookup_alter_eq.
  - rewrite list_lookup_alter_ne by done. by destruct (s !! y).
Qed.

Lemma addEdges_app x l1 l2 s :
  addEdges x l2 (addEdges x l1 s) = addEdges x (l1 ++ l2) s.
Proof.
  apply list_eq. intros y. rewrite !lookup_addEdges.
  destruct (s !! y) as [o|]; [|done]. simpl.
  destruct (decide (x = y)); [|done].
  unfold set_edges. simpl. by rewrite app_assoc.
Qed.

Lemma shape_addEdges x l s : shapeOf <$> addEdges x l s = shapeOf <$> s.
Proof.
  apply list_eq. intros y. rewrite !list_lookup_fmap, lookup_addEdges.
  destruct (s !! y) as [o|]; [|done]. simpl. by destruct (decide (x = y)).
Qed.

Lemma shape_lookup (s1 s2 : list Object) (y : nat) o1 :
  shapeOf <$> s1 = shapeOf <$> s2 -> s1 !! y = Some o1 ->
  exists o2, s2 !! y = Some o2 /\ shapeOf o2 = shapeOf o1.
Proof.
  intros Hs Ho. assert ((shapeOf <$> s2) !! y = Some (shapeOf o1)) as H2.
  { rewrite <- Hs, list_lookup_fmap, Ho. done. }
  rewrite list_lookup_fmap in H2. destruct (s2 !! y) as [o2|]; [|done].
  simpl in H2. exists o2. split; [done|congruence].
Qed.

Lemma shape_lookup_None (s1 s2 : list Object) (y : nat) :
  shapeOf <$> s1 = shapeOf <$> s2 -> s1 !! y = None -> s2 !! y = None.
Proof.
  intros Hs Ho. apply lookup_ge_None. apply lookup_ge_None in Ho.
  apply (f_equal length) in Hs. rewrite !length_fmap in Hs. lia.
Qed.

(** [find] looks at addresses and payload lengths only. *)
Lemma geom_lookup (s1 s2 : list Object) (y : nat) o1 :
  geomOf <$> s1 = geomOf <$> s2 -> s1 !! y = Some o1 ->
  exists o2, s2 !! y = Some o2 /\ obj_addr o2 = obj_addr o1 /\
             length (obj_data o2) = length (obj_data o1).
Proof.
  intros Hs Ho. assert ((geomOf <$> s2) !! y = Some (geomOf o1)) as H2.
  { rewrite <- Hs, list_lookup_fmap, Ho. done. }
  rewrite list_lookup_fmap in H2. destruct (s2 !! y) as [o2|]; [|done].
  simpl in H2. exists o2. unfold geomOf in H2. split; [done|]. split; congruence.
Qed.





Lemma shape_geom (s1 s2 : list Object) :
  shapeOf <$> s1 = shapeOf <$> s2 -> geomOf <$> s1 = geomOf <$> s2.
Proof.
  intros Hs. apply list_eq. intros y. rewrite !list_lookup_fmap.
  destruct (s1 !! y) as [o1|] eqn:Ho1.
  - destruct (shape_lookup _ _ _ _ Hs Ho1) as (o2 & -> & Ho2). simpl.
    unfold shapeOf in Ho2. unfold geomOf. do 2 f_equal; congruence.
  - by rewrite (shape_lookup_None _ _ _ Hs Ho1).
Qed.

(** ** Pointer links *)

Lemma readPtrAt_state info x off s p s' :
  readPtrAt info x off s = Ok (p, s') -> s' = s.
Proof.
  unfold readPtrAt, lift. destruct (s !! x) as [o|]; [|done].
  destruct (sliceFrom _ _) as [b| | |]; try done.
  destruct (readPtr _ _); try done. by intros [= _ <-].
Qed.

(** Reading a pointer looks at the payload only. *)
Lemma readPtrAt_shape info x off (s1 s2 : list Object) :
  shapeOf <$> s1 = shapeOf <$> s2 ->
  match readPtrAt info x off s1 with
  | Ok (p, _) => readPtrAt info x off s2 = Ok (p, s2)
  | Fatal msg => readPtrAt info x off s2 = Fatal msg
  | Panic => readPtrAt info x off s2 = Panic
  | OutOfFuel => readPtrAt info x off s2 = OutOfFuel
  end.
Proof.
  intros Hs. unfold readPtrAt, lift. destruct (s1 !! x) as [o1|] eqn:Ho1.
  - destruct (shape_lookup _ _ _ _ Hs Ho1) as (o2 & -> & Ho2).
    assert (obj_data o2 = obj_data o1) as -> by (unfold shapeOf in Ho2; congruence).
    destruct (sliceFrom _ _) as [b| | |]; try done.
    by destruct (readPtr _ _).
  - by rewrite (shape_lookup_None _ _ _ Hs Ho1).
Qed.

Lemma readPtrAt_addEdges info x off s p y l :
  readPtrAt info x off s = Ok (p, s) ->
  readPtrAt info x off (addEdges y l s) = Ok (p, addEdges y l s).
Proof.
  intros Hr. pose proof (readPtrAt_shape info x off s (addEdges y l s)) as H.
  rewrite Hr in H. apply H. by rewrite shape_addEdges.
Qed.

(** [linkPtr] appends at most one edge, to [x], from offset [off], to the
    object that [find] returns for the pointer read at [off]. *)
Lemma linkPtr_emits info x off s s' :
  linkPtr info x off s = Ok (tt, s') ->
  exists p, readPtrAt info x off s = Ok (p, s) /\
    match find s (li_heap info) p with
    | Some (q, oq) => s' = addEdges x [mkEdge q off (sub64 p (obj_addr oq))] s
    | None => s' = s
    end.
Proof.
  unfold linkPtr, bind, get.
  destruct (readPtrAt info x off s) as [[p s1]| | |] eqn:Hr; try done.
  apply readPtrAt_state in Hr as Hs. subst s1. intros H. exists p. split; [done|].
  destruct (find s (li_heap info) p) as [[q oq]|].
  - unfold appendEdge in H. by injection H as <-.
  - unfold ret in H. by injection H as <-.
Qed.


Lemma linkPtr_missed info x off s p :
  readPtrAt info x off s = Ok (p, s) ->
  find s (li_heap info) p = None ->
  linkPtr info x off s = Ok (tt, s).
Proof. intros Hr Hf. unfold linkPtr, bind, get. by rewrite Hr, Hf. Qed.

(** The edges of [linkPtr], as a list. *)
Lemma linkPtr_edges info x off s s' :
  linkPtr info x off s = Ok (tt, s') ->
  exists l, s' = addEdges x l s /\ Forall (fun e => e_fromoffset e = off) l.
Proof.
  intros (p & _ & H)%linkPtr_emits.
  destruct (find s (li_heap info) p) as [[q oq]|].
  - eexists. split; [done|]. by repeat constructor.
  - exists []. split; [by rewrite addEdges_nil|constructor].
Qed.

Lemma linkField_eface info x offset f :
  fld_kind f = fieldKindEface ->
  linkField info x offset f =
  (run linkPtr info x (add64 offset (fld_offset f));
   do tp <- readPtrAt info x (add64 offset (fld_offset f));
   if tp =? 0 then ret tt
   else
     match li_types info !! tp with
     | None => fatal "can't find eface type"
     | Some t =>
         if ty_efaceptr t
         then linkPtr info x (add64 (add64 offset (fld_offset f)) (ptrSize (li_dump info)))
         else ret tt
     end).
Proof. intros Hk. unfold linkField. rewrite Hk. reflexivity. Qed.

(** C5, as the code has it.  An eface field whose type word [tp] is not
    nil and names a type with [efaceptr = false] is linked as a plain
    pointer at [off]: the data word at [off + ptrSize] yields no edge,
    whatever it holds, and the field yields no edge at all when [tp] is
    outside every heap object. *)
Theorem eface_scalar_data_word_not_linked info x offset f s tp t :
  fld_kind f = fieldKindEface ->
  readPtrAt info x (add64 offset (fld_offset f)) s = Ok (tp, s) ->
  tp <> 0 ->
  li_types info !! tp = Some t ->
  ty_efaceptr t = false ->
  linkField info x offset f s = linkPtr info x (add64 offset (fld_offset f)) s /\
  (find s (li_heap info) tp = None -> linkField info x offset f s = Ok (tt, s)).
Proof.
  intros Hk Hr Htp Ht He.
  assert (linkField info x offset f s = linkPtr info x (add64 offset (fld_offset f)) s) as Heq.
  { rewrite linkField_eface by done. unfold bind at 1.
    destruct (linkPtr info x (add64 offset (fld_offset f)) s) as [[[] s1]| | |] eqn:Hl; try done.
    apply linkPtr_edges in Hl as (l & -> & _).
    unfold bind. rewrite (readPtrAt_addEdges _ _ _ _ _ _ _ Hr).
    destruct (Z.eqb_spec tp 0); [done|]. by rewrite Ht, He. }
  split; [done|]. intros Hf. rewrite Heq. by eapply linkPtr_missed.
Qed.



(** In [efaceDump] the only field of object 0 is an eface whose type word
    names a type with [efaceptr = false], and linking gives object 0 an
    edge all the same: the type word is the address of object 1. *)
Lemma eface_scalar_edge_emitted :
  (ty_efaceptr <$> buildTypes (types efaceDump) !! 0x3000) = Some false /\
  exists d', link 0 efaceDump = Ok d' /\
             (obj_edges <$> objects d' !! 0%nat) = Some [mkEdge 1 0 0].
Proof.
  split; [vm_compute; reflexivity|].
  eexists. split; [vm_compute; reflexivity|reflexivity].
Qed.

Lemma eface_scalar_data_word_not_linked_witness :
  linkField (mkInfo efaceDump) 0 0 (mkField fieldKindEface 0) (objects efaceDump) =
  linkPtr (mkInfo efaceDump) 0 (add64 0 0) (objects efaceDump).
Proof.
  refine (proj1 (eface_scalar_data_word_not_linked (mkInfo efaceDump) 0 0
                   (mkField fieldKindEface 0) (objects efaceDump) 0x3000
                   (mkType [] 8 false [] 0x3000) eq_refl _ _ _ eq_refl)).
  - vm_compute. reflexivity.
  - lia.
  - vm_compute. reflexivity.
Defined.


(** ** Finalizers *)

Lemma forM_edges {A} (body : A -> L unit) (x : nat) (Q : Edge -> Prop) (l : list A) :
  (forall a s s', body a s = Ok (tt, s') ->
                  exists es, s' = addEdges x es s /\ Forall Q es) ->
  forall s s', forM_ body l s = Ok (tt, s') ->
               exists es, s' = addEdges x es s /\ Forall Q es.
Proof.
  intros Hbody. induction l as [|a l IH]; intros s s'; simpl.
  - intros [= <-]. exists []. split; [by rewrite addEdges_nil|constructor].
  - unfold bind. destruct (body a s) as [[[] s1]| | |] eqn:Hb; try done.
    apply Hbody in Hb as (es1 & -> & H1). intros (es2 & -> & H2)%IH.
    exists (es1 ++ es2). split; [by rewrite addEdges_app|by apply Forall_app].
Qed.

(** Every edge that a finalizer adds goes from the finalized object, at
    offset 0, to the finalized object itself. *)
Lemma linkFinalizer_edges info f s s' :
  linkFinalizer info f s = Ok (tt, s') ->
  exists x es, s' = addEdges x es s /\
               Forall (fun e => e_to e = x /\ e_fromoffset e = 0) es.
Proof.
  unfold linkFinalizer. unfold bind at 1. unfold get at 1.
  destruct (find s (li_heap info) (fin_obj f)) as [[xi ox]|].
  - intros H. exists xi. revert H. apply forM_edges.
    intros a s1 s2. unfold bind, get.
    destruct (find s1 (li_heap info) a) as [[yi oy]|].
    + unfold appendEdge. intros [= <-]. eexists. split; [done|]. by repeat constructor.
    + intros [= <-]. exists []. split; [by rewrite addEdges_nil|constructor].
  - intros H. exists 0%nat. revert H. apply forM_edges.
    intros a s1 s2. unfold bind, get.
    destruct (find s1 (li_heap info) a) as [[yi oy]|];
      intros [= <-]; exists []; (split; [by rewrite addEdges_nil|constructor]).
Qed.

(** A finalizer whose object is outside the heap, or whose targets all
    are, adds nothing. *)
Lemma linkFinalizer_unresolved info f s :
  find s (li_heap info) (fin_obj f) = None \/
  (find s (li_heap info) (fin_fn f) = None /\
   find s (li_heap info) (fin_fint f) = None /\
   find s (li_heap info) (fin_ot f) = None) ->
  linkFinalizer info f s = Ok (tt, s).
Proof.
  unfold linkFinalizer, bind, get. simpl. unfold bind, get, ret.
  intros [Hx|(Hfn & Hfint & Hot)].
  - by rewrite Hx.
  - rewrite Hfn. destruct (find s _ (fin_obj f)) as [[xi ox]|]; [|done].
    by rewrite Hfint, Hot.
Qed.

(** C1, on [finalizerDump]: the finalized object is object 0 and [fn]
    resolves to object 1, at byte 8; the edge that linking adds to object 0
    has object 0 as its destination, with the offset 8 that belongs to
    object 1. *)
Theorem finalizer_edge_points_to_finalized_object :
  (fst <$> find (objects finalizerDump) (sortHeap (objects finalizerDump)) 0x1000) = Some 0%nat /\
  (fst <$> find (objects finalizerDump) (sortHeap (objects finalizerDump)) 0x2008) = Some 1%nat /\
  exists d', link 0 finalizerDump = Ok d' /\
             (obj_edges <$> objects d' !! 0%nat) = Some [mkEdge 0 0 8].
Proof.
  split; [vm_compute; reflexivity|]. split; [vm_compute; reflexivity|].
  eexists. split; [vm_compute; reflexivity|reflexivity].
Qed.

(** C2, on [finalizerDump12]: after linking, object 0 has an edge to
    itself whose [tooffset] is 12, and object 0 has 8 bytes. *)
Theorem finalizer_edge_beyond_destination :
  exists d' o e dest,
    link 0 finalizerDump12 = Ok d' /\
    objects d' !! 0%nat = Some o /\ e ∈ obj_edges o /\
    objects d' !! e_to e = Some dest /\
    len64 (obj_data dest) <= e_tooffset e.
Proof.
  eexists _, _, (mkEdge 0 0 12), _.
  split; [vm_compute; reflexivity|].
  split; [reflexivity|]. split; [apply list_elem_of_here|].
  split; [reflexivity|]. vm_compute. discriminate.
Qed.

(** ** Passes over arrays and channels *)





(** ** What the scan of an object reads *)




Section Blind.
Variable info : LinkInfo.
Variable x : nat.
Variable data : list byte.
Variable h : Z.












End Blind.





(** ** The order of the edges *)

Lemma chain_le lo l hi : chain lo l hi -> lo <= hi.
Proof.
  revert lo. induction l as [|e l IH]; intros lo; simpl; [done|].
  intros [Hlo Hc]. apply IH in Hc. lia.
Qed.

Lemma chain_weaken lo lo' l hi hi' :
  chain lo l hi -> lo' <= lo -> hi <= hi' -> chain lo' l hi'.
Proof.
  revert lo lo'. induction l as [|e l IH]; intros lo lo'; simpl; [lia|].
  intros [Hlo Hc] Hlo' Hhi. split; [lia|]. eapply IH; [done|lia|done].
Qed.

Lemma chain_app a l1 b l2 c : chain a l1 b -> chain b l2 c -> chain a (l1 ++ l2) c.
Proof.
  revert a. induction l1 as [|e l1 IH]; intros a; simpl.
  - intros Hab Hc. eapply chain_weaken; [done|done|lia].
  - intros [Ha Hc1] Hc2. split; [done|]. by apply IH.
Qed.

Lemma chain_const v l : Forall (fun e => e_fromoffset e = v) l -> chain v l v.
Proof.
  induction 1 as [|e l He _ IH]; simpl; [lia|]. rewrite He. split; [lia|done].
Qed.

Lemma chain_ordered lo l hi : chain lo l hi -> edgesOrdered l.
Proof.
  revert lo. induction l as [|e l IH]; intros lo Hc i j e1 e2 Hij H1 H2.
  - by rewrite lookup_nil in H1.
  - destruct Hc as [Hlo Hc]. destruct i as [|i].
    + injection H1 as <-. destruct j as [|j]; [by injection H2 as <-|].
      simpl in H2. clear -Hc H2. revert j e H2 Hc.
      induction l as [|a l IHl]; intros j e H2 Hc; [by rewrite lookup_nil in H2|].
      destruct Hc as [Ha Hc]. destruct j as [|j]; [by injection H2 as <-|].
      simpl in H2. specialize (IHl _ _ H2 Hc). lia.
    + destruct j as [|j]; [lia|]. simpl in *. eapply IH; [done| |done|done]. lia.
Qed.

Lemma fieldsOrdered_le ps lo fields hi :
  0 <= ps -> fieldsOrdered ps lo fields hi = true -> lo <= hi.
Proof.
  intros Hps. revert lo. induction fields as [|f fs IH]; intros lo; simpl; [lia|].
  intros [Hlo Hrest]%andb_true_iff. apply IH in Hrest.
  unfold span in Hrest. destruct (_ || _); lia.
Qed.

(** The edges of one field run from its offset to its offset plus its
    span. *)
Lemma linkField_chain info x offset f s s' :
  0 <= offset -> 0 <= fld_offset f -> 0 <= ptrSize (li_dump info) ->
  offset + fld_offset f + span (ptrSize (li_dump info)) f < two64 ->
  linkField info x offset f s = Ok (tt, s') ->
  exists l, s' = addEdges x l s /\
            chain (offset + fld_offset f) l
                  (offset + fld_offset f + span (ptrSize (li_dump info)) f).
Proof.
  intros Hoff Hf Hps Hwrap.
  assert (0 <= span (ptrSize (li_dump info)) f) as Hspan
    by (unfold span; destruct (_ || _); lia).
  assert (add64 offset (fld_offset f) = offset + fld_offset f) as Hadd
    by (apply add64_small; lia).
  assert (forall s1 s2, linkPtr info x (offset + fld_offset f) s1 = Ok (tt, s2) ->
            exists l, s2 = addEdges x l s1 /\
                      chain (offset + fld_offset f) l
                            (offset + fld_offset f + span (ptrSize (li_dump info)) f))
    as Hfirst.
  { intros s1 s2 (l & -> & Hl)%linkPtr_edges. exists l. split; [done|].
    eapply chain_weaken; [by apply chain_const|lia|lia]. }
  assert (forall s1, exists l, s1 = addEdges x l s1 /\
            chain (offset + fld_offset f) l
                  (offset + fld_offset f + span (ptrSize (li_dump info)) f))
    as Hnone.
  { intros s1. exists []. split; [by rewrite addEdges_nil|simpl; lia]. }
  unfold linkField. rewrite Hadd. unfold span in *.
  destruct (Z.eqb_spec (fld_kind f) fieldKindPtr) as [Hk|_]; [by apply Hfirst|].
  destruct (Z.eqb_spec (fld_kind f) fieldKindString) as [Hk|_]; [by apply Hfirst|].
  destruct (Z.eqb_spec (fld_kind f) fieldKindSlice) as [Hk|_]; [by apply Hfirst|].
  destruct (Z.eqb_spec (fld_kind f) fieldKindEface) as [Hk|_].
  - simpl in *. rewrite add64_small by lia. unfold bind at 1.
    destruct (linkPtr info x _ s) as [[[] s1]| | |] eqn:Hl1; try done.
    apply linkPtr_edges in Hl1 as (l1 & -> & Hl1). unfold bind.
    destruct (readPtrAt info x _ _) as [[tp s2]| | |] eqn:Hr; try done.
    apply readPtrAt_state in Hr as ->.
    assert (chain (offset + fld_offset f) l1 (offset + fld_offset f)) as Hc1
      by (by apply chain_const).
    destruct (tp =? 0).
    { intros [= <-]. exists l1. split; [done|]. eapply chain_weaken; [done|lia|lia]. }
    destruct (li_types info !! tp) as [t|]; [|done].
    destruct (ty_efaceptr t).
    + intros (l2 & -> & Hl2)%linkPtr_edges. exists (l1 ++ l2).
      split; [by rewrite addEdges_app|].
      eapply chain_app; [eapply chain_weaken; [exact Hc1|lia|]|by apply chain_const]. lia.
    + intros [= <-]. exists l1. split; [done|]. eapply chain_weaken; [done|lia|lia].
  - destruct (Z.eqb_spec (fld_kind f) fieldKindIface) as [Hk|_]; [|intros [= <-]; apply Hnone].
    simpl in *. rewrite add64_small by lia. unfold bind.
    destruct (readPtrAt info x _ _) as [[tp s2]| | |] eqn:Hr; try done.
    apply readPtrAt_state in Hr as ->.
    destruct (tp =? 0); [intros [= <-]; apply Hnone|].
    destruct (li_itabs info !! tp) as [t|]; [|done].
    destruct (itab_ptr t); [|intros [= <-]; apply Hnone].
    intros (l2 & -> & Hl2)%linkPtr_edges. exists l2. split; [done|].
    eapply chain_weaken; [by apply chain_const|lia|lia].
Qed.

Lemma linkFields_chain info x fields offset lo hi s s' :
  0 <= offset -> 0 <= lo -> 0 <= ptrSize (li_dump info) ->
  offset + hi < two64 ->
  fieldsOrdered (ptrSize (li_dump info)) lo fields hi = true ->
  linkFields info x fields offset s = Ok (tt, s') ->
  exists l, s' = addEdges x l s /\ chain (offset + lo) l (offset + hi).
Proof.
  intros Hoff Hlo Hps Hwrap. unfold linkFields. revert lo s s' Hlo.
  induction fields as [|f fs IH]; intros lo s s' Hlo; simpl.
  - intros Hle%Z.leb_le [= <-]. exists []. split; [by rewrite addEdges_nil|simpl; lia].
  - intros [Hf%Z.leb_le Hrest]%andb_true_iff. unfold bind.
    destruct (linkField info x offset f s) as [[[] s1]| | |] eqn:Hl; try done.
    pose proof (fieldsOrdered_le _ _ _ _ Hps Hrest) as Hle.
    apply linkField_chain in Hl as (l1 & -> & Hc1); [|lia..].
    assert (0 <= span (ptrSize (li_dump info)) f) as Hspan
      by (unfold span; destruct (_ || _); lia).
    intros Hfs.
    apply (IH (fld_offset f + span (ptrSize (li_dump info)) f)) in Hfs
      as (l2 & -> & Hc2); [|lia|done].
    exists (l1 ++ l2). split; [by rewrite addEdges_app|].
    apply (chain_app _ _ (offset + fld_offset f + span (ptrSize (li_dump info)) f)).
    + eapply chain_weaken; [exact Hc1|lia|lia].
    + by rewrite <- Z.add_assoc.
Qed.

Lemma passLoop_chain x fuel (body : Z -> L unit) i bound size s s' :
  0 <= i -> 0 <= size -> bound + size < two64 ->
  (forall j s1 s2, i <= j <= bound -> body j s1 = Ok (tt, s2) ->
                   exists l, s2 = addEdges x l s1 /\ chain j l (j + size)) ->
  passLoop fuel body i bound size s = Ok (tt, s') ->
  exists l hi, s' = addEdges x l s /\ chain i l hi.
Proof.
  intros Hi Hsize Hwrap. revert i s Hi.
  induction fuel as [|fuel IH]; intros i s Hi Hbody; simpl; [done|].
  destruct (Z.leb_spec i bound) as [Hle|Hgt].
  - unfold bind. destruct (body i s) as [[[] s1]| | |] eqn:Hb; try done.
    apply Hbody in Hb as (l1 & -> & Hc1); [|lia].
    rewrite add64_small by lia.
    intros (l2 & hi & -> & Hc2)%IH; [|lia|].
    + exists (l1 ++ l2), hi. split; [by rewrite addEdges_app|by eapply chain_app].
    + intros j s1 s2 Hj. apply Hbody. lia.
  - intros [= <-]. exists [], i. split; [by rewrite addEdges_nil|simpl; lia].
Qed.

(** The scan of one object appends edges in the order of their
    [fromoffset]. *)
Lemma linkObject_chain fuel info x s s' o :
  0 <= ptrSize (li_dump info) -> 0 <= hChanSize (li_dump info) ->
  s !! x = Some o -> scannable (ptrSize (li_dump info)) o ->
  linkObject fuel info x s = Ok (tt, s') ->
  exists l hi, s' = addEdges x l s /\ chain 0 l hi.
Proof.
  intros Hps Hh Ho [Hlen Htyp]. unfold linkObject, bind, get. rewrite Ho.
  destruct (obj_typ o) as [t|] eqn:Ht.
  2:{ intros [= <-]. exists [], 0. split; [by rewrite addEdges_nil|simpl; lia]. }
  destruct (Htyp t eq_refl) as [Hwf Hsize]. unfold wfType in Hwf.
  pose proof (fieldsOrdered_le _ _ _ _ Hps Hwf) as Hsize0.
  assert (sub64 (len64 (obj_data o)) (ty_size t) = len64 (obj_data o) - ty_size t) as Hsub.
  { unfold sub64, u64. apply Z.mod_small. lia. }
  assert (forall j s1 s2, 0 <= j <= len64 (obj_data o) - ty_size t ->
            linkFields info x (ty_fields t) j s1 = Ok (tt, s2) ->
            exists l, s2 = addEdges x l s1 /\ chain j l (j + ty_size t)) as Hpass.
  { intros j s1 s2 Hj Hl.
    apply (linkFields_chain _ _ _ _ 0 (ty_size t)) in Hl as (l & -> & Hc); [|lia..|done].
    exists l. split; [done|]. by rewrite Z.add_0_r in Hc. }
  destruct (obj_kind o =? typeKindObject).
  { intros (l & -> & Hc)%Hpass; [|lia]. by exists l, (0 + ty_size t). }
  destruct (obj_kind o =? typeKindArray).
  { rewrite Hsub. intros H. eapply passLoop_chain in H; [done|lia|lia|lia|].
    intros j s1 s2 Hj. apply Hpass. lia. }
  destruct (obj_kind o =? typeKindChan).
  { rewrite Hsub. intros H. eapply passLoop_chain in H; [|lia|lia|lia|].
    - destruct H as (l & hi & -> & Hc). exists l, hi. split; [done|].
      eapply chain_weaken; [done|lia|lia].
    - intros j s1 s2 Hj. apply Hpass. lia. }
  intros [= <-]. exists [], 0. split; [by rewrite addEdges_nil|simpl; lia].
Qed.

(** ** The phases of [link] *)

Lemma wfObject_set_typ d o T : wfObject d (set_typ o T) = wfObject d o.
Proof. reflexivity. Qed.

Lemma linkType_spec info x s s' :
  linkType info x s = Ok (tt, s') ->
  exists o, s !! x = Some o /\
    s' = <[x := set_typ o (if obj_typaddr o =? 0 then None
                           else li_types info !! obj_typaddr o)]> s.
Proof.
  unfold linkType, bind, get. destruct (s !! x) as [o|]; [|done].
  intros H. exists o. split; [done|].
  destruct (obj_typaddr o =? 0); [by injection H as <-|].
  destruct (li_types info !! obj_typaddr o) as [t|]; [|done]. by injection H as <-.
Qed.

(** "link objects to types" writes the type of every object it visits and
    nothing else. *)
Lemma linkTypes_phase d ids s s' :
  forM_ (linkType (mkInfo d)) ids s = Ok (tt, s') ->
  Forall (fun o => wfObject d o = true) s ->
  Forall (fun o => wfObject d o = true) s' /\
  (forall x o', s' !! x = Some o' ->
     (x ∈ ids \/ exists o, s !! x = Some o /\ typed d o) -> typed d o').
Proof.
  revert s. induction ids as [|a ids IH]; intros s; simpl.
  - intros [= <-] Hwf. split; [done|]. intros x o' Ho' [Hin|(o & Ho & Ht)].
    + by apply not_elem_of_nil in Hin.
    + rewrite Ho' in Ho. by injection Ho as <-.
  - unfold bind. destruct (linkType (mkInfo d) a s) as [[[] s1]| | |] eqn:Hl; try done.
    apply linkType_spec in Hl as (o & Ho & ->). intros Hrest Hwf.
    apply IH in Hrest as [Hwf' Htyped].
    2:{ apply Forall_insert; [done|]. rewrite wfObject_set_typ.
        rewrite Forall_forall in Hwf. apply Hwf. by eapply list_elem_of_lookup_2. }
    split; [done|]. intros x o' Ho' Hx. apply (Htyped x o' Ho').
    destruct (decide (x = a)) as [->|Hne].
    + right. eexists. split.
      * apply list_lookup_insert_eq. by eapply lookup_lt_Some.
      * unfold typed. simpl. done.
    + destruct Hx as [Hin|(o1 & Ho1 & Ht1)].
      * left. apply elem_of_cons in Hin as [?|?]; [done|done].
      * right. exists o1. split; [|done]. by rewrite list_lookup_insert_ne.
Qed.

Lemma linkTypes_length info ids s s' :
  forM_ (linkType info) ids s = Ok (tt, s') -> length s' = length s.
Proof.
  revert s. induction ids as [|a ids IH]; intros s; simpl; [by intros [= <-]|].
  unfold bind. destruct (linkType info a s) as [[[] s1]| | |] eqn:Hl; try done.
  apply linkType_spec in Hl as (o & Ho & ->). intros ->%IH. apply length_insert.
Qed.

Lemma linkGoroutines_phase info gs s s' :
  forM_ (linkGoroutine info) gs s = Ok (tt, s') -> s' = s.
Proof.
  revert s. induction gs as [|g gs IH]; intros s; simpl; [by intros [= <-]|].
  unfold bind, linkGoroutine at 1.
  destruct (li_frames info !! _); [|done]. simpl. apply IH.
Qed.

Lemma wf_typed_scannable d o :
  wfObject d o = true -> typed d o ->
  obj_edges o = [] /\ scannable (ptrSize d) o.
Proof.
  unfold wfObject, typed, scannable.
  intros [[He Hlen%Z.ltb_lt]%andb_true_iff Hty]%andb_true_iff Ht.
  split; [by destruct (obj_edges o)|]. split; [done|].
  intros t Hsome. rewrite Ht in Hsome.
  destruct (obj_typaddr o =? 0); [done|]. simpl in Hty. rewrite Hsome in Hty.
  apply andb_true_iff in Hty as [Hwf Hsize%Z.leb_le]. done.
Qed.

Lemma scannable_addEdges ps x l s :
  Forall (scannable ps) s -> Forall (scannable ps) (addEdges x l s).
Proof.
  intros H. apply Forall_lookup. intros y o. rewrite lookup_addEdges.
  destruct (s !! y) as [o0|] eqn:Ho0; [|done]. simpl. intros [= <-].
  rewrite Forall_lookup in H. specialize (H y o0 Ho0).
  by destruct (decide (x = y)).
Qed.

(** "link objects to each other", started on objects without edges,
    leaves every object with edges in the order of their [fromoffset]. *)
Lemma linkObjects_phase fuel info ids s s' :
  0 <= ptrSize (li_dump info) -> 0 <= hChanSize (li_dump info) ->
  NoDup ids ->
  Forall (scannable (ptrSize (li_dump info))) s ->
  (forall x o, s !! x = Some o -> edgesOrdered (obj_edges o)) ->
  (forall x o, x ∈ ids -> s !! x = Some o -> obj_edges o = []) ->
  forM_ (linkObject fuel info) ids s = Ok (tt, s') ->
  forall x o, s' !! x = Some o -> edgesOrdered (obj_edges o).
Proof.
  intros Hps Hh Hnd. revert s. induction Hnd as [|a ids Hnin Hnd IH]; intros s Hscan Hord Hempty; simpl.
  - intros [= <-]. done.
  - unfold bind. destruct (linkObject fuel info a s) as [[[] s1]| | |] eqn:Hl; try done.
    assert (exists o, s !! a = Some o) as [oa Hoa].
    { revert Hl. unfold linkObject, bind, get. destruct (s !! a); [by eexists|done]. }
    rewrite Forall_lookup in Hscan. pose proof (Hscan a oa Hoa) as Hsa.
    rewrite <- Forall_lookup in Hscan.
    apply (linkObject_chain _ _ _ _ _ oa) in Hl as (l & hi & -> & Hc); [|done..].
    apply IH.
    + by apply scannable_addEdges.
    + intros x o. rewrite lookup_addEdges.
      destruct (s !! x) as [o0|] eqn:Ho0; [|done]. simpl. intros [= <-].
      destruct (decide (a = x)) as [<-|Hne]; [|by eapply Hord].
      simpl. rewrite (Hempty a o0) by (done || apply list_elem_of_here). simpl.
      by eapply chain_ordered.
    + intros x o Hin. rewrite lookup_addEdges.
      destruct (s !! x) as [o0|] eqn:Ho0; [|done]. simpl. intros [= <-].
      destruct (decide (a = x)) as [<-|Hne]; [done|].
      apply (Hempty x o0); [by apply list_elem_of_further|done].
Qed.

(** "Add links for finalizers" appends, to any object, only edges from
    offset 0 to the object itself. *)
Lemma linkFinalizers_phase info fs s s' :
  forM_ (linkFinalizer info) fs s = Ok (tt, s') ->
  forall x o', s' !! x = Some o' ->
    exists o fin, s !! x = Some o /\ obj_edges o' = obj_edges o ++ fin /\
                  Forall (fun e => e_to e = x /\ e_fromoffset e = 0) fin.
Proof.
  revert s. induction fs as [|f fs IH]; intros s; simpl.
  - intros [= <-] x o' Ho'. exists o', []. by rewrite app_nil_r.
  - unfold bind. destruct (linkFinalizer info f s) as [[[] s1]| | |] eqn:Hl; try done.
    apply linkFinalizer_edges in Hl as (xi & es & -> & Hes).
    intros Hrest x o' Ho'. destruct (IH _ Hrest x o' Ho') as (o1 & fin & Ho1 & -> & Hfin).
    rewrite lookup_addEdges in Ho1. destruct (s !! x) as [o|] eqn:Ho; [|done].
    simpl in Ho1. injection Ho1 as <-. exists o.
    destruct (decide (xi = x)) as [->|Hne].
    + exists (es ++ fin). simpl. split; [done|]. split; [by rewrite app_assoc|].
      by apply Forall_app.
    + by exists fin.
Qed.

(** In [orderDump] the pointer at offset 8 gives object 0 an edge from
    offset 8, and its finalizer then appends an edge from offset 0. *)
Lemma finalizer_edge_breaks_order :
  exists d' o, link 0 orderDump = Ok d' /\ objects d' !! 0%nat = Some o /\
               obj_edges o = [mkEdge 1 8 0; mkEdge 0 0 0] /\
               ~ edgesOrdered (obj_edges o).
Proof.
  eexists _, _. split; [vm_compute; reflexivity|]. split; [reflexivity|].
  split; [reflexivity|]. intros H.
  specialize (H 0%nat 1%nat (mkEdge 1 8 0) (mkEdge 0 0 0)). simpl in H.
  specialize (H ltac:(lia) eq_refl eq_refl). lia.
Qed.

(** C7, as the code has it.  In a well-formed dump (types that list their
    fields by increasing offset, interface fields two words wide, all
    inside the type size; typed objects at least as long as their type)
    the edges of every object after linking are the edges of the field
    scan, ordered by [fromoffset], followed by the edges of its
    finalizers, which all leave from offset 0; without finalizers all the
    edges of an object are ordered. *)
Theorem edges_ordered_up_to_finalizers fuel d d' :
  wfDump d = true ->
  link fuel d = Ok d' ->
  forall x o', objects d' !! x = Some o' ->
    (exists scan fin,
       obj_edges o' = scan ++ fin /\ edgesOrdered scan /\
       Forall (fun e => e_fromoffset e = 0) fin) /\
    (finalizers d = [] -> edgesOrdered (obj_edges o')).
Proof.
  intros [[Hps%Z.leb_le Hh%Z.leb_le]%andb_true_iff Hobjs]%andb_true_iff.
  assert (Forall (fun o => wfObject d o = true) (objects d)) as Hwf.
  { apply Forall_forall. intros o Hin. rewrite forallb_forall in Hobjs.
    by apply Hobjs, list_elem_of_In. }
  unfold link. destruct (linkPhases _ _ _ _) as [[[] s4]| | |] eqn:Hl; try done.
  intros [= <-]. simpl. revert Hl. unfold linkPhases. unfold bind at 1.
  destruct (forM_ (linkType _) _ _) as [[[] s1]| | |] eqn:H1; try done.
  unfold bind at 1.
  destruct (forM_ (linkGoroutine _) _ _) as [[[] s2]| | |] eqn:H2; try done.
  apply linkGoroutines_phase in H2 as ->. unfold bind at 1.
  destruct (forM_ (linkObject _ _) _ _) as [[[] s3]| | |] eqn:H3; try done.
  intros H4 x o' Ho'.
  pose proof (linkTypes_length _ _ _ _ H1) as Hlen1.
  apply linkTypes_phase in H1 as [Hwf1 Htyped]; [|done].
  assert (forall y o, s1 !! y = Some o ->
            obj_edges o = [] /\ scannable (ptrSize d) o) as Hready.
  { intros y o Ho. apply wf_typed_scannable.
    - rewrite Forall_lookup in Hwf1. by eapply Hwf1.
    - apply (Htyped y o Ho). left. apply elem_of_seq.
      apply lookup_lt_Some in Ho. lia. }
  assert (forall y o, s3 !! y = Some o -> edgesOrdered (obj_edges o)) as Hord3.
  { eapply (linkObjects_phase fuel (mkInfo d)); [done|done|apply NoDup_seq| | | |exact H3].
    - apply Forall_lookup. intros y o Ho. by apply (Hready y o Ho).
    - intros y o Ho. destruct (Hready y o Ho) as [-> _]. intros i j e1 e2 _ He1.
      by rewrite lookup_nil in He1.
    - intros y o _ Ho. by apply (Hready y o Ho). }
  split.
  - destruct (linkFinalizers_phase _ _ _ _ H4 x o' Ho') as (o3 & fin & Ho3 & -> & Hfin).
    exists (obj_edges o3), fin. split; [done|].
    split; [by eapply Hord3|].
    eapply Forall_impl; [exact Hfin|]. by intros e [_ He].
  - intros Hnil. rewrite Hnil in H4. simpl in H4. injection H4 as <-.
    by eapply Hord3.
Qed.

Lemma edges_ordered_up_to_finalizers_witness :
  exists d', link 0 orderDump = Ok d' /\
    forall x o', objects d' !! x = Some o' ->
      (exists scan fin,
         obj_edges o' = scan ++ fin /\ edgesOrdered scan /\
         Forall (fun e => e_fromoffset e = 0) fin) /\
      (finalizers orderDump = [] -> edgesOrdered (obj_edges o')).
Proof.
  eexists. split; [vm_compute; reflexivity|].
  apply (edges_ordered_up_to_finalizers 0 orderDump).
  - vm_compute. reflexivity.
  - vm_compute. reflexivity.
Defined.

(** * More properties of the source *)

(** ** Decoding pointers *)

Lemma byteZ_range b : 0 <= byteZ b < 256.
Proof. unfold byteZ. pose proof (Byte.to_N_bounded b). lia. Qed.

Lemma byteZ_byteOf z : 0 <= z < 256 -> byteZ (byteOf z) = z.
Proof.
  intros Hz. unfold byteZ, byteOf.
  destruct (Byte.of_N (Z.to_N z)) as [b|] eqn:Hb.
  - apply Byte.to_of_N in Hb. simpl. lia.
  - apply Byte.of_N_None_iff in Hb. lia.
Qed.

Lemma shl64_byte x s : 0 <= x -> 0 <= s -> x * 2 ^ s < two64 -> shl64 x s = x * 2 ^ s.
Proof.
  intros Hx Hs Hlt. unfold shl64, u64. rewrite Z.shiftl_mul_pow2 by done.
  apply Z.mod_small. split; [|done]. apply Z.mul_nonneg_nonneg; [done|].
  apply Z.pow_nonneg. lia.
Qed.

(** The sums that [readPtr] forms, without the wrap-around that cannot
    happen. *)
Lemma sumBytes_le4 b0 b1 b2 b3 rest :
  sumBytes (b0 :: b1 :: b2 :: b3 :: rest) [(0, 0); (1, 8); (2, 16); (3, 24)] 0 =
  Ok (byteZ b0 + byteZ b1 * 2 ^ 8 + byteZ b2 * 2 ^ 16 + byteZ b3 * 2 ^ 24).
Proof.
  simpl. unfold index. simpl.
  pose proof (byteZ_range b0). pose proof (byteZ_range b1).
  pose proof (byteZ_range b2). pose proof (byteZ_range b3).
  rewrite !shl64_byte by (unfold two64; lia).
  unfold add64, u64, two64. f_equal. Z.to_euclidean_division_equations. lia.
Qed.

Lemma sumBytes_be4 b0 b1 b2 b3 rest :
  sumBytes (b0 :: b1 :: b2 :: b3 :: rest) [(3, 0); (2, 8); (1, 16); (0, 24)] 0 =
  Ok (byteZ b3 + byteZ b2 * 2 ^ 8 + byteZ b1 * 2 ^ 16 + byteZ b0 * 2 ^ 24).
Proof.
  simpl. unfold index. simpl.
  pose proof (byteZ_range b0). pose proof (byteZ_range b1).
  pose proof (byteZ_range b2). pose proof (byteZ_range b3).
  rewrite !shl64_byte by (unfold two64; lia).
  unfold add64, u64, two64. f_equal. Z.to_euclidean_division_equations. lia.
Qed.

Lemma sumBytes_le8 b0 b1 b2 b3 b4 b5 b6 b7 rest :
  sumBytes (b0 :: b1 :: b2 :: b3 :: b4 :: b5 :: b6 :: b7 :: rest)
           [(0, 0); (1, 8); (2, 16); (3, 24); (4, 32); (5, 40); (6, 48); (7, 56)] 0 =
  Ok (byteZ b0 + byteZ b1 * 2 ^ 8 + byteZ b2 * 2 ^ 16 + byteZ b3 * 2 ^ 24
      + byteZ b4 * 2 ^ 32 + byteZ b5 * 2 ^ 40 + byteZ b6 * 2 ^ 48 + byteZ b7 * 2 ^ 56).
Proof.
  simpl. unfold index. simpl.
  pose proof (byteZ_range b0). pose proof (byteZ_range b1).
  pose proof (byteZ_range b2). pose proof (byteZ_range b3).
  pose proof (byteZ_range b4). pose proof (byteZ_range b5).
  pose proof (byteZ_range b6). pose proof (byteZ_range b7).
  rewrite !shl64_byte by (unfold two64; lia).
  unfold add64, u64, two64. f_equal. Z.to_euclidean_division_equations. lia.
Qed.

Lemma sumBytes_be8 b0 b1 b2 b3 b4 b5 b6 b7 rest :
  sumBytes (b0 :: b1 :: b2 :: b3 :: b4 :: b5 :: b6 :: b7 :: rest)
           [(7, 0); (6, 8); (5, 16); (4, 24); (3, 32); (2, 40); (1, 48); (0, 56)] 0 =
  Ok (byteZ b7 + byteZ b6 * 2 ^ 8 + byteZ b5 * 2 ^ 16 + byteZ b4 * 2 ^ 24
      + byteZ b3 * 2 ^ 32 + byteZ b2 * 2 ^ 40 + byteZ b1 * 2 ^ 48 + byteZ b0 * 2 ^ 56).
Proof.
  simpl. unfold index. simpl.
  pose proof (byteZ_range b0). pose proof (byteZ_range b1).
  pose proof (byteZ_range b2). pose proof (byteZ_range b3).
  pose proof (byteZ_range b4). pose proof (byteZ_range b5).
  pose proof (byteZ_range b6). pose proof (byteZ_range b7).
  rewrite !shl64_byte by (unfold two64; lia).
  unfold add64, u64, two64. f_equal. Z.to_euclidean_division_equations. lia.
Qed.

Lemma byteZ_chunk v k : byteZ (byteOf ((v / 2 ^ k) mod 256)) = (v / 2 ^ k) mod 256.
Proof. apply byteZ_byteOf. apply Z.mod_pos_bound. lia. Qed.

(** X1. A pointer written in the byte order and size of the dump is read
    back by [readPtr], whatever bytes follow it: little-endian and
    big-endian, four and eight bytes. *)
Theorem readPtr_round_trip d v rest :
  (0 <= v < 2 ^ 64 ->
   readPtr (withParams d LittleEndian 8) (le64 v ++ rest) = Ok v /\
   readPtr (withParams d BigEndian 8) (reverse (le64 v) ++ rest) = Ok v) /\
  (0 <= v < 2 ^ 32 ->
   readPtr (withParams d LittleEndian 4) (le32 v ++ rest) = Ok v /\
   readPtr (withParams d BigEndian 4) (reverse (le32 v) ++ rest) = Ok v).
Proof.
  split; intros Hv.
  - unfold readPtr, withParams, le64. cbn [order ptrSize set_params map reverse].
    change (reverse _) with
      [byteOf ((v / 2 ^ (8 * 7)) mod 256); byteOf ((v / 2 ^ (8 * 6)) mod 256);
       byteOf ((v / 2 ^ (8 * 5)) mod 256); byteOf ((v / 2 ^ (8 * 4)) mod 256);
       byteOf ((v / 2 ^ (8 * 3)) mod 256); byteOf ((v / 2 ^ (8 * 2)) mod 256);
       byteOf ((v / 2 ^ (8 * 1)) mod 256); byteOf ((v / 2 ^ (8 * 0)) mod 256)].
    cbn [app]. rewrite sumBytes_le8, sumBytes_be8, !byteZ_chunk.
    split; f_equal; Z.to_euclidean_division_equations; lia.
  - unfold readPtr, withParams, le32. cbn [order ptrSize set_params map reverse].
    change (reverse _) with
      [byteOf ((v / 2 ^ (8 * 3)) mod 256); byteOf ((v / 2 ^ (8 * 2)) mod 256);
       byteOf ((v / 2 ^ (8 * 1)) mod 256); byteOf ((v / 2 ^ (8 * 0)) mod 256)].
    cbn [app]. rewrite sumBytes_le4, sumBytes_be4, !byteZ_chunk.
    split; f_equal; Z.to_euclidean_division_equations; lia.
Qed.

Lemma readPtr_round_trip_witness :
  readPtr (withParams emptyDump LittleEndian 8) (le64 0x2004 ++ []) = Ok 0x2004 /\
  readPtr (withParams emptyDump BigEndian 8) (reverse (le64 0x2004) ++ []) = Ok 0x2004.
Proof.
  apply (proj1 (readPtr_round_trip emptyDump 0x2004 [])). lia.
Defined.

Lemma readPtr_unsupported d b :
  supported d = false -> exists msg, readPtr d b = Fatal msg.
Proof.
  unfold supported, readPtr. destruct (order d); [by eexists| |];
    repeat case_match; subst; try discriminate; by eexists.
Qed.

Lemma readPtr_short d b :
  supported d = true -> len64 b < ptrSize d -> readPtr d b = Panic.
Proof.
  unfold supported, readPtr, len64.
  destruct (order d); [done| |];
    intros [->%Z.eqb_eq | ->%Z.eqb_eq]%orb_true_iff Hlen;
    do 8 (try destruct b as [|? b]; simpl in Hlen; try lia; try reflexivity).
Qed.

Lemma readPtr_fits d b :
  supported d = true -> ptrSize d <= len64 b ->
  exists p, readPtr d b = Ok p /\ 0 <= p < 2 ^ (8 * ptrSize d).
Proof.
  unfold supported, readPtr, len64.
  destruct (order d); [done| |];
    intros [->%Z.eqb_eq | ->%Z.eqb_eq]%orb_true_iff Hlen;
    do 8 (try destruct b as [|? b]; simpl in Hlen; try lia);
    first [rewrite sumBytes_le4 | rewrite sumBytes_be4
          | rewrite sumBytes_le8 | rewrite sumBytes_be8];
    (eexists; split; [reflexivity|]);
    repeat match goal with
           | x : byte |- _ =>
               lazymatch goal with
               | _ : 0 <= byteZ x < 256 |- _ => fail
               | _ => pose proof (byteZ_range x)
               end
           end;
    lia.
Qed.

(** X2. With a byte order and a pointer size of four or eight bytes,
    [readPtr] decodes a slice that holds a whole pointer to a value below
    [2^(8 ptrSize)] and panics (index out of range) on a shorter slice;
    with any other parameters it ends the program. *)
Theorem readPtr_outcomes d b :
  if supported d
  then if ptrSize d <=? len64 b
       then exists p, readPtr d b = Ok p /\ 0 <= p < 2 ^ (8 * ptrSize d)
       else readPtr d b = Panic
  else exists msg, readPtr d b = Fatal msg.
Proof.
  destruct (supported d) eqn:Hs; [|by apply readPtr_unsupported].
  destruct (Z.leb_spec (ptrSize d) (len64 b)).
  - by apply readPtr_fits.
  - by apply readPtr_short.
Qed.

(** X3. The viewer's own [readPtr] ([read32]/[read64]) gives what the
    linker's [readPtr] gives on every input with supported parameters;
    with any other parameters both end the program. *)
Theorem view_readPtr_agrees d b :
  if supported d
  then View.readPtr d b = readPtr d b
  else (exists msg, View.readPtr d b = Fatal msg) /\
       (exists msg, readPtr d b = Fatal msg).
Proof.
  destruct (supported d) eqn:Hs.
  - revert Hs. unfold supported, View.readPtr, View.read32, View.read64, readPtr.
    destruct (order d); [done| |];
      by intros [->%Z.eqb_eq | ->%Z.eqb_eq]%orb_true_iff.
  - split; [|by apply readPtr_unsupported].
    revert Hs. unfold supported, View.readPtr, View.read32, View.read64.
    destruct (order d); [intros _|intros Hs|intros Hs];
      repeat case_match; subst; try discriminate; by eexists.
Qed.

(** ** The format and the reader *)

Lemma lor_disjoint x y s :
  0 <= s -> 0 <= x < 2 ^ s -> Z.lor x (y * 2 ^ s) = x + y * 2 ^ s.
Proof.
  intros Hs Hx.
  assert (Z.land x (y * 2 ^ s) = 0) as Hland.
  { apply Z.bits_inj'. intros n Hn. rewrite Z.land_spec, Z.bits_0.
    destruct (Z.lt_ge_cases n s) as [Hlt|Hge].
    - rewrite <- Z.shiftl_mul_pow2 by done.
      rewrite (Z.shiftl_spec_low y s n) by done. apply andb_false_r.
    - rewrite <- (Z.mod_small x (2 ^ s)) by done.
      rewrite Z.mod_pow2_bits_high by lia. done. }
  rewrite <- Z.lxor_lor by done. symmetry. by apply Z.add_nocarry_lxor.
Qed.

Lemma land_low7 y : 0 <= y < 128 -> Z.land (y + 128) 127 = y.
Proof.
  intros Hy. change 127 with (Z.ones 7). rewrite Z.land_ones by lia.
  change (2 ^ 7) with 128. Z.to_euclidean_division_equations. lia.
Qed.

Lemma uvarintLoop_S n i x s :
  uvarintLoop (S n) i x s =
  (do b <- readByte;
   if byteZ b <? 128 then
     if (i =? 9) && (1 <? byteZ b)
     then fatal "binary: varint overflows a 64-bit integer"
     else ret (Z.lor x (shl64 (byteZ b) s))
   else uvarintLoop n (i + 1) (Z.lor x (shl64 (Z.land (byteZ b) 127) s)) (s + 7)).
Proof. reflexivity. Qed.

Lemma putUvarint_S n x :
  putUvarint (S n) x =
  if x <? 128 then [byteOf x] else byteOf (x mod 128 + 128) :: putUvarint n (x / 128).
Proof. reflexivity. Qed.

(** The loop of [ReadUvarint], started in the middle of a varint. *)
Lemma uvarintLoop_putUvarint n i x w rest :
  (0 < n)%nat -> Z.of_nat n = 10 - i -> 0 <= i ->
  0 <= x < 2 ^ (7 * i) -> 0 <= w -> x + w * 2 ^ (7 * i) < two64 ->
  uvarintLoop n i x (7 * i) (putUvarint n w ++ rest) = Ok (x + w * 2 ^ (7 * i), rest).
Proof.
  revert i x w. induction n as [|n IH]; intros i x w Hn Hni Hi Hx Hw Hlt; [lia|].
  rewrite uvarintLoop_S, putUvarint_S. unfold bind.
  assert (0 < 2 ^ (7 * i)) as Hpos by (apply Z.pow_pos_nonneg; lia).
  destruct (Z.ltb_spec w 128) as [Hsmall|Hbig].
  - simpl. rewrite byteZ_byteOf by lia.
    destruct (Z.ltb_spec w 128); [|lia].
    assert ((i =? 9) && (1 <? w) = false) as ->.
    { destruct (Z.eqb_spec i 9) as [->|]; [|done]. simpl.
      destruct (Z.ltb_spec 1 w); [|done]. exfalso.
      change (2 ^ (7 * 9)) with 9223372036854775808 in *. unfold two64 in *. lia. }
    unfold ret. rewrite shl64_byte by (try lia; nia).
    by rewrite lor_disjoint by lia.
  - simpl. assert (0 <= w mod 128 < 128) as Hmod by (apply Z.mod_pos_bound; lia).
    rewrite byteZ_byteOf by lia.
    destruct (Z.ltb_spec (w mod 128 + 128) 128); [lia|].
    rewrite land_low7 by done.
    assert (w = 128 * (w / 128) + w mod 128) as Hw128 by (apply Z.div_mod; lia).
    assert (0 <= w / 128) as Hdiv by (apply Z.div_pos; lia).
    assert (2 ^ (7 * (i + 1)) = 128 * 2 ^ (7 * i)) as Hpow.
    { replace (7 * (i + 1)) with (7 * i + 7) by lia.
      rewrite Z.pow_add_r by lia. change (2 ^ 7) with 128. lia. }
    assert (w mod 128 * 2 ^ (7 * i) <= w * 2 ^ (7 * i)) as Hle.
    { apply Z.mul_le_mono_nonneg_r; lia. }
    rewrite shl64_byte by lia. rewrite lor_disjoint by lia.
    replace (7 * i + 7) with (7 * (i + 1)) by lia.
    assert (i <= 8) as Hi8.
    { destruct (Z.le_gt_cases i 8) as [|Hgt]; [done|]. exfalso.
      assert (i = 9) as -> by lia.
      change (2 ^ (7 * 9)) with 9223372036854775808 in *. unfold two64 in *. lia. }
    rewrite IH; [|lia|lia|lia|nia|done|nia].
    f_equal. f_equal. nia.
Qed.

Lemma readUint64_uvarint v rest :
  isU64 v -> readUint64 (uvarint v ++ rest) = Ok (v, rest).
Proof.
  intros [Hv0 Hv]. unfold readUint64, uvarint.
  pose proof (uvarintLoop_putUvarint 10 0 0 v rest) as H.
  change (7 * 0) with 0 in H. change (2 ^ 0) with 1 in H.
  rewrite H by (simpl; lia). f_equal. f_equal. lia.
Qed.

Lemma readNBytes_app s rest :
  readNBytes (len64 s) (s ++ rest) = Ok (s, rest).
Proof.
  unfold readNBytes, len64. rewrite length_app.
  destruct (Z.leb_spec (Z.of_nat (length s)) (Z.of_nat (length s + length rest))); [|lia].
  rewrite Nat2Z.id. by rewrite take_app_length, drop_app_length.
Qed.

Lemma readString_putString s rest :
  isU64 (len64 s) -> readString (putString s ++ rest) = Ok (s, rest).
Proof.
  intros Hs. unfold readString, putString, bind. rewrite <- app_assoc.
  rewrite readUint64_uvarint by done. apply readNBytes_app.
Qed.

Lemma readBool_putBool b rest : readBool (putBool b ++ rest) = Ok (b, rest).
Proof. by destruct b. Qed.

(** X4. The primitive readers invert the format: a varint of any [uint64]
    value, a length-prefixed string and a boolean are read back as
    written, and the bytes that follow are left for the next read. *)
Theorem primitive_readers_round_trip v s b rest :
  isU64 v -> isU64 (len64 s) ->
  readUint64 (uvarint v ++ rest) = Ok (v, rest) /\
  readString (putString s ++ rest) = Ok (s, rest) /\
  readBool (putBool b ++ rest) = Ok (b, rest).
Proof.
  intros Hv Hs. split; [by apply readUint64_uvarint|].
  split; [by apply readString_putString|apply readBool_putBool].
Qed.

Lemma primitive_readers_round_trip_witness :
  readUint64 (uvarint 300 ++ []) = Ok (300, []) /\
  readString (putString [byteOf 65; byteOf 66] ++ []) = Ok ([byteOf 65; byteOf 66], []) /\
  readBool (putBool true ++ []) = Ok (true, []).
Proof.
  apply (primitive_readers_round_trip 300 [byteOf 65; byteOf 66] true []).
  - unfold isU64, two64. lia.
  - unfold isU64, two64, len64. simpl. lia.
Defined.

Lemma bind_Ok {S A B} (p : St S A) (k : A -> St S B) s a s' :
  p s = Ok (a, s') -> bind p k s = k a s'.
Proof. intros H. unfold bind. by rewrite H. Qed.

Lemma isU64_tag t : 0 <= t < 15 -> isU64 t.
Proof. unfold isU64, two64. lia. Qed.

Lemma readFields_putFields fields rest :
  Forall (fun f => isU64 (fld_kind f) /\ isU64 (fld_offset f)) fields ->
  readFields (length fields) (putFields fields ++ rest) = Ok (fields, rest).
Proof.
  induction 1 as [|[k o] fields [Hk Ho] _ IH]; [done|].
  simpl in *. rewrite <- !app_assoc.
  rewrite (bind_Ok _ _ _ _ _ (readUint64_uvarint k _ Hk)).
  rewrite (bind_Ok _ _ _ _ _ (readUint64_uvarint o _ Ho)).
  by rewrite (bind_Ok _ _ _ _ _ IH).
Qed.

(** X5. The reader inverts the Object and the Type record: an object is
    appended to the objects of the dump with its address, type address,
    kind and payload, without type and without edges; a type is appended
    to the types with its address, size, name, flag and fields. *)
Theorem object_and_type_records_round_trip d o t rest :
  u64Object o -> u64Type t ->
  readRecord d (putObject o ++ rest) = Ok (Some (add_object d (rawObject o)), rest) /\
  readRecord d (putType t ++ rest) = Ok (Some (add_type d t), rest).
Proof.
  intros (Ha & Hta & Hk & Hlen) (Hta' & Hs & Hn & Hnf & Hf). split.
  - unfold readRecord, putObject, putString. rewrite <- !app_assoc.
    rewrite (bind_Ok _ _ _ _ _ (readUint64_uvarint _ _ (isU64_tag tagObject ltac:(done)))).
    change (tagObject =? tagObject) with true. cbv iota.
    rewrite (bind_Ok _ _ _ _ _ (readUint64_uvarint _ _ Ha)).
    rewrite (bind_Ok _ _ _ _ _ (readUint64_uvarint _ _ Hta)).
    rewrite (bind_Ok _ _ _ _ _ (readUint64_uvarint _ _ Hk)).
    rewrite (bind_Ok _ _ _ _ _ (readUint64_uvarint _ _ Hlen)).
    by rewrite (bind_Ok _ _ _ _ _ (readNBytes_app _ _)).
  - unfold readRecord, putType. rewrite <- !app_assoc.
    rewrite (bind_Ok _ _ _ _ _ (readUint64_uvarint _ _ (isU64_tag tagType ltac:(done)))).
    change (tagType =? tagObject) with false. change (tagType =? tagEOF) with false.
    change (tagType =? tagStackRoot) with false. change (tagType =? tagDataRoot) with false.
    change (tagType =? tagOtherRoot) with false. change (tagType =? tagType) with true.
    cbv iota.
    rewrite (bind_Ok _ _ _ _ _ (readUint64_uvarint _ _ Hta')).
    rewrite (bind_Ok _ _ _ _ _ (readUint64_uvarint _ _ Hs)).
    rewrite (bind_Ok _ _ _ _ _ (readString_putString _ _ Hn)).
    rewrite (bind_Ok _ _ _ _ _ (readBool_putBool _ _)).
    rewrite (bind_Ok _ _ _ _ _ (readUint64_uvarint _ _ Hnf)).
    unfold len64. rewrite Nat2Z.id.
    rewrite (bind_Ok _ _ _ _ _ (readFields_putFields _ _ Hf)).
    by destruct t.
Qed.

(** Closes [isU64] on numerals. *)
Ltac u64 := unfold isU64; vm_compute; split; [discriminate|reflexivity].

Lemma object_and_type_records_round_trip_witness :
  readRecord emptyDump
    (putObject (mkObject None 0 (le64 0x2004) [] 0x1000 100) ++ []) =
  Ok (Some (add_object emptyDump (rawObject (mkObject None 0 (le64 0x2004) [] 0x1000 100))), []).
Proof.
  refine (proj1 (object_and_type_records_round_trip emptyDump
                   (mkObject None 0 (le64 0x2004) [] 0x1000 100)
                   (mkType [] 8 false [mkField 0 0] 100) [] _ _)).
  - unfold u64Object. split; [u64|]. split; [u64|]. split; u64.
  - unfold u64Type. split; [u64|]. split; [u64|]. split; [u64|]. split; [u64|].
    constructor; [|constructor]. split; u64.
Defined.

Lemma byteZ_inj a b : byteZ a = byteZ b -> a = b.
Proof.
  unfold byteZ. intros H. apply N2Z.inj in H.
  pose proof (Byte.of_to_N a) as Ha. rewrite H, Byte.of_to_N in Ha. congruence.
Qed.

Lemma splitLine_Some input line rest :
  splitLine input = (line, Some rest) -> input = line ++ x0a :: rest.
Proof.
  revert line. induction input as [|b input IH]; intros line; simpl; [done|].
  destruct (Z.eqb_spec (byteZ b) 10) as [Hb|Hb].
  - intros [= <- <-]. simpl. f_equal. by apply byteZ_inj.
  - destruct (splitLine input) as [l r]. intros [= <- ->]. simpl. f_equal. by apply IH.
Qed.

Lemma dropCR_header line :
  dropCR line = header -> line = header \/ line = header ++ [x0d].
Proof.
  unfold dropCR. destruct (reverse line) as [|b r] eqn:Hr; [by left|].
  destruct (Z.eqb_spec (byteZ b) 13) as [Hb|Hb]; [|by left].
  intros <-. right. apply (f_equal reverse) in Hr.
  rewrite reverse_involutive, reverse_cons in Hr. rewrite Hr. f_equal. f_equal.
  by apply byteZ_inj.
Qed.

(** The dump that [rawRead] returns is read by the record loop. *)
Lemma rawRead_requires_header_aux input d :
  rawRead input = Ok d ->
  exists rest rest',
    (input = header ++ x0a :: rest \/ input = header ++ x0d :: x0a :: rest) /\
    rawLoop (S (length rest)) emptyDump rest = Ok (d, rest').
Proof.
  unfold rawRead, bind, readLine. destruct input as [|b input]; [done|].
  destruct (splitLine (b :: input)) as [line [rest|]] eqn:Hsplit.
  - case_bool_decide as Hhdr; [|done].
    destruct (rawLoop _ _ _) as [[d' rest']| | |] eqn:Hloop; try done.
    intros [= <-]. exists rest, rest'. split; [|done].
    apply splitLine_Some in Hsplit. rewrite Hsplit.
    destruct (dropCR_header _ Hhdr) as [->| ->]; [by left|right].
    by rewrite <- app_assoc.
  - case_bool_decide; [|done]. simpl. done.
Qed.

(** X6. [rawRead] returns a dump only for a file that starts with the
    line [go1.3 heap dump], ended by a line feed or by a carriage return
    and a line feed; the dump is what the record loop reads from the bytes
    after that line. *)
Theorem rawRead_requires_header input d :
  rawRead input = Ok d ->
  exists rest rest',
    (input = header ++ x0a :: rest \/ input = header ++ x0d :: x0a :: rest) /\
    rawLoop (S (length rest)) emptyDump rest = Ok (d, rest').
Proof. apply rawRead_requires_header_aux. Qed.

Lemma rawRead_requires_header_witness :
  exists rest rest',
    (osthreadStream = header ++ x0a :: rest \/
     osthreadStream = header ++ x0d :: x0a :: rest) /\
    rawLoop (S (length rest)) emptyDump rest = Ok (emptyDump, rest').
Proof.
  apply (rawRead_requires_header osthreadStream emptyDump).
  vm_compute. reflexivity.
Defined.

(** A record adds objects without type and without edges only. *)
Lemma readRecord_raw d input d' rest :
  readRecord d input = Ok (Some d', rest) ->
  Forall (fun o => obj_typ o = None /\ obj_edges o = []) (objects d) ->
  Forall (fun o => obj_typ o = None /\ obj_edges o = []) (objects d').
Proof.
  unfold readRecord, bind, ret, fatal.
  repeat (case_match; try discriminate); intros [= <-] Hraw; simpl; try done.
  apply Forall_app. split; [done|]. by repeat constructor.
Qed.

Lemma rawLoop_raw fuel d input d' rest :
  rawLoop fuel d input = Ok (d', rest) ->
  Forall (fun o => obj_typ o = None /\ obj_edges o = []) (objects d) ->
  Forall (fun o => obj_typ o = None /\ obj_edges o = []) (objects d').
Proof.
  revert d input. induction fuel as [|fuel IH]; intros d input; simpl; [done|].
  unfold bind. destruct (readRecord d input) as [[[d1|] rest1]| | |] eqn:E; try done.
  - intros H Hraw. eapply IH; [done|]. by eapply readRecord_raw.
  - by intros [= <- _].
Qed.

(** X7. Every object of a dump that [rawRead] returns is unlinked: it has
    no type reference and no edges, whatever the file holds. *)
Theorem rawRead_objects_unlinked input d :
  rawRead input = Ok d ->
  Forall (fun o => obj_typ o = None /\ obj_edges o = []) (objects d).
Proof.
  intros (rest & rest' & _ & Hloop)%rawRead_requires_header_aux.
  eapply rawLoop_raw; [done|]. constructor.
Qed.

(** ** Bytes behind the end-of-file record *)

Lemma stable_ret {A} (a : A) : stable (ret a).
Proof. by intros input a' rest extra [= <- <-]. Qed.

Lemma stable_fatal {A} msg : stable (@fatal _ A msg).
Proof. by intros input a rest extra. Qed.

Lemma stable_bind {A B} (p : P A) (k : A -> P B) :
  stable p -> (forall a, stable (k a)) -> stable (bind p k).
Proof.
  intros Hp Hk input b rest extra. unfold bind.
  destruct (p input) as [[a rest1]| | |] eqn:Hpi; try done.
  rewrite (Hp _ _ _ extra Hpi). apply Hk.
Qed.

Lemma stable_readByte : stable readByte.
Proof. intros [|b input] a rest extra; [done|]. by intros [= <- <-]. Qed.

Lemma stable_uvarintLoop n i x s : stable (uvarintLoop n i x s).
Proof.
  revert i x s. induction n as [|n IH]; intros i x s; [apply stable_fatal|].
  rewrite uvarintLoop_S. apply stable_bind; [apply stable_readByte|].
  intros b. repeat case_match; auto using stable_fatal, stable_ret.
Qed.

Lemma stable_readUint64 : stable readUint64.
Proof. apply stable_uvarintLoop. Qed.

Lemma stable_readNBytes n : stable (readNBytes n).
Proof.
  intros input a rest extra. unfold readNBytes, len64.
  destruct (Z.leb_spec n (Z.of_nat (length input))) as [Hle|]; [|done].
  intros [= <- <-]. rewrite length_app.
  destruct (Z.leb_spec n (Z.of_nat (length input + length extra))); [|lia].
  rewrite take_app_le, drop_app_le by lia. done.
Qed.

Lemma stable_readString : stable readString.
Proof.
  apply stable_bind; [apply stable_readUint64|]. intros n. apply stable_readNBytes.
Qed.

Lemma stable_readBool : stable readBool.
Proof. apply stable_bind; [apply stable_readByte|]. intros b. apply stable_ret. Qed.

Lemma stable_readFields n : stable (readFields n).
Proof.
  induction n as [|n IH]; simpl; [apply stable_ret|].
  apply stable_bind; [apply stable_readUint64|intros k].
  apply stable_bind; [apply stable_readUint64|intros o].
  apply stable_bind; [done|intros r]. apply stable_ret.
Qed.

Lemma stable_skipUint64s n : stable (skipUint64s n).
Proof.
  induction n as [|n IH]; simpl; [apply stable_ret|].
  apply stable_bind; [apply stable_readUint64|done].
Qed.

Ltac stable_step :=
  first
    [ apply stable_ret
    | apply stable_fatal
    | apply stable_readUint64
    | apply stable_readNBytes
    | apply stable_readString
    | apply stable_readBool
    | apply stable_readFields
    | apply stable_skipUint64s
    | apply stable_bind; [|intros ?] ].

Lemma stable_readRecord d : stable (readRecord d).
Proof.
  unfold readRecord. apply stable_bind; [apply stable_readUint64|].
  intros kind. repeat case_match; repeat stable_step.
Qed.

Lemma rawLoop_stable fuel fuel' d input d' rest extra :
  rawLoop fuel d input = Ok (d', rest) -> (fuel <= fuel')%nat ->
  rawLoop fuel' d (input ++ extra) = Ok (d', rest ++ extra).
Proof.
  revert fuel' d input. induction fuel as [|fuel IH]; intros fuel' d input; [done|].
  destruct fuel' as [|fuel']; [lia|]. simpl. unfold bind.
  destruct (readRecord d input) as [[r rest1]| | |] eqn:Hr; try done.
  rewrite (stable_readRecord d _ _ _ extra Hr).
  destruct r as [d1|].
  - intros H Hle. apply IH; [done|lia].
  - by intros [= <- <-] _.
Qed.

Lemma splitLine_app input line rest extra :
  splitLine input = (line, Some rest) ->
  splitLine (input ++ extra) = (line, Some (rest ++ extra)).
Proof.
  revert line. induction input as [|b input IH]; intros line; simpl; [done|].
  destruct (byteZ b =? 10); [by intros [= <- <-]|].
  destruct (splitLine input) as [l r]. intros [= <- ->].
  by rewrite (IH l eq_refl).
Qed.

(** X8. The record loop returns at the end-of-file record: a file that
    reads as a dump reads as the same dump with any bytes appended. *)
Theorem rawRead_ignores_trailing_bytes input d extra :
  rawRead input = Ok d -> rawRead (input ++ extra) = Ok d.
Proof.
  unfold rawRead, bind, readLine. destruct input as [|b input]; [done|].
  destruct (splitLine (b :: input)) as [line [rest|]] eqn:Hsplit.
  - rewrite <- app_comm_cons. change (b :: input ++ extra) with ((b :: input) ++ extra).
    rewrite (splitLine_app _ _ _ extra Hsplit).
    case_bool_decide; [|done].
    destruct (rawLoop _ _ rest) as [[d' rest']| | |] eqn:Hloop; try done.
    intros [= <-].
    rewrite (rawLoop_stable _ (S (length (rest ++ extra))) _ _ _ _ extra Hloop); [done|].
    rewrite length_app. lia.
  - case_bool_decide; [|done]. simpl. done.
Qed.

Lemma rawRead_ignores_trailing_bytes_witness :
  rawRead (osthreadStream ++ [byteOf 1; byteOf 2]) = Ok emptyDump.
Proof.
  apply (rawRead_ignores_trailing_bytes osthreadStream emptyDump).
  vm_compute. reflexivity.
Defined.

(** ** Lookups in the heap and in the table of globals *)

(** X9. Whatever the order of the index, an object that [find] returns
    is an object of the index whose address range holds [p], and the
    offset [p - addr] that the linker stores lies inside its payload. *)
Theorem find_returns_containing_object objs h p q o :
  find objs h p = Some (q, o) ->
  0 <= obj_addr o ->
  q ∈ h /\ objs !! q = Some o /\
  obj_addr o <= p < objEnd o /\
  0 <= sub64 p (obj_addr o) < len64 (obj_data o).
Proof.
  intros Hf Haddr. pose proof (find_tooffset _ _ _ _ _ Hf Haddr) as Hoff.
  destruct (find_Some _ _ _ _ _ Hf) as (Hq & Ho & Hlo & Hhi).
  split; [done|]. split; [done|]. split; [|done].
  split; [done|]. unfold objEnd, add64, u64, len64, two64 in *.
  assert (0 <= obj_addr o + Z.of_nat (length (obj_data o))) as Hnn by lia.
  pose proof (Z.mod_le _ (2 ^ 64) Hnn ltac:(lia)). lia.
Qed.

Lemma find_returns_containing_object_witness :
  1%nat ∈ sortHeap (objects finalizerDump) /\
  objects finalizerDump !! 1%nat = Some (mkObject None 0 (le64 0 ++ le64 0) [] 0x2000 0) /\
  0x2000 <= 0x2008 < objEnd (mkObject None 0 (le64 0 ++ le64 0) [] 0x2000 0) /\
  0 <= sub64 0x2008 0x2000 < len64 (le64 0 ++ le64 0).
Proof.
  apply (find_returns_containing_object (objects finalizerDump)
           (sortHeap (objects finalizerDump)) 0x2008 1
           (mkObject None 0 (le64 0 ++ le64 0) [] 0x2000 0)).
  - vm_compute. reflexivity.
  - vm_compute. discriminate.
Defined.

Lemma addrLe_total objs : Total (addrLe objs).
Proof. intros a b. unfold addrLe. lia. Qed.

Lemma addrLe_trans objs : Transitive (addrLe objs).
Proof. intros a b c. unfold addrLe. lia. Qed.

Lemma StronglySorted_lookup {A} (R : relation A) (l : list A) i j a b :
  StronglySorted R l -> (i < j)%nat -> l !! i = Some a -> l !! j = Some b -> R a b.
Proof.
  intros Hs. revert i j. induction Hs as [|x l Hs IH Hall]; intros i j Hij Hi Hj.
  - by rewrite lookup_nil in Hi.
  - destruct j as [|j]; [lia|]. simpl in Hj. destruct i as [|i].
    + injection Hi as <-. rewrite Forall_forall in Hall. apply Hall.
      apply list_elem_of_In. by eapply list_elem_of_In, list_elem_of_lookup_2.
    + simpl in Hi. eapply IH; [|done|done]. lia.
Qed.

(** The index that [link] sorts holds every object once, by ascending
    address. *)
Lemma sortHeap_Permutation s : sortHeap s ≡ₚ seq 0 (length s).
Proof. apply merge_sort_Permutation. Qed.

Lemma sortHeap_sorted s : StronglySorted (addrLe s) (sortHeap s).
Proof.
  unfold sortHeap.
  apply (@StronglySorted_merge_sort _ (addrLe s) _ (addrLe_trans s) (addrLe_total s)).
Qed.

Lemma sortHeap_wfHeap s : disjointObjects s -> wfHeap s (sortHeap s).
Proof.
  intros [Hobj Hdisj].
  assert (forall i q, sortHeap s !! i = Some q -> exists o, s !! q = Some o) as Hin.
  { intros i q Hq. apply lookup_lt_is_Some_2.
    apply list_elem_of_lookup_2 in Hq. rewrite sortHeap_Permutation in Hq.
    apply elem_of_seq in Hq. lia. }
  assert (NoDup (sortHeap s)) as Hnd.
  { rewrite sortHeap_Permutation. apply NoDup_seq. }
  split.
  - intros i q Hq. destruct (Hin i q Hq) as [o Ho]. exists o. split; [done|].
    destruct (Hobj q o Ho) as (? & ? & ?). done.
  - intros i j oi oj Hij. unfold heapAt.
    destruct (sortHeap s !! i) as [qi|] eqn:Hqi; [|done].
    destruct (sortHeap s !! j) as [qj|] eqn:Hqj; [|done].
    intros Hoi Hoj.
    pose proof (StronglySorted_lookup _ _ _ _ _ _ (sortHeap_sorted s) Hij Hqi Hqj) as Hle.
    unfold addrLe, addrOf in Hle. rewrite Hoi, Hoj in Hle.
    assert (qi <> qj) as Hne.
    { intros ->. pose proof (NoDup_lookup _ _ _ _ Hnd Hqi Hqj). lia. }
    destruct (Hobj qj oj Hoj) as (? & Hlen & ?).
    destruct (Hdisj qi qj oi oj Hne Hoi Hoj) as [|Hbad]; [done|].
    unfold objEnd in *. lia.
Qed.

(** X10. When the objects of the store are not empty and do not overlap,
    the index that [link] builds resolves an address to an object exactly
    when the address lies in the range of that object. *)
Theorem link_heap_finds_exactly s p q o :
  disjointObjects s ->
  find s (sortHeap s) p = Some (q, o) <->
  s !! q = Some o /\ obj_addr o <= p < objEnd o.
Proof.
  intros Hd. pose proof (sortHeap_wfHeap s Hd) as Hwf. split.
  - intros Hf. destruct (find_Some _ _ _ _ _ Hf) as (_ & Ho & Hlo & Hhi).
    split; [done|]. split; [done|].
    destruct Hd as [Hobj _]. destruct (Hobj q o Ho) as (? & ? & ?).
    rewrite add64_small in Hhi; unfold objEnd, len64 in *; lia.
  - intros [Ho Hp].
    assert (q ∈ sortHeap s) as Hq.
    { rewrite sortHeap_Permutation. apply elem_of_seq.
      apply lookup_lt_Some in Ho. lia. }
    apply list_elem_of_lookup_1 in Hq as [k Hk].
    assert (heapAt s (sortHeap s) k = Some o) as Hat by (unfold heapAt; by rewrite Hk).
    destruct (find_complete _ _ _ _ _ Hwf Hat Hp) as (q' & Hk' & Hf).
    rewrite Hk in Hk'. by injection Hk' as <-.
Qed.

Lemma link_heap_finds_exactly_witness :
  find (objects finalizerDump) (sortHeap (objects finalizerDump)) 0x2008 =
    Some (1%nat, mkObject None 0 (le64 0 ++ le64 0) [] 0x2000 0) <->
  objects finalizerDump !! 1%nat = Some (mkObject None 0 (le64 0 ++ le64 0) [] 0x2000 0) /\
  0x2000 <= 0x2008 < objEnd (mkObject None 0 (le64 0 ++ le64 0) [] 0x2000 0).
Proof.
  apply (link_heap_finds_exactly (objects finalizerDump) 0x2008 1
           (mkObject None 0 (le64 0 ++ le64 0) [] 0x2000 0)).
  split.
  - intros [|[|q]] o; simpl; intros [= <-]; vm_compute;
      (split; [discriminate|split; reflexivity]).
  - intros [|[|i]] [|[|j]] oi oj Hij; simpl; try done; intros [= <-] [= <-];
      vm_compute; first [by left|by right].
Defined.

(** The binary search leaves, just below its result, an index where the
    predicate fails; no order is assumed. *)
Lemma searchLoop_pred fuel f i j :
  (i <= j)%nat -> (j - i < fuel)%nat ->
  ((0 < i)%nat -> f (i - 1)%nat = false) ->
  (i <= searchLoop fuel f i j <= j)%nat /\
  ((0 < searchLoop fuel f i j)%nat -> f (searchLoop fuel f i j - 1)%nat = false).
Proof.
  revert i j. induction fuel as [|fuel IH]; intros i j Hij Hfuel Hi; [lia|].
  rewrite searchLoop_S. destruct (Nat.ltb_spec i j) as [Hlt|Hge]; [|split; [lia|done]].
  assert (i <= (i + j) / 2 < j)%nat as Hh.
  { split; [apply Nat.div_le_lower_bound; lia|apply Nat.Div0.div_lt_upper_bound; lia]. }
  destruct (f ((i + j) / 2)%nat) eqn:Hf.
  - destruct (IH i ((i + j) / 2)%nat) as [Hr Hp]; [lia|lia|done|]. split; [lia|done].
  - destruct (IH (S ((i + j) / 2)) j) as [Hr Hp]; [lia|lia| |].
    + intros _. by replace (S ((i + j) / 2) - 1)%nat with ((i + j) / 2)%nat by lia.
    + split; [lia|done].
Qed.

(** X11. [Globals.find] never fails.  On a table sorted by address it
    returns the entry with the greatest address that is not above [p], and
    the entry named "unknown global" exactly when every entry starts above
    [p] (an empty table included). *)
Theorem globals_find_greatest_below g p :
  Globals.sorted g ->
  exists x, Globals.find g p = Ok x /\
    ((x ∈ g /\ gl_addr x <= p /\
      forall y, y ∈ g -> gl_addr y <= p -> gl_addr y <= gl_addr x) \/
     (x = mkGlobal "unknown global" 0 /\ forall y, y ∈ g -> p < gl_addr y)).
Proof.
  intros Hsorted. unfold Globals.find.
  destruct (searchLoop_pred (S (length g)) (Globals.startsAfter g p) 0 (length g))
    as [Hr Hpred]; [lia|lia|lia|].
  destruct (Search_true (length g) (Globals.startsAfter g p)) as [_ Htrue].
  fold (Search (length g) (Globals.startsAfter g p)) in Hr, Hpred.
  set (r := Search (length g) (Globals.startsAfter g p)) in *.
  assert (forall k y, (r <= k)%nat -> g !! k = Some y -> p < gl_addr y) as Habove.
  { intros k y Hk Hy. apply lookup_lt_Some in Hy as Hlt.
    specialize (Htrue ltac:(lia)). unfold Globals.startsAfter in Htrue.
    destruct (g !! r) as [z|] eqn:Hz; [|done].
    pose proof (Hsorted r k z y Hk Hz Hy). lia. }
  destruct r as [|r'] eqn:Hreq.
  - eexists. split; [done|]. right. split; [done|].
    intros y [k Hk]%list_elem_of_lookup_1. apply (Habove k y); [lia|done].
  - specialize (Hpred ltac:(lia)). replace (S r' - 1)%nat with r' in Hpred by lia.
    unfold Globals.startsAfter in Hpred.
    destruct (g !! r') as [x|] eqn:Hx.
    2:{ apply lookup_ge_None in Hx. lia. }
    exists x. split; [done|]. left. split; [by eapply list_elem_of_lookup_2|].
    split; [lia|]. intros y [k Hk]%list_elem_of_lookup_1 Hy.
    destruct (decide (k <= r')%nat) as [Hle|Hgt].
    + by apply (Hsorted k r' y x).
    + pose proof (Habove k y ltac:(lia) Hk). lia.
Qed.

Lemma globals_find_greatest_below_witness :
  exists x, Globals.find twoGlobals 15 = Ok x /\
    ((x ∈ twoGlobals /\ gl_addr x <= 15 /\
      forall y, y ∈ twoGlobals -> gl_addr y <= 15 -> gl_addr y <= gl_addr x) \/
     (x = mkGlobal "unknown global" 0 /\ forall y, y ∈ twoGlobals -> 15 < gl_addr y)).
Proof.
  apply (globals_find_greatest_below twoGlobals 15).
  intros [|[|i]] [|[|j]] x y Hij; simpl; try done; try lia;
    intros [= <-] [= <-]; simpl; lia.
Defined.

(** ** What linking leaves of the store *)

Lemma grows_refl Q s : grows Q s s.
Proof.
  apply Forall2_same_length_lookup. split; [done|].
  intros i o o' Ho Ho'. rewrite Ho in Ho'. injection Ho' as <-.
  split; [done|]. exists []. by rewrite app_nil_r.
Qed.

Lemma grows_trans Q s1 s2 s3 : grows Q s1 s2 -> grows Q s2 s3 -> grows Q s1 s3.
Proof.
  intros H12. revert s3. induction H12 as [|o1 o2 s1 s2 [Hs12 (l1 & He1 & Hl1)] _ IH];
    intros s3 H23; inversion H23 as [|? o3 ? s3' [Hs23 (l2 & He2 & Hl2)] H23']; subst.
  - constructor.
  - constructor; [|by apply IH].
    split; [congruence|]. exists (l1 ++ l2).
    split; [rewrite He2, He1; by rewrite app_assoc|by apply Forall_app].
Qed.

Lemma grows_mono (Q Q' : Edge -> Prop) s s' :
  (forall e, Q e -> Q' e) -> grows Q s s' -> grows Q' s s'.
Proof.
  intros HQ H. eapply Forall2_impl; [exact H|]. intros o o' [Hs (l & He & Hl)].
  split; [done|]. exists l. split; [done|]. by eapply Forall_impl.
Qed.

Lemma grows_addEdges Q x l s : Forall Q l -> grows Q s (addEdges x l s).
Proof.
  intros Hl. apply Forall2_same_length_lookup. split; [by rewrite length_addEdges|].
  intros i o o' Ho. rewrite lookup_addEdges, Ho. simpl. intros [= <-].
  destruct (decide (x = i)).
  - split; [done|]. by exists l.
  - split; [done|]. exists []. by rewrite app_nil_r.
Qed.

Lemma grows_shape Q s s' : grows Q s s' -> shapeOf <$> s' = shapeOf <$> s.
Proof.
  intros H. apply list_eq. intros i. rewrite !list_lookup_fmap.
  destruct (s !! i) as [o|] eqn:Ho.
  - destruct (Forall2_lookup_l _ _ _ _ _ H Ho) as (o' & -> & Hs & _). simpl. by f_equal.
  - apply Forall2_length in H. apply lookup_ge_None in Ho.
    rewrite (proj2 (lookup_ge_None s' i)) by lia. done.
Qed.

Section Grows.
Variable info : LinkInfo.
Variable Sh : list (option GoType * Z * list byte * Z * Z).
Variable Q : Edge -> Prop.
Hypothesis HQ : forall s p q oq off,
  shapeOf <$> s = Sh -> find s (li_heap info) p = Some (q, oq) ->
  Q (mkEdge q off (sub64 p (obj_addr oq))).

Lemma linkPtr_Q x off s s' :
  shapeOf <$> s = Sh -> linkPtr info x off s = Ok (tt, s') ->
  exists l, s' = addEdges x l s /\ Forall Q l.
Proof.
  intros Hs (p & _ & H)%linkPtr_emits.
  destruct (find s (li_heap info) p) as [[q oq]|] eqn:Hf.
  - eexists. split; [done|]. constructor; [|constructor]. by eapply HQ.
  - exists []. split; [by rewrite addEdges_nil|constructor].
Qed.

Lemma linkField_Q x offset f s s' :
  shapeOf <$> s = Sh -> linkField info x offset f s = Ok (tt, s') ->
  exists l, s' = addEdges x l s /\ Forall Q l.
Proof.
  intros Hs. unfold linkField.
  assert (forall s1, exists l, s1 = addEdges x l s1 /\ Forall Q l) as Hnone.
  { intros s1. exists []. split; [by rewrite addEdges_nil|constructor]. }
  destruct (fld_kind f =? fieldKindPtr); [by apply linkPtr_Q|].
  destruct (fld_kind f =? fieldKindString); [by apply linkPtr_Q|].
  destruct (fld_kind f =? fieldKindSlice); [by apply linkPtr_Q|].
  destruct (fld_kind f =? fieldKindEface).
  - unfold bind at 1.
    destruct (linkPtr info x _ s) as [[[] s1]| | |] eqn:Hl1; try done.
    apply linkPtr_Q in Hl1 as (l1 & -> & Hl1); [|done]. unfold bind.
    destruct (readPtrAt info x _ _) as [[tp s2]| | |] eqn:Hr; try done.
    apply readPtrAt_state in Hr as ->.
    destruct (tp =? 0); [intros [= <-]; by exists l1|].
    destruct (li_types info !! tp) as [t|]; [|done].
    destruct (ty_efaceptr t); [|intros [= <-]; by exists l1].
    intros (l2 & -> & Hl2)%linkPtr_Q; [|by rewrite shape_addEdges].
    exists (l1 ++ l2). split; [by rewrite addEdges_app|by apply Forall_app].
  - destruct (fld_kind f =? fieldKindIface); [|intros [= <-]; apply Hnone].
    unfold bind. destruct (readPtrAt info x _ _) as [[tp s2]| | |] eqn:Hr; try done.
    apply readPtrAt_state in Hr as ->.
    destruct (tp =? 0); [intros [= <-]; apply Hnone|].
    destruct (li_itabs info !! tp) as [t|]; [|done].
    destruct (itab_ptr t); [|intros [= <-]; apply Hnone].
    by apply linkPtr_Q.
Qed.

Lemma forM_Q {A} (body : A -> L unit) (x : nat) (l : list A) s s' :
  (forall a s1 s2, shapeOf <$> s1 = Sh -> body a s1 = Ok (tt, s2) ->
                   exists es, s2 = addEdges x es s1 /\ Forall Q es) ->
  shapeOf <$> s = Sh -> forM_ body l s = Ok (tt, s') ->
  exists es, s' = addEdges x es s /\ Forall Q es.
Proof.
  intros Hbody. revert s. induction l as [|a l IH]; intros s Hs; simpl.
  - intros [= <-]. exists []. split; [by rewrite addEdges_nil|constructor].
  - unfold bind. destruct (body a s) as [[[] s1]| | |] eqn:Hb; try done.
    apply Hbody in Hb as (es1 & -> & H1); [|done].
    intros (es2 & -> & H2)%IH; [|by rewrite shape_addEdges].
    exists (es1 ++ es2). split; [by rewrite addEdges_app|by apply Forall_app].
Qed.

Lemma passLoop_Q fuel (body : Z -> L unit) (x : nat) i bound size s s' :
  (forall a s1 s2, shapeOf <$> s1 = Sh -> body a s1 = Ok (tt, s2) ->
                   exists es, s2 = addEdges x es s1 /\ Forall Q es) ->
  shapeOf <$> s = Sh -> passLoop fuel body i bound size s = Ok (tt, s') ->
  exists es, s' = addEdges x es s /\ Forall Q es.
Proof.
  intros Hbody. revert i s. induction fuel as [|fuel IH]; intros i s Hs; simpl; [done|].
  destruct (i <=? bound).
  - unfold bind. destruct (body i s) as [[[] s1]| | |] eqn:Hb; try done.
    apply Hbody in Hb as (es1 & -> & H1); [|done].
    intros (es2 & -> & H2)%IH; [|by rewrite shape_addEdges].
    exists (es1 ++ es2). split; [by rewrite addEdges_app|by apply Forall_app].
  - intros [= <-]. exists []. split; [by rewrite addEdges_nil|constructor].
Qed.

Lemma linkObject_Q fuel x s s' :
  shapeOf <$> s = Sh -> linkObject fuel info x s = Ok (tt, s') ->
  exists l, s' = addEdges x l s /\ Forall Q l.
Proof.
  intros Hs. unfold linkObject, bind, get.
  assert (exists l, s = addEdges x l s /\ Forall Q l) as Hnone.
  { exists []. split; [by rewrite addEdges_nil|constructor]. }
  assert (forall a s1 s2, shapeOf <$> s1 = Sh ->
            forall fields, linkFields info x fields a s1 = Ok (tt, s2) ->
            exists es, s2 = addEdges x es s1 /\ Forall Q es) as Hfields.
  { intros a s1 s2 Hs1 fields. unfold linkFields. apply forM_Q; [|done].
    intros f s3 s4. apply linkField_Q. }
  destruct (s !! x) as [o|]; [|done].
  destruct (obj_typ o) as [t|]; [|by intros [= <-]].
  destruct (obj_kind o =? typeKindObject); [by apply Hfields|].
  destruct (obj_kind o =? typeKindArray).
  { apply passLoop_Q; [|done]. intros a s1 s2 Hs1. by apply Hfields. }
  destruct (obj_kind o =? typeKindChan); [|by intros [= <-]].
  apply passLoop_Q; [|done]. intros a s1 s2 Hs1. by apply Hfields.
Qed.

(** "link objects to each other" *)
Lemma linkObjects_grows fuel ids s s' :
  shapeOf <$> s = Sh -> forM_ (linkObject fuel info) ids s = Ok (tt, s') ->
  grows Q s s'.
Proof.
  revert s. induction ids as [|x ids IH]; intros s Hs; simpl.
  - intros [= <-]. apply grows_refl.
  - unfold bind. destruct (linkObject fuel info x s) as [[[] s1]| | |] eqn:Hl; try done.
    apply linkObject_Q in Hl as (l & -> & Hl); [|done].
    intros H. apply IH in H; [|by rewrite shape_addEdges].
    eapply grows_trans; [by apply grows_addEdges|done].
Qed.
End Grows.

(** "Add links for finalizers" *)
Lemma linkFinalizers_grows info (Sh : list (option GoType * Z * list byte * Z * Z))
    (Q : Edge -> Prop) (P : Finalizer -> Prop) fs s s' :
  (forall f a (s0 s1 : list Object) xi ox yi oy, P f ->
     shapeOf <$> s0 = Sh -> shapeOf <$> s1 = Sh ->
     find s0 (li_heap info) (fin_obj f) = Some (xi, ox) ->
     find s1 (li_heap info) a = Some (yi, oy) ->
     Q (mkEdge xi 0 (sub64 a (obj_addr oy)))) ->
  Forall P fs -> shapeOf <$> s = Sh ->
  forM_ (linkFinalizer info) fs s = Ok (tt, s') -> grows Q s s'.
Proof.
  intros HF Hfs. revert s. induction Hfs as [|f fs Hf Hfs IH]; intros s Hs; simpl.
  - intros [= <-]. apply grows_refl.
  - unfold bind. destruct (linkFinalizer info f s) as [[[] s1]| | |] eqn:Hl; try done.
    assert (exists x es, s1 = addEdges x es s /\ Forall Q es) as (x & es & -> & Hes).
    { revert Hl. unfold linkFinalizer. unfold bind at 1. unfold get at 1.
      destruct (find s (li_heap info) (fin_obj f)) as [[xi ox]|] eqn:Hx.
      - intros H. exists xi. revert H. apply (forM_Q Sh); [|done].
        intros a s2 s3 Hs2. unfold bind, get.
        destruct (find s2 (li_heap info) a) as [[yi oy]|] eqn:Hy.
        + unfold appendEdge. intros [= <-]. eexists. split; [done|].
          constructor; [|constructor]. by eapply (HF f a s s2).
        + intros [= <-]. exists []. split; [by rewrite addEdges_nil|constructor].
      - intros H. exists 0%nat. revert H. apply (forM_Q Sh); [|done].
        intros a s2 s3 Hs2. unfold bind, get.
        destruct (find s2 (li_heap info) a) as [[yi oy]|];
          intros [= <-]; exists []; (split; [by rewrite addEdges_nil|constructor]). }
    intros H. apply IH in H; [|by rewrite shape_addEdges].
    eapply grows_trans; [by apply grows_addEdges|done].
Qed.

(** "link objects to types", over all the objects, is [retype] on each. *)
Lemma linkTypes_lookup info ids (s s' : list Object) :
  NoDup ids -> forM_ (linkType info) ids s = Ok (tt, s') ->
  forall x : nat, s' !! x = if decide (x ∈ ids) then retype (li_types info) <$> s !! x
                            else s !! x.
Proof.
  intros Hnd. revert s. induction Hnd as [|a ids Hnin Hnd IH]; intros s; simpl.
  - intros [= <-] x. destruct (decide (x ∈ [])) as [Hin|]; [|done].
    by apply not_elem_of_nil in Hin.
  - unfold bind. destruct (linkType info a s) as [[[] s1]| | |] eqn:Hl; try done.
    apply linkType_spec in Hl as (o & Ho & ->). intros H x. rewrite (IH _ H x).
    destruct (decide (x = a)) as [->|Hne].
    + destruct (decide (a ∈ ids)); [done|].
      destruct (decide (a ∈ a :: ids)) as [_|Hn]; [|by destruct Hn; left].
      rewrite list_lookup_insert_eq by (by eapply lookup_lt_Some). by rewrite Ho.
    + rewrite list_lookup_insert_ne by done.
      destruct (decide (x ∈ ids)) as [Hin|Hnin'].
      * destruct (decide (x ∈ a :: ids)) as [_|Hn]; [done|by destruct Hn; right].
      * destruct (decide (x ∈ a :: ids)) as [[?|?]%elem_of_cons|_]; done.
Qed.

Lemma linkTypes_map info (s s' : list Object) :
  forM_ (linkType info) (seq 0 (length s)) s = Ok (tt, s') ->
  s' = retype (li_types info) <$> s.
Proof.
  intros H. apply list_eq. intros x.
  rewrite (linkTypes_lookup _ _ _ _ (NoDup_seq _ _) H x), list_lookup_fmap.
  destruct (decide (x ∈ seq 0 (length s))) as [|Hn]; [done|].
  rewrite elem_of_seq in Hn. rewrite (proj2 (lookup_ge_None s x)) by lia. done.
Qed.

(** What [link] leaves of the store: the objects of the dump, each with
    its type, and edges appended that the scan or a finalizer found. *)
Lemma link_grows (Q : Edge -> Prop) fuel d d' :
  (forall (s : list Object) p q oq off,
     shapeOf <$> s = shapeOf <$> (retype (buildTypes (types d)) <$> objects d) ->
     find s (sortHeap (objects d)) p = Some (q, oq) ->
     Q (mkEdge q off (sub64 p (obj_addr oq)))) ->
  (forall f a (s0 s1 : list Object) xi ox yi oy, f ∈ finalizers d ->
     shapeOf <$> s0 = shapeOf <$> (retype (buildTypes (types d)) <$> objects d) ->
     shapeOf <$> s1 = shapeOf <$> (retype (buildTypes (types d)) <$> objects d) ->
     find s0 (sortHeap (objects d)) (fin_obj f) = Some (xi, ox) ->
     find s1 (sortHeap (objects d)) a = Some (yi, oy) ->
     Q (mkEdge xi 0 (sub64 a (obj_addr oy)))) ->
  link fuel d = Ok d' ->
  d' = set_objects d (objects d') /\
  grows Q (retype (buildTypes (types d)) <$> objects d) (objects d').
Proof.
  intros HQ HF.
  unfold link. destruct (linkPhases _ _ _ _) as [[[] s4]| | |] eqn:Hl; try done.
  intros [= <-]. simpl. split; [done|]. revert Hl. unfold linkPhases. unfold bind at 1.
  destruct (forM_ (linkType _) _ _) as [[[] s1]| | |] eqn:H1; try done.
  unfold bind at 1.
  destruct (forM_ (linkGoroutine _) _ _) as [[[] s2]| | |] eqn:H2; try done.
  apply linkGoroutines_phase in H2 as ->. unfold bind at 1.
  destruct (forM_ (linkObject _ _) _ _) as [[[] s3]| | |] eqn:H3; try done.
  intros H4. apply linkTypes_map in H1. simpl in H1. subst s1.
  set (Sh := shapeOf <$> (retype (buildTypes (types d)) <$> objects d)) in *.
  apply (linkObjects_grows (mkInfo d) Sh Q) in H3; [|exact HQ|done].
  eapply grows_trans; [exact H3|].
  eapply (linkFinalizers_grows (mkInfo d) Sh Q (fun f => f ∈ finalizers d)); [exact HF| | |exact H4].
  - by apply Forall_forall.
  - by apply grows_shape in H3.
Qed.

Lemma build_lookup {K V} `{Countable K} (key : V -> K) (ts : list V) (m0 : gmap K V) (k : K) :
  foldl (fun m t => <[key t := t]> m) m0 ts !! k =
  match lastWith key k ts with Some t => Some t | None => m0 !! k end.
Proof.
  unfold lastWith. revert m0. induction ts as [|t ts IH]; intros m0; simpl; [done|].
  rewrite IH, filter_cons. destruct (decide (key t = k)) as [<-|Hne].
  - rewrite last_cons. destruct (last (filter _ ts)); [done|]. by rewrite lookup_insert_eq.
  - destruct (last (filter _ ts)); [done|]. by rewrite lookup_insert_ne.
Qed.

Lemma lastWith_key {K V} `{EqDecision K} (key : V -> K) (k : K) (ts : list V) t :
  lastWith key k ts = Some t -> key t = k /\ t ∈ ts.
Proof.
  unfold lastWith. intros Hl. apply last_Some_elem_of in Hl.
  apply list_elem_of_filter in Hl. done.
Qed.

Lemma lastWith_None {K V} `{EqDecision K} (key : V -> K) (k : K) (ts : list V) :
  lastWith key k ts = None <-> Forall (fun t => key t <> k) ts.
Proof.
  unfold lastWith. rewrite last_None. split.
  - intros Hnil. apply Forall_forall. intros t Hin Hk.
    assert (t ∈ filter (fun t => key t = k) ts) as Hf by (by apply list_elem_of_filter).
    rewrite Hnil in Hf. by apply not_elem_of_nil in Hf.
  - intros Hall. destruct (filter _ ts) as [|t l] eqn:Hf; [done|].
    assert (t ∈ filter (fun t => key t = k) ts) as Hin by (rewrite Hf; left).
    apply list_elem_of_filter in Hin as [Hk Hin]. rewrite Forall_forall in Hall.
    by destruct (Hall t Hin).
Qed.

Lemma buildTypes_lookup ts a : buildTypes ts !! a = lastWith ty_addr a ts.
Proof.
  unfold buildTypes. rewrite build_lookup. by destruct (lastWith ty_addr a ts).
Qed.

Lemma buildFrames_lookup fs k :
  buildFrames fs !! k = lastWith (fun f => (sf_addr f, sf_depth f)) k fs.
Proof.
  unfold buildFrames. rewrite build_lookup. by destruct (lastWith _ k fs).
Qed.

Lemma linkTypes_fatal info ids (s : list Object) (x : nat) o :
  (forall i : nat, i ∈ ids -> (i < length s)%nat) ->
  x ∈ ids -> s !! x = Some o -> obj_typaddr o <> 0 ->
  li_types info !! obj_typaddr o = None ->
  forM_ (linkType info) ids s = Fatal "type is missing".
Proof.
  revert s. induction ids as [|a ids IH]; intros s Hr Hin Ho Hne Hnone; simpl.
  - by apply not_elem_of_nil in Hin.
  - destruct (lookup_lt_is_Some_2 s a) as [oa Hoa]; [apply Hr; left|].
    unfold bind. unfold linkType at 1. unfold bind, get. rewrite Hoa.
    assert (forall T, (x = a -> False) ->
              forM_ (linkType info) ids (<[a := set_typ oa T]> s) = Fatal "type is missing") as Hnext.
    { intros T Hxa. apply IH.
      - intros i Hi. rewrite length_insert. apply Hr. by right.
      - apply elem_of_cons in Hin as [?|?]; [by destruct Hxa|done].
      - rewrite list_lookup_insert_ne; [done|]. intros <-. by apply Hxa.
      - done.
      - done. }
    destruct (obj_typaddr oa =? 0) eqn:Hz.
    + unfold put. apply Hnext. intros ->. rewrite Hoa in Ho. injection Ho as <-.
      apply Z.eqb_eq in Hz. done.
    + destruct (li_types info !! obj_typaddr oa) as [t|] eqn:Ht; [|done].
      unfold put. apply Hnext. intros ->. rewrite Hoa in Ho. injection Ho as <-.
      by rewrite Hnone in Ht.
Qed.

Lemma linkTypes_total info ids (s : list Object) :
  (forall i : nat, i ∈ ids -> (i < length s)%nat) ->
  Forall (fun o => obj_typaddr o = 0 \/ is_Some (li_types info !! obj_typaddr o)) s ->
  exists s', forM_ (linkType info) ids s = Ok (tt, s').
Proof.
  revert s. induction ids as [|a ids IH]; intros s Hr Hall; simpl; [by eexists|].
  destruct (lookup_lt_is_Some_2 s a) as [oa Hoa]; [apply Hr; left|].
  unfold bind. unfold linkType at 1. unfold bind, get. rewrite Hoa.
  assert (forall T, exists s',
            forM_ (linkType info) ids (<[a := set_typ oa T]> s) = Ok (tt, s')) as Hnext.
  { intros T. apply IH.
    - intros i Hi. rewrite length_insert. apply Hr. by right.
    - apply Forall_insert; [done|]. simpl.
      rewrite Forall_lookup in Hall. by apply (Hall a oa). }
  destruct (obj_typaddr oa =? 0) eqn:Hz; [apply Hnext|].
  rewrite Forall_lookup in Hall. destruct (Hall a oa Hoa) as [H0|[t Ht]].
  - apply Z.eqb_neq in Hz. done.
  - rewrite Ht. apply Hnext.
Qed.

Lemma linkGoroutines_fatal info gs g (s : list Object) :
  g ∈ gs -> li_frames info !! (g_tosaddr g, 0) = None ->
  forM_ (linkGoroutine info) gs s = Fatal "tos missing".
Proof.
  intros Hin Hnone. induction gs as [|a gs IH]; simpl.
  - by apply not_elem_of_nil in Hin.
  - unfold bind. unfold linkGoroutine at 1.
    destruct (li_frames info !! (g_tosaddr a, 0)) as [fr|] eqn:Hf; [|done].
    simpl. apply IH. apply elem_of_cons in Hin as [->|?]; [|done].
    by rewrite Hnone in Hf.
Qed.

Lemma landsIn_geom (s1 s2 : list Object) e :
  geomOf <$> s1 = geomOf <$> s2 -> landsIn s1 e -> landsIn s2 e.
Proof.
  intros Hg (o & Ho & Hoff). destruct (geom_lookup _ _ _ _ Hg Ho) as (o2 & Ho2 & _ & Hlen).
  exists o2. split; [done|]. unfold len64 in *. by rewrite Hlen.
Qed.

Lemma geom_retype types (s : list Object) :
  geomOf <$> (retype types <$> s) = geomOf <$> s.
Proof. rewrite <- list_fmap_compose. by apply list_fmap_ext. Qed.

(** X12. [link] keeps the objects of the dump: there are as many of them
    after linking, each with the kind, the payload, the address and the
    type address it had; an object with type address 0 has no type, any
    other has the last Type record of the dump with that address (earlier
    duplicates are dropped); the edges of an object are the ones it had,
    followed by the ones that linking found. *)
Theorem link_keeps_objects fuel d d' :
  link fuel d = Ok d' ->
  length (objects d') = length (objects d) /\
  forall (x : nat) o, objects d !! x = Some o ->
    exists o', objects d' !! x = Some o' /\
      obj_kind o' = obj_kind o /\ obj_data o' = obj_data o /\
      obj_addr o' = obj_addr o /\ obj_typaddr o' = obj_typaddr o /\
      obj_edges o `prefix_of` obj_edges o' /\
      (if obj_typaddr o =? 0 then obj_typ o' = None
       else exists t, obj_typ o' = Some t /\
                      lastWith ty_addr (obj_typaddr o) (types d) = Some t).
Proof.
  intros Hl. pose proof Hl as Hg.
  apply (link_grows (fun _ => True)) in Hg as [_ Hg]; [|done..].
  pose proof (Forall2_length _ _ _ Hg) as Hlen.
  rewrite length_fmap in Hlen. split; [done|]. intros x o Ho.
  assert ((retype (buildTypes (types d)) <$> objects d) !! x =
          Some (retype (buildTypes (types d)) o)) as Ho1.
  { by rewrite list_lookup_fmap, Ho. }
  destruct (Forall2_lookup_l _ _ _ _ _ Hg Ho1) as (o' & Ho' & Hs & l & He & _).
  exists o'. split; [done|]. unfold shapeOf in Hs. simpl in Hs.
  injection Hs as Hty Hk Hda Ha Hta. repeat (split; [done|]).
  split; [by exists l|]. rewrite Hty.
  destruct (obj_typaddr o =? 0) eqn:Hz; [done|].
  rewrite buildTypes_lookup.
  destruct (lastWith ty_addr (obj_typaddr o) (types d)) as [t|] eqn:Ht; [by exists t|].
  exfalso. revert Hl. unfold link, linkPhases. unfold bind at 1.
  rewrite (linkTypes_fatal (mkInfo d) _ _ x o); [done| | |done| |].
  - intros i Hi. apply elem_of_seq in Hi. lia.
  - apply elem_of_seq. apply lookup_lt_Some in Ho. lia.
  - by apply Z.eqb_neq.
  - simpl. by rewrite buildTypes_lookup.
Qed.

Lemma link_keeps_objects_witness :
  exists d', link 0 orderDump = Ok d' /\
             length (objects d') = length (objects orderDump).
Proof.
  eexists. split; [vm_compute; reflexivity|].
  exact (proj1 (link_keeps_objects 0 orderDump _ eq_refl)).
Defined.

(** X13. Every edge that [link] adds leads to an object of the dump: if
    the edges that the objects came with do, all the edges of the linked
    dump do. *)
Theorem link_edges_stay_in_store fuel d d' :
  Forall (fun o => Forall (pointsIn (objects d)) (obj_edges o)) (objects d) ->
  link fuel d = Ok d' ->
  Forall (fun o => Forall (pointsIn (objects d')) (obj_edges o)) (objects d').
Proof.
  intros Hin Hl.
  assert (forall (s : list Object) h p q oq,
            shapeOf <$> s = shapeOf <$> (retype (buildTypes (types d)) <$> objects d) ->
            find s h p = Some (q, oq) -> (q < length (objects d))%nat) as Hq.
  { intros s h p q oq Hs (_ & Hq & _)%find_Some. apply lookup_lt_Some in Hq.
    apply (f_equal length) in Hs. rewrite !length_fmap in Hs. lia. }
  apply (link_grows (pointsIn (objects d))) in Hl as [_ Hg].
  - pose proof (Forall2_length _ _ _ Hg) as Hlen. rewrite length_fmap in Hlen.
    apply Forall_lookup. intros x o' Ho'.
    destruct (Forall2_lookup_r _ _ _ _ _ Hg Ho') as (o1 & Ho1 & _ & l & -> & Hl).
    rewrite list_lookup_fmap in Ho1. destruct (objects d !! x) as [o|] eqn:Ho; [|done].
    injection Ho1 as <-. simpl. rewrite Forall_lookup in Hin.
    apply Forall_app. split.
    + eapply Forall_impl; [by apply (Hin x o)|]. unfold pointsIn. intros e. lia.
    + eapply Forall_impl; [exact Hl|]. unfold pointsIn. intros e. lia.
  - intros s p q oq off Hs Hf. unfold pointsIn. simpl. by eapply Hq.
  - intros f a s0 s1 xi ox yi oy _ Hs0 _ Hx _. unfold pointsIn. simpl. by eapply Hq.
Qed.

Lemma link_edges_stay_in_store_witness :
  exists d', link 0 orderDump = Ok d' /\
    Forall (fun o => Forall (pointsIn (objects d')) (obj_edges o)) (objects d').
Proof.
  eexists. split; [vm_compute; reflexivity|].
  refine (link_edges_stay_in_store 0 orderDump _ _ eq_refl).
  repeat constructor.
Defined.

(** X14. In a dump without finalizers every edge that [link] adds lands
    inside the payload of the object it leads to: [0 <= tooffset < len],
    for the destination as it is after linking. *)
Theorem link_edges_land_in_destination fuel d d' :
  finalizers d = [] ->
  Forall (fun o => 0 <= obj_addr o) (objects d) ->
  Forall (fun o => Forall (landsIn (objects d)) (obj_edges o)) (objects d) ->
  link fuel d = Ok d' ->
  Forall (fun o => Forall (landsIn (objects d')) (obj_edges o)) (objects d').
Proof.
  intros Hfin Haddr Hin Hl.
  apply (link_grows (landsIn (objects d))) in Hl as [_ Hg].
  - assert (geomOf <$> objects d = geomOf <$> objects d') as Hgeom.
    { rewrite <- (geom_retype (buildTypes (types d))). symmetry.
      apply shape_geom. by eapply grows_shape. }
    apply Forall_lookup. intros x o' Ho'.
    destruct (Forall2_lookup_r _ _ _ _ _ Hg Ho') as (o1 & Ho1 & _ & l & -> & Hl).
    rewrite list_lookup_fmap in Ho1. destruct (objects d !! x) as [o|] eqn:Ho; [|done].
    injection Ho1 as <-. simpl. rewrite Forall_lookup in Hin.
    apply Forall_app. split.
    + eapply Forall_impl; [by apply (Hin x o)|]. intros e. by apply landsIn_geom.
    + eapply Forall_impl; [exact Hl|]. intros e. by apply landsIn_geom.
  - intros s p q oq off Hs Hf.
    pose proof (find_Some _ _ _ _ _ Hf) as (_ & Hq & _).
    apply shape_geom in Hs. rewrite geom_retype in Hs.
    destruct (geom_lookup _ _ _ _ Hs Hq) as (o0 & Ho0 & Ha0 & Hlen0).
    exists o0. split; [done|]. simpl.
    rewrite Forall_lookup in Haddr. pose proof (Haddr q o0 Ho0) as H0.
    apply find_tooffset in Hf; [|lia]. unfold len64 in *. by rewrite Hlen0.
  - intros f a s0 s1 xi ox yi oy Hf. rewrite Hfin in Hf. by apply not_elem_of_nil in Hf.
Qed.

Lemma link_edges_land_in_destination_witness :
  exists d', link 0 efaceDump = Ok d' /\
    Forall (fun o => Forall (landsIn (objects d')) (obj_edges o)) (objects d').
Proof.
  eexists. split; [vm_compute; reflexivity|].
  refine (link_edges_land_in_destination 0 efaceDump _ eq_refl _ _ eq_refl).
  - repeat constructor; vm_compute; discriminate.
  - repeat constructor.
Defined.

(** X15. An object whose type address is not 0 and is the address of no
    Type record stops [link] with "type is missing", whatever else the
    dump holds. *)
Theorem link_type_missing fuel d o :
  o ∈ objects d -> obj_typaddr o <> 0 ->
  Forall (fun t => ty_addr t <> obj_typaddr o) (types d) ->
  link fuel d = Fatal "type is missing".
Proof.
  intros [x Hx]%list_elem_of_lookup_1 Hne Hnone. unfold link, linkPhases.
  unfold bind at 1.
  rewrite (linkTypes_fatal (mkInfo d) _ _ x o); [done| | |done|done|].
  - intros i Hi. apply elem_of_seq in Hi. lia.
  - apply elem_of_seq. apply lookup_lt_Some in Hx. lia.
  - simpl. rewrite buildTypes_lookup. by apply lastWith_None.
Qed.

Lemma link_type_missing_witness :
  link 0 (set_objects emptyDump [mkObject None 0 [] [] 0x1000 0x5000]) =
  Fatal "type is missing".
Proof.
  apply (link_type_missing 0 _ (mkObject None 0 [] [] 0x1000 0x5000)).
  - simpl. left.
  - simpl. lia.
  - simpl. constructor.
Defined.

(** X16. When every object has its type, a goroutine whose stack has no
    frame record of depth 0 at its top-of-stack address stops [link] with
    "tos missing".  (Frame depths stay below 2^64 - 1: a parent is looked
    up at [depth + 1], so the walk from the top frame of an earlier
    goroutine along the parents goes up in depth and ends.) *)
Theorem link_tos_missing fuel d g :
  Forall (fun o => obj_typaddr o = 0 \/
                   exists t, t ∈ types d /\ ty_addr t = obj_typaddr o) (objects d) ->
  Forall (fun f => sf_depth f < two64 - 1) (frames d) ->
  g ∈ goroutines d ->
  Forall (fun f => (sf_addr f, sf_depth f) <> (g_tosaddr g, 0)) (frames d) ->
  link fuel d = Fatal "tos missing".
Proof.
  intros Hty _ Hg Hfr. unfold link, linkPhases. unfold bind at 1.
  destruct (linkTypes_total (mkInfo d) (seq 0 (length (objects d))) (objects d))
    as [s1 ->].
  - intros i Hi. apply elem_of_seq in Hi. lia.
  - eapply Forall_impl; [exact Hty|]. intros o [H0|(t & Hin & Ht)]; [by left|right].
    simpl. rewrite buildTypes_lookup.
    destruct (lastWith ty_addr (obj_typaddr o) (types d)) as [t'|] eqn:Hl; [by eexists|].
    apply lastWith_None in Hl. rewrite Forall_forall in Hl. by destruct (Hl t Hin).
  - unfold bind at 1.
    rewrite (linkGoroutines_fatal (mkInfo d) _ g); [done|done|].
    simpl. rewrite buildFrames_lookup. by apply lastWith_None.
Qed.

Lemma link_tos_missing_witness :
  link 0 lostGoroutineDump = Fatal "tos missing".
Proof.
  apply (link_tos_missing 0 lostGoroutineDump lostGoroutine).
  - constructor.
  - constructor.
  - simpl. left.
  - constructor.
Defined.

Lemma linkObjects_untyped fuel info ids (s s' : list Object) (x : nat) o :
  forM_ (linkObject fuel info) ids s = Ok (tt, s') ->
  s !! x = Some o -> obj_typ o = None -> s' !! x = Some o.
Proof.
  revert s. induction ids as [|a ids IH]; intros s; simpl.
  - by intros [= <-].
  - unfold bind. destruct (linkObject fuel info a s) as [[[] s1]| | |] eqn:Hl; try done.
    intros Hrest Ho Hty. apply (IH s1 Hrest); [|done].
    destruct (decide (a = x)) as [->|Hne].
    + revert Hl. unfold linkObject, bind, get. rewrite Ho, Hty. by intros [= <-].
    + apply (linkObject_Q info (shapeOf <$> s) (fun _ => True)) in Hl as (l & -> & _);
        [|done|done].
      rewrite lookup_addEdges, Ho. simpl. by destruct (decide (a = x)).
Qed.

(** X17. "Typeless objects have no pointers": in a dump without
    finalizers, [link] gives no edge to an object whose type address
    is 0. *)
Theorem link_leaves_untyped_objects fuel d d' (x : nat) o :
  finalizers d = [] ->
  link fuel d = Ok d' ->
  objects d !! x = Some o -> obj_typaddr o = 0 ->
  exists o', objects d' !! x = Some o' /\ obj_typ o' = None /\
             obj_edges o' = obj_edges o.
Proof.
  intros Hfin. unfold link.
  destruct (linkPhases _ _ _ _) as [[[] s4]| | |] eqn:Hl; try done.
  intros [= <-] Ho Hz. simpl. revert Hl. unfold linkPhases. unfold bind at 1.
  destruct (forM_ (linkType _) _ _) as [[[] s1]| | |] eqn:H1; try done.
  unfold bind at 1.
  destruct (forM_ (linkGoroutine _) _ _) as [[[] s2]| | |] eqn:H2; try done.
  apply linkGoroutines_phase in H2 as ->. unfold bind at 1.
  destruct (forM_ (linkObject _ _) _ _) as [[[] s3]| | |] eqn:H3; try done.
  rewrite Hfin. simpl. intros [= <-]. apply linkTypes_map in H1. subst s1.
  exists (retype (buildTypes (types d)) o). split; [|split].
  - eapply linkObjects_untyped; [exact H3| |].
    + by rewrite list_lookup_fmap, Ho.
    + unfold retype. simpl. by rewrite Hz.
  - unfold retype. simpl. by rewrite Hz.
  - done.
Qed.

Lemma link_leaves_untyped_objects_witness :
  exists d' o', link 0 efaceDump = Ok d' /\ objects d' !! 1%nat = Some o' /\
                obj_edges o' = [].
Proof.
  destruct (link_leaves_untyped_objects 0 efaceDump
              (match link 0 efaceDump with Ok d' => d' | _ => emptyDump end)
              1 (mkObject None 0 (le64 0) [] 0x3000 0)
              eq_refl eq_refl eq_refl eq_refl) as (o' & Ho' & _ & He).
  eexists _, o'. split; [vm_compute; reflexivity|]. split; [exact Ho'|exact He].
Defined.

(** X18. An iface field gives its object at most one edge, and that edge
    leaves from the data word, one pointer size behind the field: the
    itab word is never linked, and the data word is linked only when the
    itab of the field says it holds a pointer. *)
Theorem iface_field_links_data_word info x offset f s s' :
  fld_kind f = fieldKindIface ->
  linkField info x offset f s = Ok (tt, s') ->
  exists l, s' = addEdges x l s /\ (length l <= 1)%nat /\
    Forall (fun e => e_fromoffset e =
                     add64 (add64 offset (fld_offset f)) (ptrSize (li_dump info))) l /\
    (l <> [] -> exists tp t,
       readPtrAt info x (add64 offset (fld_offset f)) s = Ok (tp, s) /\
       li_itabs info !! tp = Some t /\ itab_ptr t = true).
Proof.
  intros Hk. unfold linkField. rewrite Hk. simpl.
  assert (exists l, s = addEdges x l s /\ (length l <= 1)%nat /\
            Forall (fun e => e_fromoffset e =
              add64 (add64 offset (fld_offset f)) (ptrSize (li_dump info))) l /\
            (l <> [] -> exists tp t,
               readPtrAt info x (add64 offset (fld_offset f)) s = Ok (tp, s) /\
               li_itabs info !! tp = Some t /\ itab_ptr t = true)) as Hnone.
  { exists []. split; [by rewrite addEdges_nil|]. split; [simpl; lia|].
    split; [constructor|done]. }
  unfold bind. destruct (readPtrAt info x _ s) as [[tp s2]| | |] eqn:Hr; try done.
  pose proof (readPtrAt_state _ _ _ _ _ _ Hr) as ->.
  destruct (tp =? 0); [intros [= <-]; exact Hnone|].
  destruct (li_itabs info !! tp) as [t|] eqn:Ht; [|done].
  destruct (itab_ptr t) eqn:Hp; [|intros [= <-]; exact Hnone].
  intros (p & _ & H)%linkPtr_emits.
  destruct (find s (li_heap info) p) as [[q oq]|].
  - eexists. split; [exact H|]. split; [simpl; lia|].
    split; [by repeat constructor|]. intros _. by exists tp, t.
  - subst s'. exact Hnone.
Qed.

Lemma iface_field_links_data_word_witness :
  exists s' l, linkField (mkInfo ifaceDump) 0 0 (mkField fieldKindIface 0)
                 (objects ifaceDump) = Ok (tt, s') /\
    s' = addEdges 0 l (objects ifaceDump) /\ (length l <= 1)%nat.
Proof.
  destruct (iface_field_links_data_word (mkInfo ifaceDump) 0 0
              (mkField fieldKindIface 0) (objects ifaceDump)
              (match linkField (mkInfo ifaceDump) 0 0 (mkField fieldKindIface 0)
                       (objects ifaceDump) with
               | Ok (_, s') => s' | _ => [] end)
              eq_refl eq_refl) as (l & Hs & Hlen & _).
  eexists _, l. split; [vm_compute; reflexivity|]. split; [exact Hs|exact Hlen].
Defined.

(** X19. A pointer, string, slice, eface or iface field whose first word
    does not fit in the payload of its object makes the linker panic (the
    slice expression [x.data[off:]] or the byte reads of [readPtr] go out
    of range). *)
Theorem field_read_out_of_range info (x : nat) offset f (s : list Object) o :
  supported (li_dump info) = true ->
  s !! x = Some o ->
  0 <= fld_kind f <= 4 ->
  len64 (obj_data o) < add64 offset (fld_offset f) + ptrSize (li_dump info) ->
  linkField info x offset f s = Panic.
Proof.
  intros Hsup Ho Hk Hlen.
  assert (readPtrAt info x (add64 offset (fld_offset f)) s = Panic) as Hr.
  { unfold readPtrAt. rewrite Ho. unfold sliceFrom.
    destruct (Z.leb_spec (add64 offset (fld_offset f)) (len64 (obj_data o))) as [Hle|];
      [|done].
    rewrite readPtr_short; [done|done|].
    unfold len64 in *. rewrite length_drop.
    assert (0 <= add64 offset (fld_offset f)).
    { unfold add64, u64, two64. apply Z.mod_pos_bound. lia. }
    lia. }
  assert (linkPtr info x (add64 offset (fld_offset f)) s = Panic) as Hp.
  { unfold linkPtr, bind. by rewrite Hr. }
  unfold linkField, fieldKindPtr, fieldKindString, fieldKindSlice, fieldKindEface,
    fieldKindIface.
  destruct (Z.eqb_spec (fld_kind f) 0); [done|].
  destruct (Z.eqb_spec (fld_kind f) 1); [done|].
  destruct (Z.eqb_spec (fld_kind f) 2); [done|].
  destruct (Z.eqb_spec (fld_kind f) 4); [unfold bind at 1; by rewrite Hp|].
  destruct (Z.eqb_spec (fld_kind f) 3); [unfold bind at 1; by rewrite Hr|].
  lia.
Qed.

Lemma field_read_out_of_range_witness :
  linkField (mkInfo efaceDump) 0 16 (mkField fieldKindPtr 0) (objects efaceDump) = Panic.
Proof.
  apply (field_read_out_of_range (mkInfo efaceDump) 0 16 (mkField fieldKindPtr 0)
           (objects efaceDump) (mkObject None 0 (le64 0x3000 ++ le64 0x2000) [] 0x1000 0x5000)).
  - reflexivity.
  - reflexivity.
  - vm_compute. split; discriminate.
  - vm_compute. reflexivity.
Defined.

Lemma rawRead_objects_unlinked_witness :
  exists d, rawRead objectStream = Ok d /\ length (objects d) = 1%nat /\
    Forall (fun o => obj_typ o = None /\ obj_edges o = []) (objects d).
Proof.
  eexists. split; [vm_compute; reflexivity|]. split; [reflexivity|].
  refine (rawRead_objects_unlinked objectStream _ eq_refl).
Defined.

(** ** The index builder, once more *)

Lemma foldR_inv {A B} (f : A -> B -> result A) (I : A -> Prop) (l : list B) a a' :
  (forall a b a', I a -> b ∈ l -> f a b = Ok a' -> I a') ->
  I a -> foldR f a l = Ok a' -> I a'.
Proof.
  revert a. induction l as [|b l IH]; intros a Hf Ha; simpl; [by intros [= <-]|].
  destruct (f a b) as [a1| | |] eqn:Hb; try done.
  apply IH.
  - intros a2 b2 a3 H2 Hin. apply Hf; [done|by right].
  - eapply Hf; [done|by left|done].
Qed.


Lemma at_outcome {A} (s : list A) i :
  (exists a, at_ s i = Ok a /\ 0 <= i /\ s !! Z.to_nat i = Some a) \/
  (at_ s i = Panic /\ ~ (0 <= i < Z.of_nat (length s))).
Proof.
  unfold at_. destruct (Z.ltb_spec i 0); [right; split; [done|lia]|].
  destruct (s !! Z.to_nat i) as [a|] eqn:Ha.
  - left. exists a. done.
  - right. split; [done|]. apply lookup_ge_None in Ha. lia.
Qed.

Lemma addToBucket_fold FtId Size (l : list ObjId) (bt bt' : list bucket) :
  foldR (addToBucket FtId Size) bt l = Ok bt' ->
  Forall (fun b => 0 <= bytes b < two64) bt ->
  length bt' = length bt /\
  Forall (fun x => 0 <= FtId x < Z.of_nat (length bt)) l /\
  forall (t : nat) b, bt !! t = Some b ->
    exists b', bt' !! t = Some b' /\
      bkt_objects b' = bkt_objects b ++ filter (fun x => FtId x = Z.of_nat t) l /\
      bytes b' = u64 (bytes b + sumZ (Size <$> filter (fun x => FtId x = Z.of_nat t) l)).
Proof.
  revert bt. induction l as [|x l IH]; intros bt; simpl.
  - intros [= <-] Hr. split; [done|]. split; [constructor|].
    intros t b Hb. exists b. split; [done|]. rewrite app_nil_r. split; [done|].
    rewrite Forall_lookup in Hr. specialize (Hr t b Hb). simpl in Hr.
    unfold u64. rewrite Z.add_0_r, Z.mod_small; done.
  - unfold addToBucket at 1.
    destruct (at_outcome bt (FtId x)) as [(b0 & -> & Hx0 & Hb0)|[-> _]]; [|done].
    intros Hrest Hr.
    apply IH in Hrest as (Hlen & Hall & Hbk).
    2:{ apply Forall_insert; [done|]. simpl. unfold add64, u64, two64.
        apply Z.mod_pos_bound. lia. }
    rewrite length_insert in Hlen, Hall. split; [done|]. split.
    { constructor; [|done]. apply lookup_lt_Some in Hb0. lia. }
    intros t b Hb. rewrite filter_cons.
    destruct (decide (FtId x = Z.of_nat t)) as [Ht|Ht].
    + assert (Z.to_nat (FtId x) = t) as Hnat by lia. rewrite Hnat in *.
      rewrite Hb in Hb0. injection Hb0 as <-.
      destruct (Hbk t (mkBucket (add64 (bytes b) (Size x)) (bkt_objects b ++ [x])))
        as (b' & Hb' & Ho & Hby).
      { apply list_lookup_insert_eq. by eapply lookup_lt_Some. }
      exists b'. split; [done|]. simpl in Ho, Hby. split.
      * rewrite Ho. by rewrite <- app_assoc.
      * rewrite Hby. simpl. unfold add64, u64.
        rewrite Z.add_mod_idemp_l by (by vm_compute). f_equal.
        symmetry. apply Z.add_assoc.
    + destruct (Hbk t b) as (b' & Hb' & Ho & Hby).
      { rewrite list_lookup_insert_ne; [done|]. lia. }
      by exists b'.
Qed.

Lemma addRefs_entries Edges ids (st st' : list ObjId * gmap Z (list ObjId)) :
  foldR (addRefs Edges) st ids = Ok st' ->
  Forall (fun x => 0 <= x) ids ->
  Forall (fun r => r = noRef \/ 0 <= r) (fst st) ->
  Forall (fun r => r = noRef \/ 0 <= r) (fst st').
Proof.
  intros Hfold Hids Hst. revert Hst Hfold.
  apply (foldR_inv (addRefs Edges)
           (fun st => Forall (fun r => r = noRef \/ 0 <= r) (fst st))).
  intros a x a' Ha Hx. unfold addRefs.
  apply (foldR_inv (addRef x)
           (fun st => Forall (fun r => r = noRef \/ 0 <= r) (fst st))); [|done].
  intros [q1 q2] e [q1' q2'] Hq _. unfold addRef. simpl.
  destruct (at_ q1 (To e)) as [r| | |]; try done.
  destruct (r <? 0); intros [= <- <-]; simpl; [|done].
  apply Forall_insert; [done|]. right. rewrite Forall_forall in Hids. by apply Hids.
Qed.

(** X20. The layout of the index of referrers: for an object [d] of the
    dump, [ref1[d]] is the first object, in id order, with an edge to [d],
    and [ref2[d]] lists the sources of all further edges in order;
    [ref1[d]] is exactly [-1] when no object points to [d], so that the
    test [ref1[e.To] < 0] of [prepare] and the test [y != -1] of
    [getReferrers] agree. *)
Theorem ref1_holds_first_referrer nObjects nFTList FtId Size Edges idx d :
  prepare nObjects nFTList FtId Size Edges = Ok idx ->
  0 <= d < Z.of_nat nObjects ->
  ref1 idx !! Z.to_nat d = Some (hd noRef (inbound nObjects Edges d)) /\
  ref2At (ref2 idx) d = tl (inbound nObjects Edges d) /\
  Forall (fun x => 0 <= x) (inbound nObjects Edges d).
Proof.
  intros Hp Hd.
  destruct (prepare_referrerIds _ _ _ _ _ _ Hp) as (Hsp & Hlen & _ & Hrefs).
  assert (Forall (fun r => r = noRef \/ 0 <= r) (ref1 idx)) as Hent.
  { revert Hp. unfold prepare.
    destruct (foldR (addToBucket _ _) _ _) as [bt| | |]; try done.
    destruct (foldR (addRefs _) _ _) as [[r1 r2]| | |] eqn:Hf; try done.
    intros [= <-]. simpl.
    apply (addRefs_entries _ _ _ _ Hf); [apply objIds_nonneg|].
    simpl. apply Forall_replicate. by left. }
  assert (Forall (fun x => 0 <= x) (inbound nObjects Edges d)) as Hnn.
  { unfold inbound. apply Forall_flat_map.
    eapply Forall_impl; [apply (objIds_nonneg nObjects)|].
    intros x Hx. unfold inboundFrom. apply Forall_flat_map. apply Forall_forall.
    intros e _. case_bool_decide; [by constructor|constructor]. }
  specialize (Hrefs d (proj1 Hd)). unfold referrerIds in Hrefs.
  destruct (lookup_lt_is_Some_2 (ref1 idx) (Z.to_nat d)) as [r Hr]; [lia|].
  rewrite Hr in Hrefs. rewrite Forall_lookup in Hent.
  pose proof (Hent _ _ Hr) as Hrr.
  destruct (Z.ltb_spec r 0) as [Hneg|Hpos].
  - rewrite <- Hrefs. simpl. destruct Hrr as [->|?]; [|lia].
    split; [done|]. split; [|constructor].
    apply (Hsp d noRef); [lia|done|unfold noRef; lia].
  - rewrite <- Hrefs in Hnn |- *. simpl. done.
Qed.

Lemma ref1_holds_first_referrer_witness :
  exists idx, prepare 3 2 threeFt threeSize threeEdges = Ok idx /\
    ref1 idx !! 1%nat = Some 0 /\ ref2At (ref2 idx) 1 = [0; 2].
Proof.
  eexists. split; [vm_compute; reflexivity|].
  destruct (ref1_holds_first_referrer 3 2 threeFt threeSize threeEdges _ 1 eq_refl)
    as (H1 & H2 & _); [lia|].
  split; [exact H1|exact H2].
Defined.

(** X21. The histogram by type: [byType] has one bucket for each full
    type; the bucket of type [t] lists the objects of that type in id
    order, and its byte count is the sum of their sizes, modulo 2^64. *)
Theorem byType_groups_objects nObjects nFTList FtId Size Edges idx :
  prepare nObjects nFTList FtId Size Edges = Ok idx ->
  length (byType idx) = nFTList /\
  forall t : nat, (t < nFTList)%nat ->
    exists b, byType idx !! t = Some b /\
      bkt_objects b = ofType nObjects FtId t /\
      bytes b = u64 (sumZ (Size <$> ofType nObjects FtId t)).
Proof.
  unfold prepare.
  destruct (foldR (addToBucket _ _) _ _) as [bt| | |] eqn:Hb; try done.
  destruct (foldR (addRefs _) _ _) as [[r1 r2]| | |]; try done.
  intros [= <-]. simpl.
  apply addToBucket_fold in Hb as (Hlen & _ & Hbk).
  2:{ apply Forall_replicate. simpl. unfold two64. lia. }
  rewrite length_replicate in Hlen. split; [done|]. intros t Ht.
  destruct (Hbk t (mkBucket 0 [])) as (b & Hb & Ho & Hby).
  { by apply lookup_replicate_2. }
  exists b. split; [done|]. split; [exact Ho|]. rewrite Hby. done.
Qed.

Lemma byType_groups_objects_witness :
  exists idx, prepare 3 2 threeFt threeSize threeEdges = Ok idx /\
    exists b, byType idx !! 0%nat = Some b /\ bkt_objects b = [1; 2] /\ bytes b = 16.
Proof.
  eexists. split; [vm_compute; reflexivity|].
  destruct (proj2 (byType_groups_objects 3 2 threeFt threeSize threeEdges _ eq_refl)
              0%nat ltac:(lia)) as (b & Hb & Ho & Hby).
  exists b. split; [exact Hb|]. split; [exact Ho|exact Hby].
Defined.


(** ** The rows of the goroutine listing *)


(** ** An element type of size 0 *)

Lemma passLoop_zero_size fuel (body : Z -> L unit) i bound (s s' : list Object) :
  0 <= i <= bound -> i < two64 ->
  passLoop fuel body i bound 0 s <> Ok (tt, s').
Proof.
  intros Hi Hlt. revert s. induction fuel as [|fuel IH]; intros s; simpl; [done|].
  destruct (Z.leb_spec i bound); [|lia].
  unfold bind. destruct (body i s) as [[[] s1]| | |]; try done.
  replace (add64 i 0) with i; [apply IH|].
  unfold add64, u64. rewrite Z.add_0_r, Z.mod_small; [done|lia].
Qed.

Lemma linkObjects_reach fuel info ids (s s' : list Object) (x : nat) :
  forM_ (linkObject fuel info) ids s = Ok (tt, s') -> x ∈ ids ->
  exists s1 s2, shapeOf <$> s1 = shapeOf <$> s /\
                linkObject fuel info x s1 = Ok (tt, s2).
Proof.
  revert s. induction ids as [|a ids IH]; intros s; simpl.
  - intros _ Hin. by apply not_elem_of_nil in Hin.
  - unfold bind. destruct (linkObject fuel info a s) as [[[] sa]| | |] eqn:Hl; try done.
    intros Hrest [->|Hin]%elem_of_cons; [by exists s, sa|].
    destruct (IH _ Hrest Hin) as (s1 & s2 & Hs & H12). exists s1, s2.
    split; [|done]. rewrite Hs.
    apply (linkObject_Q info (shapeOf <$> s) (fun _ => True)) in Hl as (l & -> & _);
      [|done|done].
    apply shape_addEdges.
Qed.

(** X24. The pass loop of an array object steps by the size of the
    element type, so an element type of size 0 keeps it at offset 0 for
    ever: [link] does not return a dump that holds such an object, however
    long it runs. *)
Theorem link_zero_size_array_diverges fuel d (x : nat) o t :
  objects d !! x = Some o ->
  obj_kind o = typeKindArray ->
  obj_typaddr o <> 0 ->
  lastWith ty_addr (obj_typaddr o) (types d) = Some t ->
  ty_size t = 0 ->
  forall d', link fuel d <> Ok d'.
Proof.
  intros Ho Hk Hta Ht Hsz d'. unfold link.
  destruct (linkPhases _ _ _ _) as [[[] s4]| | |] eqn:Hl; try done.
  intros _. revert Hl. unfold linkPhases. unfold bind at 1.
  destruct (forM_ (linkType _) _ _) as [[[] s1]| | |] eqn:H1; try done.
  unfold bind at 1.
  destruct (forM_ (linkGoroutine _) _ _) as [[[] s2]| | |] eqn:H2; try done.
  apply linkGoroutines_phase in H2 as ->. unfold bind at 1.
  destruct (forM_ (linkObject _ _) _ _) as [[[] s3]| | |] eqn:H3; try done.
  intros _. apply linkTypes_map in H1. subst s1.
  destruct (linkObjects_reach _ _ _ _ _ x H3) as (sa & sb & Hs & Hx).
  { apply elem_of_seq. apply lookup_lt_Some in Ho. lia. }
  assert ((retype (li_types (mkInfo d)) <$> objects d) !! x =
          Some (retype (li_types (mkInfo d)) o)) as Ho1.
  { by rewrite list_lookup_fmap, Ho. }
  symmetry in Hs. destruct (shape_lookup _ _ _ _ Hs Ho1) as (oa & Hoa & Hsh).
  unfold shapeOf in Hsh. simpl in Hsh. injection Hsh as Hty Hkd Hda _ _.
  revert Hx. unfold linkObject, bind, get. rewrite Hoa, Hty.
  destruct (Z.eqb_spec (obj_typaddr o) 0); [done|].
  rewrite buildTypes_lookup, Ht, Hkd, Hk. simpl. rewrite Hsz.
  apply passLoop_zero_size; [|unfold two64; lia].
  split; [lia|]. unfold sub64, u64, two64. apply Z.mod_pos_bound. lia.
Qed.

Lemma link_zero_size_array_diverges_witness :
  link 50 zeroSizeDump = OutOfFuel /\
  link 50 zeroSizeDump <> Ok (set_objects zeroSizeDump []).
Proof.
  split; [vm_compute; reflexivity|].
  apply (link_zero_size_array_diverges 50 zeroSizeDump 0
           (mkObject None typeKindArray (le64 0) [] 0x1000 0x5000) zeroSizeType).
  - reflexivity.
  - reflexivity.
  - simpl. lia.
  - reflexivity.
  - reflexivity.
Defined.
